(** * Web Mercator tile pyramid: projection, quadtree, emptiness list, merge

    A shallow embedding of the tile generator's core
    ([mercator.py], [webmercatorcell.py], [generate_list_of_empties.py],
    [generate.py], [imagetools.py], [prune_empties.py],
    [create_archives.py], [generate_within_polygon.py],
    [create_download_list.py]) and the properties established for it.

    Python [float] values are modelled by the real numbers of the Standard
    Library, Python [int] values by [Z].  The module [Binary64] has the
    subdivision of the quadtree once more in IEEE 754 binary64. *)

From Stdlib Require Import PrimFloat.
From Stdlib Require Import String Ascii.
From Stdlib Require Import Reals Lra Lia ZArith Bool List.
From Stdlib Require Import Permutation Sorted DecimalString DecimalZ DecimalPos.
Import ListNotations.

Set Warnings "-register-all".

Open Scope Z_scope.

(* ================================================================== *)
(** * mercator.py *)
(* ================================================================== *)

Section Mercator.

Local Open Scope R_scope.

(** [R = 6371] in the source; [R] is the type of reals here, hence the
    longer name. *)
Definition R_sphere : R := 6371.

(** [proj_mercator(lat, lng)].  [math.log] and [math.tan] are the total
    functions [ln] and [tan] of the library; Python raises where the
    logarithm is undefined, which needs [|lat| >= 90]. *)
Definition proj_mercator (lat lng : R) : R * R :=
  let x := R_sphere * lng * PI / 180 in
  let y := R_sphere * ln (tan (PI / 4 + lat / 2 * PI / 180)) in
  (x, y).

(** [invert_mercator(x, y)], returning [(lat, lng)]. *)
Definition invert_mercator (x y : R) : R * R :=
  let lng := (x * 180 / PI) / R_sphere in
  let res_log := y / R_sphere in
  let res_tan := exp res_log in
  let res_inner := atan res_tan in
  let lat := 360 * (res_inner - PI / 4) / PI in
  (lat, lng).

End Mercator.

(* ================================================================== *)
(** * webmercatorcell.py *)
(* ================================================================== *)

(** The [WebMercatorCell] dataclass: address, bounding box and the four
    optional children. *)
Inductive WebMercatorCell : Type := mkCell {
  level : Z;
  i : Z;
  j : Z;
  x0 : R;
  x1 : R;
  y0 : R;
  y1 : R;
  cell_0 : option WebMercatorCell;
  cell_1 : option WebMercatorCell;
  cell_2 : option WebMercatorCell;
  cell_3 : option WebMercatorCell
}.

(** The attribute names ['cell_0'] ... ['cell_3'] used with
    [__getattribute__] and [__setattr__]. *)
Inductive CellKey : Type := Cell_0 | Cell_1 | Cell_2 | Cell_3.

Definition getattr (self : WebMercatorCell) (key : CellKey)
  : option WebMercatorCell :=
  match key with
  | Cell_0 => cell_0 self
  | Cell_1 => cell_1 self
  | Cell_2 => cell_2 self
  | Cell_3 => cell_3 self
  end.

Definition setattr (self : WebMercatorCell) (key : CellKey)
  (v : option WebMercatorCell) : WebMercatorCell :=
  match self with
  | mkCell l a b xa xb ya yb c0 c1 c2 c3 =>
    match key with
    | Cell_0 => mkCell l a b xa xb ya yb v c1 c2 c3
    | Cell_1 => mkCell l a b xa xb ya yb c0 v c2 c3
    | Cell_2 => mkCell l a b xa xb ya yb c0 c1 v c3
    | Cell_3 => mkCell l a b xa xb ya yb c0 c1 c2 v
    end
  end.

(** One row of the table the loop of [conditional_recursive_subdivide]
    runs over: [(cell_key, i, j, x0, x1, y0, y1)]. *)
Definition SubdivisionRow : Type := (CellKey * Z * Z * R * R * R * R)%type.

Definition subdivision_table (self : WebMercatorCell) : list SubdivisionRow :=
  let xmid := ((x0 self + x1 self) / 2)%R in
  let ymid := ((y0 self + y1 self) / 2)%R in
  [ (Cell_0, 2 * i self, 2 * j self, x0 self, xmid, y0 self, ymid);
    (Cell_1, 2 * i self + 1, 2 * j self, xmid, x1 self, y0 self, ymid);
    (Cell_2, 2 * i self, 2 * j self + 1, x0 self, xmid, ymid, y1 self);
    (Cell_3, 2 * i self + 1, 2 * j self + 1, xmid, x1 self, ymid, y1 self) ].

(** [self.__getattribute__(cell_key) or WebMercatorCell(...)]: an attached
    child is reused (an object is always truthy), otherwise a childless
    cell is constructed. *)
Definition candidate (self : WebMercatorCell) (row : SubdivisionRow)
  : WebMercatorCell :=
  let '(cell_key, a, b, xa, xb, ya, yb) := row in
  match getattr self cell_key with
  | Some c => c
  | None => mkCell (level self + 1) a b xa xb ya yb None None None None
  end.

Definition row_key (row : SubdivisionRow) : CellKey :=
  let '(cell_key, _, _, _, _, _, _) := row in cell_key.

(** [conditional_recursive_subdivide].  The method mutates [self] in
    place; here it returns the updated cell.  The recursion is bounded by
    [fuel]; [None] means the bound was too small. *)
Fixpoint conditional_recursive_subdivide (fuel : nat)
  (condition : WebMercatorCell -> bool) (max_depth : Z)
  (self : WebMercatorCell) {struct fuel} : option WebMercatorCell :=
  match fuel with
  | O => None
  | S fuel' =>
    if level self >=? max_depth then Some self
    else
      fold_left
        (fun (acc : option WebMercatorCell) (row : SubdivisionRow) =>
           match acc with
           | None => None
           | Some cur =>
             let cell := candidate cur row in
             if condition cell then
               match conditional_recursive_subdivide fuel' condition
                       max_depth cell with
               | Some cell' => Some (setattr cur (row_key row) (Some cell'))
               | None => None
               end
             else Some cur
           end)
        (subdivision_table self) (Some self)
  end.

(** The number of nested calls [conditional_recursive_subdivide] can make
    below [self]: one for [self], then the deepest candidate; a freshly
    constructed child at level [l + 1] needs [max_depth - l] calls. *)
Fixpoint recursion_depth (max_depth : Z) (self : WebMercatorCell) : nat :=
  match self with
  | mkCell l _ _ _ _ _ _ c0 c1 c2 c3 =>
    let d (o : option WebMercatorCell) :=
      match o with
      | Some c => recursion_depth max_depth c
      | None => Z.to_nat (max_depth - l)
      end in
    S (Nat.max (Nat.max (d c0) (d c1)) (Nat.max (d c2) (d c3)))
  end.

(** [full_recursive_subdivide], run with the fuel that suffices. *)
Definition full_recursive_subdivide (max_depth : Z) (self : WebMercatorCell)
  : option WebMercatorCell :=
  conditional_recursive_subdivide (recursion_depth max_depth self)
    (fun _ => true) max_depth self.

(** [flatten]: the cell itself, then the flattened children in the order
    [cell_0], [cell_1], [cell_2], [cell_3]. *)
Fixpoint flatten (self : WebMercatorCell) : list WebMercatorCell :=
  match self with
  | mkCell _ _ _ _ _ _ _ c0 c1 c2 c3 =>
    let sub (o : option WebMercatorCell) :=
      match o with
      | Some c => flatten c
      | None => []
      end in
    self :: sub c0 ++ sub c1 ++ sub c2 ++ sub c3
  end.

(** The root cell built by [generate_webmercator_grid] before it is
    subdivided. *)
Definition webmercator_root : WebMercatorCell :=
  let x0a := fst (proj_mercator 0 (-180)) in
  let x1a := fst (proj_mercator 0 180) in
  let lat0 := fst (invert_mercator 0 x0a) in
  let lat1 := fst (invert_mercator 0 x1a) in
  let '(x0b, y0b) := proj_mercator lat1 (-180) in
  let '(x1b, y1b) := proj_mercator lat0 180 in
  mkCell 0 0 0 x0b x1b y0b y1b None None None None.

(** [generate_webmercator_grid]. *)
Definition generate_webmercator_grid (refine_to_level : Z)
  : option WebMercatorCell :=
  full_recursive_subdivide refine_to_level webmercator_root.

(* ================================================================== *)
(** * webmercatorcell.py: the subdivision in binary64 *)
(* ================================================================== *)

(** The subdivision once more, with the [float] fields of the dataclass
    as IEEE 754 binary64 numbers and the midpoints rounded as Python
    rounds them.  The real numbers above round nothing; this module is
    for the properties of the subdivision that the rounding decides. *)
Module Binary64.

Inductive WebMercatorCell : Type := mkCell {
  level : Z;
  i : Z;
  j : Z;
  x0 : PrimFloat.float;
  x1 : PrimFloat.float;
  y0 : PrimFloat.float;
  y1 : PrimFloat.float;
  cell_0 : option WebMercatorCell;
  cell_1 : option WebMercatorCell;
  cell_2 : option WebMercatorCell;
  cell_3 : option WebMercatorCell
}.

Definition getattr (self : WebMercatorCell) (key : CellKey)
  : option WebMercatorCell :=
  match key with
  | Cell_0 => cell_0 self
  | Cell_1 => cell_1 self
  | Cell_2 => cell_2 self
  | Cell_3 => cell_3 self
  end.

Definition setattr (self : WebMercatorCell) (key : CellKey)
  (v : option WebMercatorCell) : WebMercatorCell :=
  match self with
  | mkCell l a b xa xb ya yb c0 c1 c2 c3 =>
    match key with
    | Cell_0 => mkCell l a b xa xb ya yb v c1 c2 c3
    | Cell_1 => mkCell l a b xa xb ya yb c0 v c2 c3
    | Cell_2 => mkCell l a b xa xb ya yb c0 c1 v c3
    | Cell_3 => mkCell l a b xa xb ya yb c0 c1 c2 v
    end
  end.

(** [xmid = (self.x0 + self.x1) / 2] and [ymid = (self.y0 + self.y1) / 2]:
    the sum is rounded to the nearest binary64 number, ties to even, and
    so is the quotient. *)
Definition xmid (self : WebMercatorCell) : PrimFloat.float :=
  ((x0 self + x1 self) / 2)%float.

Definition ymid (self : WebMercatorCell) : PrimFloat.float :=
  ((y0 self + y1 self) / 2)%float.

Definition SubdivisionRow : Type :=
  (CellKey * Z * Z * PrimFloat.float * PrimFloat.float
   * PrimFloat.float * PrimFloat.float)%type.

Definition subdivision_table (self : WebMercatorCell) : list SubdivisionRow :=
  [ (Cell_0, 2 * i self, 2 * j self, x0 self, xmid self, y0 self, ymid self);
    (Cell_1, 2 * i self + 1, 2 * j self, xmid self, x1 self,
     y0 self, ymid self);
    (Cell_2, 2 * i self, 2 * j self + 1, x0 self, xmid self,
     ymid self, y1 self);
    (Cell_3, 2 * i self + 1, 2 * j self + 1, xmid self, x1 self,
     ymid self, y1 self) ].

Definition candidate (self : WebMercatorCell) (row : SubdivisionRow)
  : WebMercatorCell :=
  let '(cell_key, a, b, xa, xb, ya, yb) := row in
  match getattr self cell_key with
  | Some c => c
  | None => mkCell (level self + 1) a b xa xb ya yb None None None None
  end.

Definition row_key (row : SubdivisionRow) : CellKey :=
  let '(cell_key, _, _, _, _, _, _) := row in cell_key.

(** [conditional_recursive_subdivide], with the updated cell returned and
    the recursion bounded by [fuel], as above. *)
Fixpoint conditional_recursive_subdivide (fuel : nat)
  (condition : WebMercatorCell -> bool) (max_depth : Z)
  (self : WebMercatorCell) {struct fuel} : option WebMercatorCell :=
  match fuel with
  | O => None
  | S fuel' =>
    if level self >=? max_depth then Some self
    else
      fold_left
        (fun (acc : option WebMercatorCell) (row : SubdivisionRow) =>
           match acc with
           | None => None
           | Some cur =>
             let cell := candidate cur row in
             if condition cell then
               match conditional_recursive_subdivide fuel' condition
                       max_depth cell with
               | Some cell' => Some (setattr cur (row_key row) (Some cell'))
               | None => None
               end
             else Some cur
           end)
        (subdivision_table self) (Some self)
  end.

(** The number of nested calls below [self], as above. *)
Fixpoint recursion_depth (max_depth : Z) (self : WebMercatorCell) : nat :=
  match self with
  | mkCell l _ _ _ _ _ _ c0 c1 c2 c3 =>
    let d (o : option WebMercatorCell) :=
      match o with
      | Some c => recursion_depth max_depth c
      | None => Z.to_nat (max_depth - l)
      end in
    S (Nat.max (Nat.max (d c0) (d c1)) (Nat.max (d c2) (d c3)))
  end.

End Binary64.

(* ================================================================== *)
(** * generate_list_of_empties.py *)
(* ================================================================== *)

(** ** GeoJSON objects, as [geojson.load] hands them over *)

(** The [coordinates] member of a geometry: a position or a list of
    coordinates. *)
Inductive Coordinates : Type :=
| Position (lng lat : R)
| Nested (items : list Coordinates).

Record Geometry : Type := mkGeometry {
  geometry_type : string;
  coordinates : Coordinates
}.

(** A feature; [geometry] is [None] for a JSON [null]. *)
Record Feature : Type := mkFeature {
  geometry : option Geometry
}.

(** The loaded document: only a [FeatureCollection] has a ['features']
    member. *)
Inductive GeoJSON : Type :=
| FeatureCollection (features : list Feature)
| FeatureObject (feature : Feature)
| GeometryObject (geom : Geometry).

(** ** Exceptions *)

Inductive PyError : Type :=
| KeyError (key : string)
| TypeError
| ValueError
| RecursionError.

Inductive outcome (A : Type) : Type :=
| Returns (a : A)
| Raises (e : PyError).

Arguments Returns {A} a.
Arguments Raises {A} e.

Definition bind {A B : Type} (m : outcome A) (k : A -> outcome B)
  : outcome B :=
  match m with
  | Returns a => k a
  | Raises e => Raises e
  end.

Notation "x <- m ;; k" := (bind m (fun x => k))
  (at level 61, m at next level, right associativity).

(** [j['features']]. *)
Definition get_features (doc : GeoJSON) : outcome (list Feature) :=
  match doc with
  | FeatureCollection features => Returns features
  | _ => Raises (KeyError "features"%string)
  end.

(** [needle in hay] on strings. *)
Fixpoint str_contains (needle hay : string) : bool :=
  String.prefix needle hay
  || match hay with
     | EmptyString => false
     | String _ rest => str_contains needle rest
     end.

(** [list(filter(lambda feature: 'Polygon' in feature['geometry']['type'],
    features))]; subscripting a [None] geometry raises [TypeError]. *)
Fixpoint filter_polygons (features : list Feature)
  : outcome (list Feature) :=
  match features with
  | [] => Returns []
  | feature :: rest =>
    match geometry feature with
    | None => Raises TypeError
    | Some g =>
      kept <- filter_polygons rest ;;
      Returns (if str_contains "Polygon"%string (geometry_type g)
               then feature :: kept else kept)
    end
  end.

(** [Feature(geometry=Polygon([[(lng0, lat0), (lng1, lat0), (lng1, lat1),
    (lng0, lat1), (lng0, lat0)]]))] for the corners of [cell]. *)
Definition cell_polygon (cell : WebMercatorCell) : Feature :=
  let '(lat0, lng0) := invert_mercator (x0 cell) (y0 cell) in
  let '(lat1, lng1) := invert_mercator (x1 cell) (y1 cell) in
  mkFeature (Some (mkGeometry "Polygon"%string
    (Nested [Nested [Position lng0 lat0; Position lng1 lat0;
                     Position lng1 lat1; Position lng0 lat1;
                     Position lng0 lat0]]))).

(** ** The set [empties] *)

Definition Req_bool (a b : R) : bool :=
  if Req_dec_T a b then true else false.

(** The [__eq__] the dataclass generates: all fields, children included. *)
Fixpoint cell_eqb (a b : WebMercatorCell) {struct a} : bool :=
  match a, b with
  | mkCell l ia ja xa0 xa1 ya0 ya1 a0 a1 a2 a3,
    mkCell m ib jb xb0 xb1 yb0 yb1 b0 b1 b2 b3 =>
    let opt_eqb (o : option WebMercatorCell) (p : option WebMercatorCell) :=
      match o, p with
      | Some c, Some d => cell_eqb c d
      | None, None => true
      | _, _ => false
      end in
    (l =? m) && (ia =? ib) && (ja =? jb)
    && Req_bool xa0 xb0 && Req_bool xa1 xb1
    && Req_bool ya0 yb0 && Req_bool ya1 yb1
    && opt_eqb a0 b0 && opt_eqb a1 b1 && opt_eqb a2 b2 && opt_eqb a3 b3
  end.

(** [cell in empties]; cells with equal fields have equal hashes, so the
    lookup is decided by [__eq__]. *)
Definition set_mem (cell : WebMercatorCell) (empties : list WebMercatorCell)
  : bool :=
  existsb (cell_eqb cell) empties.

(** [child in empties] for an attribute that may be [None]. *)
Definition child_mem (child : option WebMercatorCell)
  (empties : list WebMercatorCell) : bool :=
  match child with
  | Some c => set_mem c empties
  | None => false
  end.

(** [empties.add(cell)]. *)
Definition set_add (cell : WebMercatorCell) (empties : list WebMercatorCell)
  : list WebMercatorCell :=
  if set_mem cell empties then empties else empties ++ [cell].

(** [range(start, stop, -1)]. *)
Definition range_down (start stop : Z) : list Z :=
  map (fun k => start - Z.of_nat k) (seq 0 (Z.to_nat (start - stop))).

Section Emptiness.

(** [turfpy.transformation.intersect([a, b])]: the intersection feature,
    or [None]. *)
Variable intersect : Feature -> Feature -> option Feature.

(** [any(map(lambda f: intersect([f, polygon]) is not None, features))],
    together with the calls of [intersect] it makes; [any] stops at the
    first hit. *)
Fixpoint any_intersects (polygon : Feature) (features : list Feature)
  : bool * list (Feature * Feature) :=
  match features with
  | [] => (false, [])
  | f :: rest =>
    match intersect f polygon with
    | Some _ => (true, [(f, polygon)])
    | None =>
      let '(hit, calls) := any_intersects polygon rest in
      (hit, (f, polygon) :: calls)
    end
  end.

(** The clipping of the polygons to one partition cell. *)
Definition clip_polygons (polygons : list Feature) (polygon : Feature)
  : list Feature :=
  flat_map (fun p => match intersect p polygon with
                     | Some v => [v]
                     | None => []
                     end) polygons.

(** The classification of one cell of the highest level: [does_intersect]
    and the calls of [intersect] made for it. *)
Definition does_intersect (polygons_clipped : list Feature)
  (cell : WebMercatorCell) : bool * list (Feature * Feature) :=
  let lat0 := fst (invert_mercator (x0 cell) (y0 cell)) in
  let lat1 := fst (invert_mercator (x1 cell) (y1 cell)) in
  let polygon := cell_polygon cell in
  if Rlt_dec lat0 (-60) then (false, [])
  else if Rgt_dec lat1 60 then (false, [])
  else any_intersects polygon polygons_clipped.

(** The inner loop over [highest_level_cells]. *)
Definition classify_cells (polygons_clipped : list Feature)
  (highest_level_cells : list WebMercatorCell)
  (empties : list WebMercatorCell) : list WebMercatorCell :=
  fold_left
    (fun empties cell =>
       if negb (fst (does_intersect polygons_clipped cell))
       then set_add cell empties else empties)
    highest_level_cells empties.

(** The loop over [intermediate_cells]. *)
Definition classify_partitions (polygons : list Feature) (max_level : Z)
  (intermediate_cells : list WebMercatorCell)
  (empties : list WebMercatorCell) : list WebMercatorCell :=
  fold_left
    (fun empties intermediate_cell =>
       let polygons_clipped :=
         clip_polygons polygons (cell_polygon intermediate_cell) in
       let highest_level_cells :=
         filter (fun v => level v =? max_level)
                (flatten intermediate_cell) in
       classify_cells polygons_clipped highest_level_cells empties)
    intermediate_cells empties.

(** One level of the sweep up the hierarchy. *)
Definition sweep_level (cells_of_level : list WebMercatorCell)
  (empties : list WebMercatorCell) : list WebMercatorCell :=
  fold_left
    (fun empties cell =>
       if child_mem (cell_0 cell) empties && child_mem (cell_1 cell) empties
          && child_mem (cell_2 cell) empties
          && child_mem (cell_3 cell) empties
       then set_add cell empties else empties)
    cells_of_level empties.

(** The loop [for level in range(max_level - 1, min_level - 1, -1)]. *)
Definition sweep_up (all_cells : list WebMercatorCell)
  (min_level max_level : Z) (empties : list WebMercatorCell)
  : list WebMercatorCell :=
  fold_left
    (fun empties lvl =>
       sweep_level (filter (fun v => level v =? lvl) all_cells) empties)
    (range_down (max_level - 1) (min_level - 1)) empties.

(** [generate_list_of_empty_tiles]; the argument is the loaded GeoJSON
    document. *)
Definition generate_list_of_empty_tiles (doc : GeoJSON)
  (min_level max_level : Z) : outcome (list WebMercatorCell) :=
  features <- get_features doc ;;
  polygons <- filter_polygons features ;;
  match generate_webmercator_grid max_level with
  | None => Raises RecursionError
  | Some root =>
    let all_cells := filter (fun v => level v >=? min_level) (flatten root) in
    let intermediate_cells :=
      filter (fun v => level v =? Z.max min_level (max_level - 7))
             all_cells in
    let empties :=
      classify_partitions polygons max_level intermediate_cells [] in
    Returns (sweep_up all_cells min_level max_level empties)
  end.

End Emptiness.

(* ================================================================== *)
(** * numpy arrays *)
(* ================================================================== *)

(** A two-dimensional array, as the list of its rows. *)
Definition ndarray (A : Type) : Type := list (list A).

(** [np.zeros((h, w))], also [np.ndarray((h, w))] followed by [fill(0)]. *)
Definition zeros (h w : nat) : ndarray R := repeat (repeat 0%R w) h.

(** [a.shape == (h, w)]. *)
Definition has_shape {A : Type} (h w : nat) (a : ndarray A) : Prop :=
  length a = h /\ Forall (fun row => length row = w) a.

(** A slice [lo:hi] with optional bounds. *)
Definition Slice : Type := (option Z * option Z)%type.

Definition upto (hi : Z) : Slice := (None, Some hi).
Definition from (lo : Z) : Slice := (Some lo, None).
Definition between (lo hi : Z) : Slice := (Some lo, Some hi).
Definition whole : Slice := (None, None).

(** A slice bound on a sequence of length [n]: negative bounds count from
    the end, and every bound is clamped to [0 .. n]. *)
Definition slice_bound (n : nat) (k : Z) : nat :=
  if k <? 0 then Z.to_nat (Z.of_nat n + k) else Nat.min (Z.to_nat k) n.

Definition slice_range (s : Slice) (n : nat) : nat * nat :=
  (match fst s with Some k => slice_bound n k | None => O end,
   match snd s with Some k => slice_bound n k | None => n end).

(** [l[lo:hi]]. *)
Definition py_slice {A : Type} (s : Slice) (l : list A) : list A :=
  let '(a, b) := slice_range s (length l) in
  firstn (b - a) (skipn a l).

(** [a[rows, cols]]. *)
Definition getitem2 {A : Type} (rows cols : Slice) (a : ndarray A)
  : ndarray A :=
  map (py_slice cols) (py_slice rows a).

(** [row[lo:hi] = src] for a source of the length of the slice; numpy
    raises [ValueError] for another length. *)
Definition assign_row {A : Type} (cols : Slice) (row src : list A)
  : outcome (list A) :=
  let '(a, b) := slice_range cols (length row) in
  if Nat.eqb (length src) (b - a)
  then Returns (firstn a row ++ src ++ skipn (a + (b - a)) row)
  else Raises ValueError.

Fixpoint assign_rows {A : Type} (cols : Slice) (rows : list (list A))
  (src : ndarray A) : outcome (list (list A)) :=
  match rows, src with
  | [], [] => Returns []
  | row :: rows', srow :: src' =>
    row' <- assign_row cols row srow ;;
    rest <- assign_rows cols rows' src' ;;
    Returns (row' :: rest)
  | _, _ => Raises ValueError
  end.

(** [a[rows, cols] = src], returning the updated array.  The shapes have
    to agree (broadcasting is not needed by the callers and not
    modelled). *)
Definition setitem2 {A : Type} (rows cols : Slice) (src : ndarray A)
  (a : ndarray A) : outcome (ndarray A) :=
  let '(ra, rb) := slice_range rows (length a) in
  mid <- assign_rows cols (firstn (rb - ra) (skipn ra a)) src ;;
  Returns (firstn ra a ++ mid ++ skipn (ra + (rb - ra)) a).

(* ================================================================== *)
(** * imagetools.py: to_hillshade *)
(* ================================================================== *)

Definition HILLSHADE_AZIMUTH : Z := 60.

(** Arithmetic of [np.uint8] wraps around modulo 256. *)
Definition uint8 (z : Z) : Z := z mod 256.

(** [255 - ((255 - out_array) // 3)] on one [uint8] element. *)
Definition lighten (v : Z) : Z :=
  uint8 (255 - uint8 (uint8 (255 - v) / 3)).

Section Hillshade.

(** [earthpy.spatial.hillshade(data, azimuth=...)]. *)
Variable es_hillshade : ndarray R -> Z -> ndarray R.

(** The conversion of one float to an integer that [np.asarray(...,
    OUT_DTYPE)] applies before the value is stored as [uint8]. *)
Variable float_to_int : R -> Z.

(** [out_array] after [np.asarray(hillshade, OUT_DTYPE)]. *)
Definition hillshade_uint8 (data : ndarray R) : ndarray Z :=
  map (map (fun x => uint8 (float_to_int x)))
      (es_hillshade data HILLSHADE_AZIMUTH).

(** [to_hillshade]: the luminance values of the image returned. *)
Definition to_hillshade (data : ndarray R) : ndarray Z :=
  map (map lighten) (hillshade_uint8 data).

End Hillshade.

(* ================================================================== *)
(** * generate.py: the pyramid merge *)
(* ================================================================== *)

(** The height thumbnails below [tile_directory]: the decoded content of
    [level/i/j.hgt.pgm], or [None] where the file does not exist. *)
Definition TileStore : Type := Z -> Z -> Z -> option (ndarray R).

(** [_get_heightdata].  [2 ** level] is [2 ^ level] for the levels
    [>= 0] the callers pass. *)
Definition _get_heightdata (tile_directory : TileStore) (level i j : Z)
  : ndarray R :=
  let maxindex := 2 ^ level in
  let i := if i <? 0 then maxindex + i
           else if i >=? maxindex then i - maxindex
           else i in
  match tile_directory level i j with
  | None => zeros 128 128
  | Some img => img
  end.

(** The buffer [data] of [_generate_merged_cell_from_subcells] when it is
    handed to [to_hillshade]. *)
Definition merged_heightdata (tile_directory : TileStore)
  (cell : WebMercatorCell) (level : Z) : outcome (ndarray R) :=
  let lvl := level + 1 in
  let i0 := 2 * i cell in
  let j0 := 2 * j cell in
  let margin := 8 in
  let get := _get_heightdata tile_directory lvl in
  let data := zeros (256 + 2 * 8) (256 + 2 * 8) in
  (* core data *)
  data <- setitem2 (between margin (128 + margin))
            (between margin (128 + margin)) (get i0 j0) data ;;
  data <- setitem2 (between margin (128 + margin))
            (between (128 + margin) (256 + margin)) (get (i0 + 1) j0) data ;;
  data <- setitem2 (between (128 + margin) (256 + margin))
            (between margin (128 + margin)) (get i0 (j0 + 1)) data ;;
  data <- setitem2 (between (128 + margin) (256 + margin))
            (between (128 + margin) (256 + margin))
            (get (i0 + 1) (j0 + 1)) data ;;
  (* margins *)
  data <- setitem2 (upto margin) (upto margin)
            (getitem2 (from (- margin)) (from (- margin))
               (get (i0 - 1) (j0 - 1))) data ;;
  data <- setitem2 (upto margin) (between margin (128 + margin))
            (getitem2 (from (- margin)) whole (get i0 (j0 - 1))) data ;;
  data <- setitem2 (upto margin) (between (128 + margin) (256 + margin))
            (getitem2 (from (- margin)) whole (get (i0 + 1) (j0 - 1)))
            data ;;
  data <- setitem2 (upto margin) (from (256 + margin))
            (getitem2 (from (- margin)) (upto margin)
               (get (i0 + 2) (j0 - 1))) data ;;
  data <- setitem2 (between margin (128 + margin)) (upto margin)
            (getitem2 whole (from (- margin)) (get (i0 - 1) j0)) data ;;
  data <- setitem2 (between margin (128 + margin)) (from (256 + margin))
            (getitem2 whole (upto margin) (get (i0 + 2) j0)) data ;;
  data <- setitem2 (between (128 + margin) (256 + margin)) (upto margin)
            (getitem2 whole (from (- margin)) (get (i0 - 1) (j0 + 1)))
            data ;;
  data <- setitem2 (between (128 + margin) (256 + margin))
            (from (256 + margin))
            (getitem2 whole (upto margin) (get (i0 + 2) (j0 + 1))) data ;;
  data <- setitem2 (from (256 + margin)) (upto margin)
            (getitem2 (upto margin) (from (- margin))
               (get (i0 - 1) (j0 + 2))) data ;;
  data <- setitem2 (from (256 + margin)) (between margin (128 + margin))
            (getitem2 (upto margin) whole (get i0 (j0 + 2))) data ;;
  data <- setitem2 (from (256 + margin))
            (between (128 + margin) (256 + margin))
            (getitem2 (upto margin) whole (get (i0 + 1) (j0 + 2))) data ;;
  data <- setitem2 (from (256 + margin)) (from (256 + margin))
            (getitem2 (upto margin) (upto margin)
               (get (i0 + 2) (j0 + 2))) data ;;
  Returns data.

(* ================================================================== *)
(** * webmercatorcell.py: contains *)
(* ================================================================== *)

Definition Rlt_bool (a b : R) : bool :=
  if Rlt_dec a b then true else false.

(** [contains]: [not (x < x0 or x > x1 or y < y1 or y > y0)]. *)
Definition contains (self : WebMercatorCell) (x y : R) : bool :=
  negb (Rlt_bool x (x0 self) || Rlt_bool (x1 self) x
        || Rlt_bool y (y1 self) || Rlt_bool (y0 self) y).

(* ================================================================== *)
(** * Pruning: webmercatorcell.py and prune_empties.py *)
(* ================================================================== *)

(** [prune_children]: every attached child that satisfies the condition
    is detached, the others are pruned in turn.  The method mutates the
    tree; here it returns the pruned one. *)
Fixpoint prune_children (condition : WebMercatorCell -> bool)
  (self : WebMercatorCell) : WebMercatorCell :=
  match self with
  | mkCell l a b xa xb ya yb c0 c1 c2 c3 =>
    let visit_child (o : option WebMercatorCell) :=
      match o with
      | None => None
      | Some child =>
        if condition child then None
        else Some (prune_children condition child)
      end in
    mkCell l a b xa xb ya yb
           (visit_child c0) (visit_child c1)
           (visit_child c2) (visit_child c3)
  end.

(** An [EmptyChecker]: the set [_empty_set] of addresses. *)
Definition EmptyChecker : Type := list (Z * Z * Z).

Definition address_eqb (a b : Z * Z * Z) : bool :=
  let '(l, x, y) := a in
  let '(l', x', y') := b in
  (l =? l') && (x =? x') && (y =? y').

(** [EmptyChecker.__call__]: [(cell.level, cell.i, cell.j) in
    self._empty_set]. *)
Definition checker_call (checker : EmptyChecker) (cell : WebMercatorCell)
  : bool :=
  existsb (address_eqb (level cell, i cell, j cell)) checker.

(** [_inner_prune_empties]: the tree after the call, and the count
    returned. *)
Fixpoint _inner_prune_empties (root : WebMercatorCell)
  (checker : EmptyChecker) : WebMercatorCell * Z :=
  match root with
  | mkCell l a b xa xb ya yb c0 c1 c2 c3 =>
    let visit_key (o : option WebMercatorCell) (prune_count : Z)
      : option WebMercatorCell * Z :=
      match o with
      | None => (None, prune_count)
      | Some child =>
        if checker_call checker child then (None, prune_count + 1)
        else
          let '(child', n) := _inner_prune_empties child checker in
          (Some child', prune_count + n)
      end in
    let '(c0', n0) := visit_key c0 0 in
    let '(c1', n1) := visit_key c1 n0 in
    let '(c2', n2) := visit_key c2 n1 in
    let '(c3', n3) := visit_key c3 n2 in
    (mkCell l a b xa xb ya yb c0' c1' c2' c3', n3)
  end.

(* ================================================================== *)
(** * create_archives.py: create_packages *)
(* ================================================================== *)

(** [range(start, stop)]. *)
Definition range_up (start stop : Z) : list Z :=
  map (fun k => start + Z.of_nat k) (seq 0 (Z.to_nat (stop - start))).

(** [str] of an [int], as an f-string formats it (the bound of CPython
    on the number of digits of a conversion is not modelled). *)
Definition str_int (z : Z) : string := NilZero.string_of_int (Z.to_int z).

Record ZipPackage : Type := mkZipPackage {
  key : Z * Z * Z;
  filename : string;
  description : string;
  tiles : list WebMercatorCell
}.

(** The order of the tuples that are the keys. *)
Definition key_leb (a b : Z * Z * Z) : bool :=
  let '(l, x, y) := a in
  let '(l', x', y') := b in
  (l <? l') || ((l =? l') && ((x <? x') || ((x =? x') && (y <=? y')))).

(** [packages.sort(key=...)]: the sort is stable. *)
Fixpoint insert_package (p : ZipPackage) (l : list ZipPackage)
  : list ZipPackage :=
  match l with
  | [] => [p]
  | q :: l' =>
    if key_leb (key p) (key q) then p :: q :: l'
    else q :: insert_package p l'
  end.

Definition sort_packages (l : list ZipPackage) : list ZipPackage :=
  fold_right insert_package [] l.

Section Packages.

(** The text of the description of a block package: an f-string over
    the level and the block, with the corner coordinates formatted as
    [:.6f]. *)
Variable block_description : Z -> WebMercatorCell -> string.

(** [create_packages].  [checker] is what [load_empties] hands to
    [prune_empties], and [None] for [prune_empty_nodes=False]. *)
Definition create_packages (max_level : Z) (checker : option EmptyChecker)
  : option (list ZipPackage) :=
  match generate_webmercator_grid max_level with
  | None => None
  | Some root =>
    let root :=
      match checker with
      | Some ch => fst (_inner_prune_empties root ch)
      | None => root
      end in
    let all_cells := flatten root in
    let packages :=
      [ mkZipPackage (0, 0, 0) "tiles__0_to_5"
          "All non-empty tiles of levels 0 to 5."
          (filter (fun v => level v <=? 5) all_cells) ] in
    let packages :=
      packages ++
      flat_map
        (fun lvl =>
           let block_level := lvl - 6 in
           let blocks := filter (fun v => level v =? block_level) all_cells in
           map (fun block =>
                  mkZipPackage (lvl, i block, j block)
                    ("tiles__" ++ str_int lvl ++ "__"
                     ++ str_int (level block) ++ "_" ++ str_int (i block)
                     ++ "_" ++ str_int (j block))
                    (block_description lvl block)
                    (filter (fun v => level v =? lvl) (flatten block)))
               blocks)
        (range_up 6 (max_level + 1)) in
    Some (sort_packages packages)
  end.

End Packages.

(* ================================================================== *)
(** * generate.py: the tiles a run generates *)
(* ================================================================== *)

(** [generate_mercator_tile_grid]: the cells [node_list] that are handed
    to [_generate_tile_from_data], once the height data of the node is
    loaded and projected. *)
Definition generate_mercator_tile_grid (node : WebMercatorCell)
  (checker : EmptyChecker) (lvl : Z) : list WebMercatorCell :=
  if checker_call checker node then []
  else filter (fun v => (level v =? lvl) && negb (checker_call checker v))
              (flatten node).

(** [hierarchically_merge_lower_level_cells]: the calls of
    [_generate_merged_cell_from_subcells], in their order. *)
Definition hierarchically_merge_lower_level_cells
  (all_cells : list WebMercatorCell) (maxlevel minlevel : Z)
  : list (WebMercatorCell * Z) :=
  flat_map (fun lvl =>
              map (fun cell => (cell, lvl))
                  (filter (fun v => level v =? lvl) all_cells))
           (range_down maxlevel (minlevel - 1)).

(** [generate_tiles], for a tile directory that does not exist yet
    (otherwise the run exits): the cells whose tile is generated from
    the height data, and the calls of the merge that follow.  [checker]
    is what [prune_empties] returns. *)
Definition generate_tiles (min_level max_level : Z) (checker : EmptyChecker)
  : option (list WebMercatorCell * list (WebMercatorCell * Z)) :=
  match generate_webmercator_grid max_level with
  | None => None
  | Some root =>
    let root := fst (_inner_prune_empties root checker) in
    let all_cells := filter (fun cell => level cell >=? min_level)
                            (flatten root) in
    let blocklevel := Z.max (Z.max min_level 7) (max_level - 5) in
    let blocklevel_cells :=
      filter (fun n => level n =? blocklevel) (flatten root) in
    Some (flat_map (fun node =>
                      generate_mercator_tile_grid node checker max_level)
                   blocklevel_cells,
          hierarchically_merge_lower_level_cells all_cells
            (max_level - 1) min_level)
  end.

(* ================================================================== *)
(** * webmercatorcell.py and generate.py: the SRTM tiles of a cell *)
(* ================================================================== *)

(** [get_srtm_tile_indices]: [math.floor] and [math.ceil] are [Zfloor]
    and [Zceil]. *)
Definition get_srtm_tile_indices (self : WebMercatorCell)
  (mercator_margin : R) : list (Z * Z) :=
  let dx := (x1 self - x0 self)%R in
  let margin := (mercator_margin * dx)%R in
  let '(maxlat, minlng) :=
    invert_mercator (x0 self - margin) (y0 self + margin) in
  let '(minlat, maxlng) :=
    invert_mercator (x1 self + margin) (y1 self - margin) in
  flat_map (fun x =>
              map (fun y => (x, y)) (range_up (Zfloor minlat) (Zceil maxlat)))
           (range_up (Zfloor minlng) (Zceil maxlng)).

(** [min] and [max] of a list; both raise [ValueError] on the empty
    list. *)
Definition py_min (l : list Z) : outcome Z :=
  match l with
  | [] => Raises ValueError
  | v :: rest => Returns (fold_left Z.min rest v)
  end.

Definition py_max (l : list Z) : outcome Z :=
  match l with
  | [] => Raises ValueError
  | v :: rest => Returns (fold_left Z.max rest v)
  end.

(** [_get_latlng_extent]. *)
Definition _get_latlng_extent (node : WebMercatorCell)
  : outcome (list (Z * Z) * Z * Z * Z * Z) :=
  let indices := get_srtm_tile_indices node (1.1 * 8 / 256) in
  lng_min <- py_min (map fst indices) ;;
  lng_max <- py_max (map fst indices) ;;
  lat_min <- py_min (map snd indices) ;;
  lat_max <- py_max (map snd indices) ;;
  Returns (indices, lng_min, lng_max, lat_min, lat_max).

(* ================================================================== *)
(** * generate.py: joining the SRTM tiles *)
(* ================================================================== *)

(** [DIM] of [constants.py]. *)
Definition DIM : Z := 3601.

Section LoadAndJoin.

(** [read_cell(lat, lng)]: the height data of the SRTM tile. *)
Variable read_cell : Z -> Z -> ndarray R.

(** The scaling of a tile by Pillow to [per_tile_size] pixels a side. *)
Variable resize : ndarray R -> Z -> ndarray R.

(** [np.ndarray((h, w), dtype)]: an array of the shape, with whatever
    the memory holds. *)
Variable np_ndarray : Z -> Z -> ndarray R.

(** [_load_and_join_tiles]. *)
Definition _load_and_join_tiles (indices : list (Z * Z))
  (delta_lng delta_lat lat_max lng_min per_tile_size : Z)
  : outcome (ndarray R) :=
  let overlap_size := if per_tile_size =? DIM then 1 else 0 in
  let px_width := (per_tile_size - overlap_size) * delta_lng + overlap_size in
  let px_height :=
    (per_tile_size - overlap_size) * delta_lat + overlap_size in
  let data := np_ndarray px_height px_width in
  fold_left
    (fun data index =>
       data <- data ;;
       let '(lng, lat) := index in
       let x0 := (per_tile_size - overlap_size) * (lat_max - lat) in
       let y0 := (per_tile_size - overlap_size) * (lng - lng_min) in
       let tiledata := read_cell lat lng in
       let tiledata :=
         if negb (per_tile_size =? DIM)
         then resize (getitem2 (upto (-1)) (upto (-1)) tiledata)
                     per_tile_size
         else tiledata in
       setitem2 (between x0 (x0 + per_tile_size))
                (between y0 (y0 + per_tile_size)) tiledata data)
    indices (Returns data).

End LoadAndJoin.

(* ================================================================== *)
(** * create_download_list.py: the tiles of a download *)
(* ================================================================== *)

Section DownloadList.

Variable intersect : Feature -> Feature -> option Feature.

(** [generate_within_polygon_checker(features)], applied to a cell. *)
Definition generate_within_polygon_checker (features : list Feature)
  (cell : WebMercatorCell) : bool :=
  let polygon := cell_polygon cell in
  fst (any_intersects intersect polygon features).

(** The [checker] of [create_download_list]; [features] is what
    [_get_features] returns for the polygon file, and [None] when no
    polygon file is passed. *)
Definition download_checker (features : option (list Feature))
  (outside_maxlevel : Z) (cell : WebMercatorCell) : bool :=
  match features with
  | Some features =>
    (level cell <=? outside_maxlevel)
    || generate_within_polygon_checker features cell
  | None => true
  end.

(** The tree [root] of [create_download_list] when [all_tiles] is read
    off it. *)
Definition download_tree (features : option (list Feature))
  (inside_maxlevel outside_maxlevel : Z) : option WebMercatorCell :=
  match generate_webmercator_grid outside_maxlevel with
  | None => None
  | Some root =>
    conditional_recursive_subdivide (recursion_depth inside_maxlevel root)
      (download_checker features outside_maxlevel) inside_maxlevel root
  end.

End DownloadList.

(* ================================================================== *)
(** * create_download_list.py: the archives to download *)
(* ================================================================== *)

(** [d[k] = v] on a [dict], as the list of its items in the order of
    insertion: the value of a key that is present is replaced in
    place. *)
Fixpoint dict_set {V : Type} (d : list (string * V)) (k : string) (v : V)
  : list (string * V) :=
  match d with
  | [] => [(k, v)]
  | (k', v') :: d' =>
    if String.eqb k' k then (k', v) :: d'
    else (k', v') :: dict_set d' k v
  end.

(** The loop over the packages: [package_tilelists],
    [required_empty_tiles] and [download_tile_count] when it ends. *)
Definition select_tiles (packages : list ZipPackage)
  (all_tiles : list WebMercatorCell) (empty_checker : EmptyChecker)
  : list (string * list WebMercatorCell) * list WebMercatorCell * Z :=
  let required_tile_set :=
    map (fun tile => (level tile, i tile, j tile)) all_tiles in
  fold_left
    (fun state package =>
       let '(package_tilelists, required_empty_tiles, download_tile_count) :=
         state in
       let '(tile_list, required_empty_tiles) :=
         fold_left
           (fun acc tile =>
              let '(tile_list, required_empty_tiles) := acc in
              if existsb (address_eqb (level tile, i tile, j tile))
                         required_tile_set
              then
                if checker_call empty_checker tile
                then (tile_list, required_empty_tiles ++ [tile])
                else (tile_list ++ [tile], required_empty_tiles)
              else (tile_list, required_empty_tiles))
           (tiles package) ([], required_empty_tiles) in
       if Nat.eqb (length tile_list) 0
       then (package_tilelists, required_empty_tiles, download_tile_count)
       else (dict_set package_tilelists (filename package) tile_list,
             required_empty_tiles,
             download_tile_count + Z.of_nat (length tile_list)))
    packages ([], [], 0).

Section DownloadSelection.

Variable intersect : Feature -> Feature -> option Feature.
Variable block_description : Z -> WebMercatorCell -> string.

(** [create_download_list] up to the selection: the tiles to download,
    per archive, the empty tiles to link, and the count that is
    logged.  [empty_checker] is what [load_empties] returns. *)
Definition download_selection (features : option (list Feature))
  (inside_maxlevel outside_maxlevel : Z) (empty_checker : EmptyChecker)
  : option (list (string * list WebMercatorCell)
            * list WebMercatorCell * Z) :=
  match download_tree intersect features inside_maxlevel outside_maxlevel,
        create_packages block_description inside_maxlevel None with
  | Some root, Some packages =>
    Some (select_tiles packages (flatten root) empty_checker)
  | _, _ => None
  end.

End DownloadSelection.

(* ================================================================== *)
(** * The file of empties: generate_list_of_empties.py, prune_empties.py *)
(* ================================================================== *)

(** Strings are sequences of bytes; the strings of the file are ASCII,
    for which [encode] and [decode] change nothing.  [gzip] gives back
    on reading what was written. *)

Definition newline : ascii := "010"%char.

(** [sorted(tiles, key=lambda tile: (tile.level, tile.i, tile.j))]. *)
Fixpoint insert_tile (t : WebMercatorCell) (l : list WebMercatorCell)
  : list WebMercatorCell :=
  match l with
  | [] => [t]
  | u :: l' =>
    if key_leb (level t, i t, j t) (level u, i u, j u) then t :: u :: l'
    else u :: insert_tile t l'
  end.

Definition sort_tiles (l : list WebMercatorCell) : list WebMercatorCell :=
  fold_right insert_tile [] l.

(** The line written for a tile: [F'{tile.level}/{tile.i}/{tile.j}.png\n']. *)
Definition tile_line (tile : WebMercatorCell) : string :=
  str_int (level tile) ++ "/" ++ str_int (i tile) ++ "/"
  ++ str_int (j tile) ++ ".png" ++ String newline "".

(** What [generate_empties_file] writes for the list [tiles]. *)
Definition empties_file_content (tiles : list WebMercatorCell) : string :=
  let tiles := sort_tiles tiles in
  fold_left (fun f tile => (f ++ tile_line tile)%string) tiles ""%string.

Section EmptiesFile.

Variable intersect : Feature -> Feature -> option Feature.

(** [generate_empties_file]: the content of the output file. *)
Definition generate_empties_file (doc : GeoJSON) (min_level max_level : Z)
  : outcome string :=
  tiles <- generate_list_of_empty_tiles intersect doc min_level max_level ;;
  Returns (empties_file_content tiles).

End EmptiesFile.

(** The lines a binary file yields: each line ends after its newline. *)
Fixpoint file_lines (s : string) : list string :=
  match s with
  | EmptyString => []
  | String c s' =>
    if Ascii.eqb c newline then String c "" :: file_lines s'
    else
      match file_lines s' with
      | [] => [String c ""]
      | line :: rest => String c line :: rest
      end
  end.

(** The ASCII characters [str.strip] and [int] take for whitespace. *)
Definition is_space (c : ascii) : bool :=
  let n := nat_of_ascii c in
  ((9 <=? n) && (n <=? 13) || (28 <=? n) && (n <=? 32))%nat.

Fixpoint lstrip (s : string) : string :=
  match s with
  | EmptyString => EmptyString
  | String c s' => if is_space c then lstrip s' else s
  end.

Fixpoint rstrip (s : string) : string :=
  match s with
  | EmptyString => EmptyString
  | String c s' =>
    match rstrip s' with
    | EmptyString => if is_space c then EmptyString else String c ""
    | r => String c r
    end
  end.

(** [s.strip()]. *)
Definition strip (s : string) : string := rstrip (lstrip s).

(** [s.removesuffix(suffix)]. *)
Fixpoint removesuffix (s suffix : string) : string :=
  match s with
  | EmptyString => EmptyString
  | String c s' =>
    if String.eqb s suffix then EmptyString
    else String c (removesuffix s' suffix)
  end.

(** [s.split(sep)] for a separator of one character. *)
Fixpoint split (sep : ascii) (s : string) : list string :=
  match s with
  | EmptyString => [EmptyString]
  | String c s' =>
    if Ascii.eqb c sep then EmptyString :: split sep s'
    else
      match split sep s' with
      | [] => [String c ""]
      | part :: rest => String c part :: rest
      end
  end.

Definition is_digit (c : ascii) : bool :=
  let n := nat_of_ascii c in ((48 <=? n) && (n <=? 57))%nat.

(** The digits of a decimal literal of [int]: at least one, with single
    underscores between digits allowed. *)
Fixpoint digits_ok (s : string) : bool :=
  match s with
  | EmptyString => false
  | String c s' =>
    is_digit c
    && match s' with
       | EmptyString => true
       | String c' s'' =>
         if Ascii.eqb c' "_" then digits_ok s'' else digits_ok s'
       end
  end.

Fixpoint remove_underscores (s : string) : string :=
  match s with
  | EmptyString => EmptyString
  | String c s' =>
    if Ascii.eqb c "_" then remove_underscores s'
    else String c (remove_underscores s')
  end.

(** [int(s)] for an ASCII string: whitespace around the number is
    dropped, a sign may come first, and anything but a decimal literal
    raises [ValueError] (the bound of CPython on the number of digits is
    not modelled). *)
Definition py_int (s : string) : outcome Z :=
  let s := strip s in
  let '(negative, body) :=
    match s with
    | String c r =>
      if Ascii.eqb c "-" then (true, r)
      else if Ascii.eqb c "+" then (false, r)
      else (false, s)
    | EmptyString => (false, s)
    end in
  if digits_ok body then
    match NilEmpty.uint_of_string (remove_underscores body) with
    | Some d => Returns (if negative then - Z.of_uint d else Z.of_uint d)
    | None => Raises ValueError
    end
  else Raises ValueError.

(** [empties.add((level, i, j))]. *)
Definition set_add_address (a : Z * Z * Z) (empties : list (Z * Z * Z))
  : list (Z * Z * Z) :=
  if existsb (address_eqb a) empties then empties else empties ++ [a].

(** The body of the loop of [load_empties] up to the tuple: a line that
    does not give three numbers raises [ValueError], from [int] or from
    the unpacking. *)
Definition parse_line (line : string) : outcome (Z * Z * Z) :=
  let w := removesuffix (strip line) ".png" in
  match split "/" w with
  | [a; b; c] =>
    level <- py_int a ;;
    i <- py_int b ;;
    j <- py_int c ;;
    Returns (level, i, j)
  | _ => Raises ValueError
  end.

Fixpoint load_lines (lines : list string) (empties : list (Z * Z * Z))
  : outcome EmptyChecker :=
  match lines with
  | [] => Returns empties
  | line :: rest =>
    a <- parse_line line ;;
    load_lines rest (set_add_address a empties)
  end.

(** [load_empties], from the content of [empties.txt.gz]. *)
Definition load_empties (content : string) : outcome EmptyChecker :=
  load_lines (file_lines content) [].

(* ================================================================== *)
(** * Properties of the Mercator projection *)
(* ================================================================== *)

Section MercatorFacts.

Local Open Scope R_scope.

Lemma R_sphere_neq_0 : R_sphere <> 0.
Proof. unfold R_sphere; lra. Qed.

Lemma PI_neq_0 : PI <> 0.
Proof. pose proof PI_RGT_0; lra. Qed.

(** The angle handed to [tan] lies strictly inside the first quadrant as
    soon as the latitude is strictly between the poles. *)
Lemma half_angle_range (lat : R) :
  -90 < lat < 90 ->
  0 < PI / 4 + lat / 2 * PI / 180 < PI / 2.
Proof.
  intros [Hlo Hhi]. pose proof PI_RGT_0 as HPI.
  split; nra.
Qed.

Lemma invert_proj_lng (lat lng : R) :
  snd (invert_mercator (fst (proj_mercator lat lng))
                       (snd (proj_mercator lat lng))) = lng.
Proof.
  unfold invert_mercator, proj_mercator; simpl.
  field. split; [apply PI_neq_0 | apply R_sphere_neq_0].
Qed.

Lemma invert_proj_lat (lat lng : R) :
  -90 < lat < 90 ->
  fst (invert_mercator (fst (proj_mercator lat lng))
                       (snd (proj_mercator lat lng))) = lat.
Proof.
  intros Hlat. pose proof (half_angle_range lat Hlat) as [Hlo Hhi].
  unfold invert_mercator, proj_mercator; simpl.
  replace (R_sphere * ln (tan (PI / 4 + lat / 2 * PI / 180)) / R_sphere)
    with (ln (tan (PI / 4 + lat / 2 * PI / 180)))
    by (field; apply R_sphere_neq_0).
  rewrite exp_ln by (apply tan_gt_0; assumption).
  rewrite atan_tan by (pose proof PI_RGT_0; split; lra).
  field. apply PI_neq_0.
Qed.

(** C4. Round trip of the projection: for every latitude strictly between
    the poles, [invert_mercator] applied to the result of [proj_mercator]
    gives back the latitude and the longitude, exactly, over the real
    numbers.  Both functions are functions of their arguments alone. *)
Theorem mercator_round_trip (lat lng : R) :
  Rabs lat < 90 ->
  invert_mercator (fst (proj_mercator lat lng))
                  (snd (proj_mercator lat lng)) = (lat, lng).
Proof.
  intros Habs.
  assert (Hlat : -90 < lat < 90).
  { apply Rabs_def2 in Habs. lra. }
  rewrite (surjective_pairing (invert_mercator _ _)).
  rewrite invert_proj_lat by assumption.
  rewrite invert_proj_lng. reflexivity.
Qed.

Lemma mercator_round_trip_witness :
  Rabs 45 < 90 /\
  invert_mercator (fst (proj_mercator 45 10))
                  (snd (proj_mercator 45 10)) = (45, 10).
Proof.
  assert (H : Rabs 45 < 90).
  { rewrite Rabs_pos_eq; lra. }
  split; [exact H | exact (mercator_round_trip 45 10 H)].
Defined.

(** The projection inverts [invert_mercator] on the ordinate as well; the
    root cell is computed this way. *)
Lemma proj_invert_y (x y lng : R) :
  snd (proj_mercator (fst (invert_mercator x y)) lng) = y.
Proof.
  unfold invert_mercator, proj_mercator; simpl.
  replace (PI / 4 + 360 * (atan (exp (y / R_sphere)) - PI / 4) / PI / 2
                    * PI / 180)
    with (atan (exp (y / R_sphere)))
    by (field; apply PI_neq_0).
  rewrite tan_atan, ln_exp. field. apply R_sphere_neq_0.
Qed.

End MercatorFacts.

(* ================================================================== *)
(** * Properties of the quadtree *)
(* ================================================================== *)

Section SubdivisionFacts.

Variable condition : WebMercatorCell -> bool.
Variable max_depth : Z.

(** What one round of the loop leaves in the attribute of [row]: the
    subdivided candidate when the condition holds for it, the attribute
    as it was otherwise. *)
Definition visit (fuel : nat) (self : WebMercatorCell) (row : SubdivisionRow)
  : option (option WebMercatorCell) :=
  let cell := candidate self row in
  if condition cell then
    match conditional_recursive_subdivide fuel condition max_depth cell with
    | Some cell' => Some (Some cell')
    | None => None
    end
  else Some (getattr self (row_key row)).

Definition row_0 (self : WebMercatorCell) : SubdivisionRow :=
  (Cell_0, 2 * i self, 2 * j self, x0 self,
   ((x0 self + x1 self) / 2)%R, y0 self, ((y0 self + y1 self) / 2)%R).
Definition row_1 (self : WebMercatorCell) : SubdivisionRow :=
  (Cell_1, 2 * i self + 1, 2 * j self, ((x0 self + x1 self) / 2)%R,
   x1 self, y0 self, ((y0 self + y1 self) / 2)%R).
Definition row_2 (self : WebMercatorCell) : SubdivisionRow :=
  (Cell_2, 2 * i self, 2 * j self + 1, x0 self,
   ((x0 self + x1 self) / 2)%R, ((y0 self + y1 self) / 2)%R, y1 self).
Definition row_3 (self : WebMercatorCell) : SubdivisionRow :=
  (Cell_3, 2 * i self + 1, 2 * j self + 1, ((x0 self + x1 self) / 2)%R,
   x1 self, ((y0 self + y1 self) / 2)%R, y1 self).

Lemma subdivision_table_rows (self : WebMercatorCell) :
  subdivision_table self = [row_0 self; row_1 self; row_2 self; row_3 self].
Proof. reflexivity. Qed.

(** The body of the loop. *)
Definition loop_body (fuel : nat) (acc : option WebMercatorCell)
  (row : SubdivisionRow) : option WebMercatorCell :=
  match acc with
  | None => None
  | Some cur =>
    let cell := candidate cur row in
    if condition cell then
      match conditional_recursive_subdivide fuel condition max_depth cell with
      | Some cell' => Some (setattr cur (row_key row) (Some cell'))
      | None => None
      end
    else Some cur
  end.

Lemma subdivide_unfold (fuel : nat) (self : WebMercatorCell) :
  conditional_recursive_subdivide (S fuel) condition max_depth self =
  if level self >=? max_depth then Some self
  else fold_left (loop_body fuel) (subdivision_table self) (Some self).
Proof. reflexivity. Qed.

Lemma setattr_getattr (self : WebMercatorCell) (key : CellKey) :
  setattr self key (getattr self key) = self.
Proof. destruct self, key; reflexivity. Qed.

Lemma loop_body_visit (fuel : nat) (cur : WebMercatorCell)
  (row : SubdivisionRow) :
  loop_body fuel (Some cur) row =
  match visit fuel cur row with
  | Some v => Some (setattr cur (row_key row) v)
  | None => None
  end.
Proof.
  unfold loop_body, visit.
  destruct (condition (candidate cur row)).
  - destruct (conditional_recursive_subdivide _ _ _ _); reflexivity.
  - rewrite setattr_getattr. reflexivity.
Qed.

Lemma visit_setattr_other (fuel : nat) (cur : WebMercatorCell)
  (key : CellKey) (v : option WebMercatorCell) (row : SubdivisionRow) :
  row_key row <> key ->
  visit fuel (setattr cur key v) row = visit fuel cur row.
Proof.
  intros Hne. destruct row as [[[[[[k a] b] xa] xb] ya] yb].
  cbn [row_key] in Hne.
  assert (Hget : getattr (setattr cur key v) k = getattr cur k).
  { destruct cur, key, k; try reflexivity; congruence. }
  assert (Hlev : level (setattr cur key v) = level cur).
  { destruct cur, key; reflexivity. }
  unfold visit, candidate. cbn [row_key]. rewrite Hget, Hlev. reflexivity.
Qed.

(** The loop, one attribute at a time. *)
Lemma subdivide_step (fuel : nat) (self : WebMercatorCell) :
  conditional_recursive_subdivide (S fuel) condition max_depth self =
  if level self >=? max_depth then Some self
  else
    match visit fuel self (row_0 self), visit fuel self (row_1 self),
          visit fuel self (row_2 self), visit fuel self (row_3 self) with
    | Some c0, Some c1, Some c2, Some c3 =>
      Some (mkCell (level self) (i self) (j self)
                   (x0 self) (x1 self) (y0 self) (y1 self) c0 c1 c2 c3)
    | _, _, _, _ => None
    end.
Proof.
  rewrite subdivide_unfold.
  destruct (level self >=? max_depth); [reflexivity|].
  rewrite subdivision_table_rows. cbn [fold_left].
  rewrite loop_body_visit.
  destruct (visit fuel self (row_0 self)) as [v0|]; [|reflexivity].
  rewrite loop_body_visit, visit_setattr_other by (cbn; congruence).
  destruct (visit fuel self (row_1 self)) as [v1|]; [|reflexivity].
  rewrite loop_body_visit, !visit_setattr_other by (cbn; congruence).
  destruct (visit fuel self (row_2 self)) as [v2|]; [|reflexivity].
  rewrite loop_body_visit, !visit_setattr_other by (cbn; congruence).
  destruct (visit fuel self (row_3 self)) as [v3|]; [|reflexivity].
  destruct self; reflexivity.
Qed.

Lemma visit_mono (fuel : nat) :
  (forall self r,
      conditional_recursive_subdivide fuel condition max_depth self = Some r ->
      conditional_recursive_subdivide (S fuel) condition max_depth self
      = Some r) ->
  forall self row v,
    visit fuel self row = Some v -> visit (S fuel) self row = Some v.
Proof.
  intros IH self row v. unfold visit.
  destruct (condition (candidate self row)); [|trivial].
  destruct (conditional_recursive_subdivide fuel condition max_depth
              (candidate self row)) as [r|] eqn:E; [|discriminate].
  rewrite (IH _ _ E). trivial.
Qed.

(** More fuel does not change a result. *)
Lemma subdivide_fuel_S (fuel : nat) :
  forall self r,
    conditional_recursive_subdivide fuel condition max_depth self = Some r ->
    conditional_recursive_subdivide (S fuel) condition max_depth self = Some r.
Proof.
  induction fuel as [|fuel IH]; intros self r H; [discriminate|].
  rewrite subdivide_step in H. rewrite subdivide_step.
  destruct (level self >=? max_depth); [assumption|].
  destruct (visit fuel self (row_0 self)) as [v0|] eqn:E0; [|discriminate].
  destruct (visit fuel self (row_1 self)) as [v1|] eqn:E1; [|discriminate].
  destruct (visit fuel self (row_2 self)) as [v2|] eqn:E2; [|discriminate].
  destruct (visit fuel self (row_3 self)) as [v3|] eqn:E3; [|discriminate].
  rewrite (visit_mono fuel IH _ _ _ E0), (visit_mono fuel IH _ _ _ E1),
          (visit_mono fuel IH _ _ _ E2), (visit_mono fuel IH _ _ _ E3).
  assumption.
Qed.

Lemma subdivide_fuel_le (fuel fuel' : nat) (self r : WebMercatorCell) :
  (fuel <= fuel')%nat ->
  conditional_recursive_subdivide fuel condition max_depth self = Some r ->
  conditional_recursive_subdivide fuel' condition max_depth self = Some r.
Proof.
  induction 1 as [|m _ IH]; intros H; [assumption|].
  apply subdivide_fuel_S, IH, H.
Qed.

(** A candidate needs less fuel than the cell it is a candidate of. *)
Lemma recursion_depth_candidate (self : WebMercatorCell)
  (row : SubdivisionRow) :
  level self < max_depth ->
  In row (subdivision_table self) ->
  (recursion_depth max_depth (candidate self row)
   < recursion_depth max_depth self)%nat.
Proof.
  intros Hlev Hin. destruct self as [l a b xa xb ya yb c0 c1 c2 c3].
  cbn [level] in Hlev.
  assert (Hfresh : forall a' b' xa' xb' ya' yb',
    recursion_depth max_depth
      (mkCell (l + 1) a' b' xa' xb' ya' yb' None None None None)
    = Z.to_nat (max_depth - l)).
  { intros. cbn [recursion_depth]. rewrite !Nat.max_id. lia. }
  cbn in Hin.
  destruct Hin as [<-|[<-|[<-|[<-|[]]]]];
    cbn [candidate getattr cell_0 cell_1 cell_2 cell_3 level];
    match goal with
    | |- context [match ?c with Some _ => _ | None => _ end] =>
      destruct c
    end;
    rewrite ?Hfresh; cbn [recursion_depth]; lia.
Qed.

Lemma visit_total (fuel : nat) (self : WebMercatorCell)
  (row : SubdivisionRow) :
  (forall cell,
      (recursion_depth max_depth cell <= fuel)%nat ->
      exists r,
        conditional_recursive_subdivide fuel condition max_depth cell
        = Some r) ->
  level self < max_depth ->
  In row (subdivision_table self) ->
  (recursion_depth max_depth self <= S fuel)%nat ->
  exists v, visit fuel self row = Some v.
Proof.
  intros IH Hlev Hin Hfuel. unfold visit.
  destruct (condition (candidate self row)); [|eauto].
  pose proof (recursion_depth_candidate self row Hlev Hin) as Hlt.
  destruct (IH (candidate self row)) as [r Hr]; [lia|].
  rewrite Hr. eauto.
Qed.

(** With [recursion_depth] or more fuel the subdivision returns. *)
Lemma subdivide_total (fuel : nat) :
  forall self,
    (recursion_depth max_depth self <= fuel)%nat ->
    exists r,
      conditional_recursive_subdivide fuel condition max_depth self = Some r.
Proof.
  induction fuel as [|fuel IH]; intros self Hfuel.
  - destruct self; cbn [recursion_depth] in Hfuel; lia.
  - rewrite subdivide_step.
    destruct (level self >=? max_depth) eqn:Hlev; [eauto|].
    rewrite Z.geb_leb in Hlev. apply Z.leb_gt in Hlev.
    destruct (visit_total fuel self (row_0 self) IH Hlev) as [v0 ->];
      [rewrite subdivision_table_rows; cbn; tauto | assumption |].
    destruct (visit_total fuel self (row_1 self) IH Hlev) as [v1 ->];
      [rewrite subdivision_table_rows; cbn; tauto | assumption |].
    destruct (visit_total fuel self (row_2 self) IH Hlev) as [v2 ->];
      [rewrite subdivision_table_rows; cbn; tauto | assumption |].
    destruct (visit_total fuel self (row_3 self) IH Hlev) as [v3 ->];
      [rewrite subdivision_table_rows; cbn; tauto | assumption |].
    eauto.
Qed.

(** The subdivision leaves the fields of the cell itself as they are. *)
Lemma subdivide_fields (fuel : nat) (self r : WebMercatorCell) :
  conditional_recursive_subdivide fuel condition max_depth self = Some r ->
  level r = level self /\ i r = i self /\ j r = j self /\
  x0 r = x0 self /\ x1 r = x1 self /\ y0 r = y0 self /\ y1 r = y1 self.
Proof.
  destruct fuel as [|fuel]; [discriminate|].
  rewrite subdivide_step.
  destruct (level self >=? max_depth).
  - intros [= <-]. tauto.
  - destruct (visit fuel self (row_0 self)); [|discriminate].
    destruct (visit fuel self (row_1 self)); [|discriminate].
    destruct (visit fuel self (row_2 self)); [|discriminate].
    destruct (visit fuel self (row_3 self)); [|discriminate].
    intros [= <-]. cbn. tauto.
Qed.

(** The attribute a round of the loop leaves behind, in terms of the
    subdivision run with the fuel of the candidate. *)
Lemma visit_spec (fuel : nat) (self : WebMercatorCell) (row : SubdivisionRow)
  (v : option WebMercatorCell) :
  visit fuel self row = Some v ->
  if condition (candidate self row)
  then exists r',
      conditional_recursive_subdivide
        (recursion_depth max_depth (candidate self row))
        condition max_depth (candidate self row) = Some r'
      /\ v = Some r'
  else v = getattr self (row_key row).
Proof.
  unfold visit. destruct (condition (candidate self row)).
  - destruct (conditional_recursive_subdivide fuel condition max_depth
                (candidate self row)) as [r1|] eqn:E; [|discriminate].
    intros [= <-].
    destruct (subdivide_total _ (candidate self row) (le_n _)) as [r' Hr'].
    exists r'. split; [assumption|].
    destruct (Nat.le_ge_cases
                (recursion_depth max_depth (candidate self row)) fuel)
      as [Hle|Hle].
    + rewrite (subdivide_fuel_le _ _ _ _ Hle Hr') in E. congruence.
    + rewrite (subdivide_fuel_le _ _ _ _ Hle E) in Hr'. congruence.
  - intros [= <-]. reflexivity.
Qed.

End SubdivisionFacts.

(** ** The subdivision attaches a quadrant only under the condition *)

(** C3, as amended.  The subdivision returns.  A cell at or beyond
    [max_depth] is returned as it is, whatever the condition says.  Below
    [max_depth] the fields of the cell stay, and for every row of the
    table the candidate (the attached child, or else a fresh cell for the
    quadrant) is attached and subdivided in turn exactly when the
    condition holds for it; otherwise the attribute is left as it was, so
    a fresh candidate that fails the condition is not attached. *)
Theorem subdivide_attaches_under_condition
  (condition : WebMercatorCell -> bool) (max_depth : Z)
  (self : WebMercatorCell) :
  exists r,
    conditional_recursive_subdivide (recursion_depth max_depth self)
      condition max_depth self = Some r
    /\ (max_depth <= level self -> r = self)
    /\ (level self < max_depth ->
        forall row, In row (subdivision_table self) ->
          if condition (candidate self row)
          then exists r',
              conditional_recursive_subdivide
                (recursion_depth max_depth (candidate self row))
                condition max_depth (candidate self row) = Some r'
              /\ getattr r (row_key row) = Some r'
          else getattr r (row_key row) = getattr self (row_key row)).
Proof.
  destruct (subdivide_total condition max_depth _ self (le_n _)) as [r Hr].
  exists r. split; [assumption|].
  destruct (recursion_depth max_depth self) as [|fuel]; [discriminate|].
  rewrite subdivide_step in Hr.
  split.
  - intros Hlev. apply Z.geb_le in Hlev.
    rewrite Hlev in Hr. congruence.
  - intros Hlev row Hin.
    assert (Hgeb : (level self >=? max_depth) = false).
    { rewrite Z.geb_leb. apply Z.leb_gt. assumption. }
    rewrite Hgeb in Hr.
    destruct (visit condition max_depth fuel self (row_0 self))
      as [v0|] eqn:E0; [|discriminate].
    destruct (visit condition max_depth fuel self (row_1 self))
      as [v1|] eqn:E1; [|discriminate].
    destruct (visit condition max_depth fuel self (row_2 self))
      as [v2|] eqn:E2; [|discriminate].
    destruct (visit condition max_depth fuel self (row_3 self))
      as [v3|] eqn:E3; [|discriminate].
    injection Hr as <-.
    rewrite subdivision_table_rows in Hin.
    destruct Hin as [<-|[<-|[<-|[<-|[]]]]];
      [ pose proof (visit_spec _ _ _ _ _ _ E0) as Hs
      | pose proof (visit_spec _ _ _ _ _ _ E1) as Hs
      | pose proof (visit_spec _ _ _ _ _ _ E2) as Hs
      | pose proof (visit_spec _ _ _ _ _ _ E3) as Hs ];
      cbn [row_key row_0 row_1 row_2 row_3 getattr
           cell_0 cell_1 cell_2 cell_3] in *;
      match type of Hs with
      | if ?b then _ else _ => destruct b
      end;
      [ destruct Hs as (r' & Hr' & ->); eauto | assumption
      | destruct Hs as (r' & Hr' & ->); eauto | assumption
      | destruct Hs as (r' & Hr' & ->); eauto | assumption
      | destruct Hs as (r' & Hr' & ->); eauto | assumption ].
Qed.

(** A childless cell over the unit square, at the address [(0, 0, 0)]. *)
Definition unit_cell : WebMercatorCell :=
  mkCell 0 0 0 0 1 1 0 None None None None.

Lemma subdivide_attaches_under_condition_witness :
  exists r,
    conditional_recursive_subdivide (recursion_depth 1 unit_cell)
      (fun c => level c <? 1) 1 unit_cell = Some r
    /\ (1 <= level unit_cell -> r = unit_cell)
    /\ (level unit_cell < 1 ->
        forall row, In row (subdivision_table unit_cell) ->
          if (fun c => level c <? 1) (candidate unit_cell row)
          then exists r',
              conditional_recursive_subdivide
                (recursion_depth 1 (candidate unit_cell row))
                (fun c => level c <? 1) 1 (candidate unit_cell row) = Some r'
              /\ getattr r (row_key row) = Some r'
          else getattr r (row_key row)
               = getattr unit_cell (row_key row)).
Proof.
  exact (subdivide_attaches_under_condition (fun c => level c <? 1) 1
           unit_cell).
Defined.

(** C3, as stated, fails: with a condition that rejects every cell, the
    subdivision of a childless cell below [max_depth] returns the cell
    with none of the four children attached. *)
Lemma subdivide_creates_children_counterexample :
  level unit_cell < 1
  /\ conditional_recursive_subdivide (recursion_depth 1 unit_cell)
       (fun _ => false) 1 unit_cell = Some unit_cell
  /\ getattr unit_cell Cell_0 = None /\ getattr unit_cell Cell_1 = None
  /\ getattr unit_cell Cell_2 = None /\ getattr unit_cell Cell_3 = None.
Proof.
  repeat split.
Qed.

(** ** The quadrant invariant *)

(** [child] has the level [lvl] and the address and the box that [row]
    describes. *)
Definition is_quadrant (row : SubdivisionRow) (lvl : Z)
  (child : WebMercatorCell) : Prop :=
  let '(_, a, b, xa, xb, ya, yb) := row in
  level child = lvl /\ i child = a /\ j child = b /\
  x0 child = xa /\ x1 child = xb /\ y0 child = ya /\ y1 child = yb.

(** Every cell of the tree has [y1 < y0], and every attached child is the
    quadrant of its parent that the table of the subdivision assigns to
    its attribute: the box split at the midpoints, [i' = 2i + {0,1}],
    [j' = 2j + {0,1}], [level' = level + 1]. *)
Fixpoint quadtree_inv (self : WebMercatorCell) : Prop :=
  match self with
  | mkCell l _ _ _ _ ya yb c0 c1 c2 c3 =>
    let ok (row : SubdivisionRow) (o : option WebMercatorCell) :=
      match o with
      | Some child => is_quadrant row (l + 1) child /\ quadtree_inv child
      | None => True
      end in
    (yb < ya)%R
    /\ ok (row_0 self) c0 /\ ok (row_1 self) c1
    /\ ok (row_2 self) c2 /\ ok (row_3 self) c3
  end.

Definition child_inv (self : WebMercatorCell) (row : SubdivisionRow) : Prop :=
  match getattr self (row_key row) with
  | Some child =>
    is_quadrant row (level self + 1) child /\ quadtree_inv child
  | None => True
  end.

Lemma quadtree_inv_unfold (self : WebMercatorCell) :
  quadtree_inv self <->
  (y1 self < y0 self)%R
  /\ child_inv self (row_0 self) /\ child_inv self (row_1 self)
  /\ child_inv self (row_2 self) /\ child_inv self (row_3 self).
Proof. destruct self; reflexivity. Qed.

Lemma candidate_inv (self : WebMercatorCell) (row : SubdivisionRow) :
  (y1 self < y0 self)%R ->
  In row (subdivision_table self) ->
  child_inv self row ->
  is_quadrant row (level self + 1) (candidate self row)
  /\ quadtree_inv (candidate self row).
Proof.
  intros Hy Hin Hc. unfold child_inv in Hc.
  rewrite subdivision_table_rows in Hin.
  destruct Hin as [<-|[<-|[<-|[<-|[]]]]];
    cbn [row_0 row_1 row_2 row_3 row_key candidate] in *;
    match goal with
    | |- context [match getattr ?s ?k with Some _ => _ | None => _ end] =>
      destruct (getattr s k)
    end;
    try assumption;
    cbn; repeat split; lra.
Qed.

Section QuadrantInvariant.

Variable condition : WebMercatorCell -> bool.
Variable max_depth : Z.

Lemma visit_inv (fuel : nat) (self : WebMercatorCell) (row : SubdivisionRow)
  (v : option WebMercatorCell) :
  (forall cell r,
      quadtree_inv cell ->
      conditional_recursive_subdivide fuel condition max_depth cell = Some r ->
      quadtree_inv r) ->
  (y1 self < y0 self)%R ->
  In row (subdivision_table self) ->
  child_inv self row ->
  visit condition max_depth fuel self row = Some v ->
  match v with
  | Some child =>
    is_quadrant row (level self + 1) child /\ quadtree_inv child
  | None => True
  end.
Proof.
  intros IH Hy Hin Hc. unfold visit.
  destruct (candidate_inv self row Hy Hin Hc) as [Hq Hi].
  destruct (condition (candidate self row)).
  - destruct (conditional_recursive_subdivide fuel condition max_depth
                (candidate self row)) as [r|] eqn:E; [|discriminate].
    intros [= <-]. split; [|exact (IH _ _ Hi E)].
    destruct (subdivide_fields _ _ _ _ _ E) as (F1 & F2 & F3 & F4 & F5 & F6 & F7).
    destruct row as [[[[[[k a] b] xa] xb] ya] yb]. unfold is_quadrant in *.
    rewrite F1, F2, F3, F4, F5, F6, F7. exact Hq.
  - intros [= <-]. exact Hc.
Qed.

(** The subdivision preserves the invariant. *)
Lemma subdivide_inv (fuel : nat) :
  forall self r,
    quadtree_inv self ->
    conditional_recursive_subdivide fuel condition max_depth self = Some r ->
    quadtree_inv r.
Proof.
  induction fuel as [|fuel IH]; intros self r Hinv H; [discriminate|].
  rewrite subdivide_step in H.
  destruct (level self >=? max_depth); [congruence|].
  apply quadtree_inv_unfold in Hinv.
  destruct Hinv as (Hy & H0 & H1 & H2 & H3).
  destruct (visit condition max_depth fuel self (row_0 self))
    as [v0|] eqn:E0; [|discriminate].
  destruct (visit condition max_depth fuel self (row_1 self))
    as [v1|] eqn:E1; [|discriminate].
  destruct (visit condition max_depth fuel self (row_2 self))
    as [v2|] eqn:E2; [|discriminate].
  destruct (visit condition max_depth fuel self (row_3 self))
    as [v3|] eqn:E3; [|discriminate].
  injection H as <-.
  assert (Hrows : forall k, k = 0%nat \/ k = 1%nat \/ k = 2%nat \/ k = 3%nat ->
            In (nth k (subdivision_table self) (row_0 self))
               (subdivision_table self)).
  { intros k [->|[->|[->| ->]]]; cbn; tauto. }
  pose proof (visit_inv fuel self _ _ IH Hy (Hrows 0%nat (or_introl eq_refl))
                H0 E0) as G0.
  pose proof (visit_inv fuel self _ _ IH Hy
                (Hrows 1%nat (or_intror (or_introl eq_refl))) H1 E1) as G1.
  pose proof (visit_inv fuel self _ _ IH Hy
                (Hrows 2%nat (or_intror (or_intror (or_introl eq_refl))))
                H2 E2) as G2.
  pose proof (visit_inv fuel self _ _ IH Hy
                (Hrows 3%nat (or_intror (or_intror (or_intror eq_refl))))
                H3 E3) as G3.
  destruct self; cbn in *. tauto.
Qed.

End QuadrantInvariant.

(** ** The fully subdivided tree *)

(** The fresh cell the loop constructs for [row] when no child is
    attached. *)
Definition fresh_child (self : WebMercatorCell) (row : SubdivisionRow)
  : WebMercatorCell :=
  let '(_, a, b, xa, xb, ya, yb) := row in
  mkCell (level self + 1) a b xa xb ya yb None None None None.

(** The tree with all cells down to [n] levels below [self]. *)
Fixpoint full_tree (n : nat) (self : WebMercatorCell) : WebMercatorCell :=
  match n with
  | O => self
  | S n' =>
    mkCell (level self) (i self) (j self)
           (x0 self) (x1 self) (y0 self) (y1 self)
           (Some (full_tree n' (fresh_child self (row_0 self))))
           (Some (full_tree n' (fresh_child self (row_1 self))))
           (Some (full_tree n' (fresh_child self (row_2 self))))
           (Some (full_tree n' (fresh_child self (row_3 self))))
  end.

Definition childless (self : WebMercatorCell) : Prop :=
  cell_0 self = None /\ cell_1 self = None /\
  cell_2 self = None /\ cell_3 self = None.

Lemma fresh_child_childless (self : WebMercatorCell) (row : SubdivisionRow) :
  childless (fresh_child self row).
Proof.
  destruct row as [[[[[[k a] b] xa] xb] ya] yb]. repeat split.
Qed.

Lemma fresh_child_level (self : WebMercatorCell) (row : SubdivisionRow) :
  level (fresh_child self row) = level self + 1.
Proof.
  destruct row as [[[[[[k a] b] xa] xb] ya] yb]. reflexivity.
Qed.

Lemma candidate_childless (self : WebMercatorCell) (row : SubdivisionRow) :
  childless self -> candidate self row = fresh_child self row.
Proof.
  intros (H0 & H1 & H2 & H3).
  destruct row as [[[[[[k a] b] xa] xb] ya] yb].
  unfold candidate, fresh_child. destruct k; cbn [getattr];
    rewrite ?H0, ?H1, ?H2, ?H3; reflexivity.
Qed.

Lemma full_tree_level (n : nat) (self : WebMercatorCell) :
  level (full_tree n self) = level self.
Proof. destruct n; reflexivity. Qed.

(** The unconditional subdivision of a childless cell builds the full
    tree down to [max_depth]. *)
Lemma full_subdivide_childless (n : nat) :
  forall (fuel : nat) (max_depth : Z) (self : WebMercatorCell),
    childless self ->
    (n < fuel)%nat ->
    max_depth <= level self + Z.of_nat n ->
    (n = O \/ max_depth = level self + Z.of_nat n) ->
    conditional_recursive_subdivide fuel (fun _ => true) max_depth self
    = Some (full_tree n self).
Proof.
  induction n as [|n IH]; intros fuel max_depth self Hc Hfuel Hle Hn.
  - destruct fuel as [|fuel]; [lia|].
    rewrite subdivide_step.
    assert (Hgeb : (level self >=? max_depth) = true)
      by (apply Z.geb_le; lia).
    rewrite Hgeb. reflexivity.
  - destruct Hn as [Hn|Hn]; [discriminate|].
    destruct fuel as [|fuel]; [lia|].
    rewrite subdivide_step.
    assert (Hgeb : (level self >=? max_depth) = false)
      by (rewrite Z.geb_leb; apply Z.leb_gt; lia).
    rewrite Hgeb. unfold visit.
    rewrite !(candidate_childless self) by assumption.
    rewrite !IH;
      try apply fresh_child_childless;
      try rewrite fresh_child_level; try lia.
    reflexivity.
Qed.

Lemma webmercator_root_eq :
  webmercator_root =
  mkCell 0 0 0 (- (R_sphere * PI)) (R_sphere * PI)
         (R_sphere * PI) (- (R_sphere * PI)) None None None None.
Proof.
  unfold webmercator_root.
  rewrite (surjective_pairing (proj_mercator _ (-180))).
  rewrite (surjective_pairing (proj_mercator _ 180)).
  rewrite !proj_invert_y.
  unfold proj_mercator; cbn [fst snd].
  f_equal; field.
Qed.

Lemma webmercator_root_childless : childless webmercator_root.
Proof. rewrite webmercator_root_eq. repeat split. Qed.

Lemma webmercator_root_level : level webmercator_root = 0.
Proof. rewrite webmercator_root_eq. reflexivity. Qed.

(** The grid is the full tree below the root cell. *)
Lemma generate_webmercator_grid_full (refine_to_level : Z) :
  generate_webmercator_grid refine_to_level
  = Some (full_tree (Z.to_nat refine_to_level) webmercator_root).
Proof.
  unfold generate_webmercator_grid, full_recursive_subdivide.
  apply full_subdivide_childless.
  - apply webmercator_root_childless.
  - rewrite webmercator_root_eq. cbn [recursion_depth].
    rewrite !Nat.max_id. lia.
  - rewrite webmercator_root_level. lia.
  - rewrite webmercator_root_level. lia.
Qed.

Lemma webmercator_root_inv : quadtree_inv webmercator_root.
Proof.
  rewrite webmercator_root_eq. cbn. repeat split.
  pose proof PI_RGT_0. unfold R_sphere. nra.
Qed.

(** ** Counting the cells of the grid *)

Lemma flatten_childless (self : WebMercatorCell) :
  childless self -> flatten self = [self].
Proof.
  destruct self; unfold childless; cbn. intros (-> & -> & -> & ->).
  reflexivity.
Qed.

Lemma flatten_full_tree_S (n : nat) (self : WebMercatorCell) :
  flatten (full_tree (S n) self) =
  full_tree (S n) self ::
    flatten (full_tree n (fresh_child self (row_0 self)))
    ++ flatten (full_tree n (fresh_child self (row_1 self)))
    ++ flatten (full_tree n (fresh_child self (row_2 self)))
    ++ flatten (full_tree n (fresh_child self (row_3 self))).
Proof. reflexivity. Qed.

Lemma full_tree_total_count (n : nat) :
  forall self,
    childless self ->
    (3 * length (flatten (full_tree n self)) + 1 = 4 ^ S n)%nat.
Proof.
  induction n as [|n IH]; intros self Hc.
  - cbn [full_tree]. rewrite flatten_childless by assumption. reflexivity.
  - rewrite flatten_full_tree_S. cbn [length]. rewrite !length_app.
    pose proof (IH _ (fresh_child_childless self (row_0 self))) as H0.
    pose proof (IH _ (fresh_child_childless self (row_1 self))) as H1.
    pose proof (IH _ (fresh_child_childless self (row_2 self))) as H2.
    pose proof (IH _ (fresh_child_childless self (row_3 self))) as H3.
    change (4 ^ S (S n))%nat with (4 * 4 ^ S n)%nat. lia.
Qed.

Lemma full_tree_deepest_count (n : nat) :
  forall self lv,
    childless self ->
    lv = level self + Z.of_nat n ->
    length (filter (fun v => level v =? lv) (flatten (full_tree n self)))
    = (4 ^ n)%nat.
Proof.
  induction n as [|n IH]; intros self lv Hc Hlv.
  - cbn [full_tree]. rewrite flatten_childless by assumption.
    cbn [filter]. replace lv with (level self) by lia.
    rewrite Z.eqb_refl. reflexivity.
  - rewrite flatten_full_tree_S. cbn [filter].
    rewrite full_tree_level.
    assert (Hne : (level self =? lv) = false) by (apply Z.eqb_neq; lia).
    rewrite Hne, !filter_app, !length_app.
    rewrite !IH;
      try apply fresh_child_childless;
      try (rewrite fresh_child_level; lia).
    change (4 ^ S n)%nat with (4 * 4 ^ n)%nat. lia.
Qed.

(** C5. For every level [L >= 0] the grid of [generate_webmercator_grid]
    has exactly [4^L] cells of level [L], and [flatten] lists exactly
    [(4^(L+1) - 1) / 3] cells. *)
Theorem grid_cell_counts (L : Z) :
  0 <= L ->
  exists root,
    generate_webmercator_grid L = Some root
    /\ Z.of_nat (length (filter (fun v => level v =? L) (flatten root)))
       = 4 ^ L
    /\ Z.of_nat (length (flatten root)) = (4 ^ (L + 1) - 1) / 3.
Proof.
  intros HL. rewrite generate_webmercator_grid_full.
  eexists; split; [reflexivity|].
  pose proof webmercator_root_childless as Hc.
  pose proof webmercator_root_level as Hl.
  split.
  - rewrite (full_tree_deepest_count (Z.to_nat L) _ L Hc) by lia.
    rewrite Nat2Z.inj_pow, Z2Nat.id by assumption. reflexivity.
  - pose proof (full_tree_total_count (Z.to_nat L) _ Hc) as H.
    change (4 ^ S (Z.to_nat L))%nat with (4 * 4 ^ Z.to_nat L)%nat in H.
    assert (Hp : Z.of_nat (4 ^ Z.to_nat L) = 4 ^ L)
      by (rewrite Nat2Z.inj_pow, Z2Nat.id by assumption; reflexivity).
    rewrite Z.pow_add_r, Z.pow_1_r, <- Hp by lia.
    apply Z.div_unique_exact; lia.
Qed.

Lemma grid_cell_counts_witness :
  0 <= 3 /\
  exists root,
    generate_webmercator_grid 3 = Some root
    /\ Z.of_nat (length (filter (fun v => level v =? 3) (flatten root)))
       = 4 ^ 3
    /\ Z.of_nat (length (flatten root)) = (4 ^ (3 + 1) - 1) / 3.
Proof.
  assert (H : 0 <= 3) by lia.
  split; [exact H | exact (grid_cell_counts 3 H)].
Defined.

(* ================================================================== *)
(** * Properties of the quadtree in binary64 *)
(* ================================================================== *)

Module Binary64Facts.

Import Binary64.

Section SubdivisionFacts64.

Variable condition : WebMercatorCell -> bool.
Variable max_depth : Z.

(** What one round of the loop leaves in the attribute of [row]: the
    subdivided candidate when the condition holds for it, the attribute
    as it was otherwise. *)
Definition visit (fuel : nat) (self : WebMercatorCell) (row : SubdivisionRow)
  : option (option WebMercatorCell) :=
  let cell := candidate self row in
  if condition cell then
    match conditional_recursive_subdivide fuel condition max_depth cell with
    | Some cell' => Some (Some cell')
    | None => None
    end
  else Some (getattr self (row_key row)).

Definition row_0 (self : WebMercatorCell) : SubdivisionRow :=
  (Cell_0, 2 * i self, 2 * j self, x0 self, xmid self, y0 self, ymid self).
Definition row_1 (self : WebMercatorCell) : SubdivisionRow :=
  (Cell_1, 2 * i self + 1, 2 * j self, xmid self, x1 self,
   y0 self, ymid self).
Definition row_2 (self : WebMercatorCell) : SubdivisionRow :=
  (Cell_2, 2 * i self, 2 * j self + 1, x0 self, xmid self,
   ymid self, y1 self).
Definition row_3 (self : WebMercatorCell) : SubdivisionRow :=
  (Cell_3, 2 * i self + 1, 2 * j self + 1, xmid self, x1 self,
   ymid self, y1 self).

Lemma subdivision_table_rows_b64 (self : WebMercatorCell) :
  subdivision_table self = [row_0 self; row_1 self; row_2 self; row_3 self].
Proof. reflexivity. Qed.

(** The body of the loop. *)
Definition loop_body (fuel : nat) (acc : option WebMercatorCell)
  (row : SubdivisionRow) : option WebMercatorCell :=
  match acc with
  | None => None
  | Some cur =>
    let cell := candidate cur row in
    if condition cell then
      match conditional_recursive_subdivide fuel condition max_depth cell with
      | Some cell' => Some (setattr cur (row_key row) (Some cell'))
      | None => None
      end
    else Some cur
  end.

Lemma subdivide_unfold_b64 (fuel : nat) (self : WebMercatorCell) :
  conditional_recursive_subdivide (S fuel) condition max_depth self =
  if level self >=? max_depth then Some self
  else fold_left (loop_body fuel) (subdivision_table self) (Some self).
Proof. reflexivity. Qed.

Lemma setattr_getattr_b64 (self : WebMercatorCell) (key : CellKey) :
  setattr self key (getattr self key) = self.
Proof. destruct self, key; reflexivity. Qed.

Lemma loop_body_visit_b64 (fuel : nat) (cur : WebMercatorCell)
  (row : SubdivisionRow) :
  loop_body fuel (Some cur) row =
  match visit fuel cur row with
  | Some v => Some (setattr cur (row_key row) v)
  | None => None
  end.
Proof.
  unfold loop_body, visit.
  destruct (condition (candidate cur row)).
  - destruct (conditional_recursive_subdivide _ _ _ _); reflexivity.
  - rewrite setattr_getattr_b64. reflexivity.
Qed.

Lemma visit_setattr_other_b64 (fuel : nat) (cur : WebMercatorCell)
  (key : CellKey) (v : option WebMercatorCell) (row : SubdivisionRow) :
  row_key row <> key ->
  visit fuel (setattr cur key v) row = visit fuel cur row.
Proof.
  intros Hne. destruct row as [[[[[[k a] b] xa] xb] ya] yb].
  cbn [row_key] in Hne.
  assert (Hget : getattr (setattr cur key v) k = getattr cur k).
  { destruct cur, key, k; try reflexivity; congruence. }
  assert (Hlev : level (setattr cur key v) = level cur).
  { destruct cur, key; reflexivity. }
  unfold visit, candidate. cbn [row_key]. rewrite Hget, Hlev. reflexivity.
Qed.

(** The loop, one attribute at a time. *)
Lemma subdivide_step_b64 (fuel : nat) (self : WebMercatorCell) :
  conditional_recursive_subdivide (S fuel) condition max_depth self =
  if level self >=? max_depth then Some self
  else
    match visit fuel self (row_0 self), visit fuel self (row_1 self),
          visit fuel self (row_2 self), visit fuel self (row_3 self) with
    | Some c0, Some c1, Some c2, Some c3 =>
      Some (mkCell (level self) (i self) (j self)
                   (x0 self) (x1 self) (y0 self) (y1 self) c0 c1 c2 c3)
    | _, _, _, _ => None
    end.
Proof.
  rewrite subdivide_unfold_b64.
  destruct (level self >=? max_depth); [reflexivity|].
  rewrite subdivision_table_rows_b64. cbn [fold_left].
  rewrite loop_body_visit_b64.
  destruct (visit fuel self (row_0 self)) as [v0|]; [|reflexivity].
  rewrite loop_body_visit_b64, visit_setattr_other_b64 by (cbn; congruence).
  destruct (visit fuel self (row_1 self)) as [v1|]; [|reflexivity].
  rewrite loop_body_visit_b64, !visit_setattr_other_b64 by (cbn; congruence).
  destruct (visit fuel self (row_2 self)) as [v2|]; [|reflexivity].
  rewrite loop_body_visit_b64, !visit_setattr_other_b64 by (cbn; congruence).
  destruct (visit fuel self (row_3 self)) as [v3|]; [|reflexivity].
  destruct self; reflexivity.
Qed.

(** A candidate needs less fuel than the cell it is a candidate of. *)
Lemma recursion_depth_candidate_b64 (self : WebMercatorCell)
  (row : SubdivisionRow) :
  level self < max_depth ->
  In row (subdivision_table self) ->
  (recursion_depth max_depth (candidate self row)
   < recursion_depth max_depth self)%nat.
Proof.
  intros Hlev Hin. destruct self as [l a b xa xb ya yb c0 c1 c2 c3].
  cbn [level] in Hlev.
  assert (Hfresh : forall a' b' xa' xb' ya' yb',
    recursion_depth max_depth
      (mkCell (l + 1) a' b' xa' xb' ya' yb' None None None None)
    = Z.to_nat (max_depth - l)).
  { intros. cbn [recursion_depth]. rewrite !Nat.max_id. lia. }
  cbn in Hin.
  destruct Hin as [<-|[<-|[<-|[<-|[]]]]];
    cbn [candidate getattr cell_0 cell_1 cell_2 cell_3 level];
    match goal with
    | |- context [match ?c with Some _ => _ | None => _ end] =>
      destruct c
    end;
    rewrite ?Hfresh; cbn [recursion_depth]; lia.
Qed.

Lemma visit_total_b64 (fuel : nat) (self : WebMercatorCell)
  (row : SubdivisionRow) :
  (forall cell,
      (recursion_depth max_depth cell <= fuel)%nat ->
      exists r,
        conditional_recursive_subdivide fuel condition max_depth cell
        = Some r) ->
  level self < max_depth ->
  In row (subdivision_table self) ->
  (recursion_depth max_depth self <= S fuel)%nat ->
  exists v, visit fuel self row = Some v.
Proof.
  intros IH Hlev Hin Hfuel. unfold visit.
  destruct (condition (candidate self row)); [|eauto].
  pose proof (recursion_depth_candidate_b64 self row Hlev Hin) as Hlt.
  destruct (IH (candidate self row)) as [r Hr]; [lia|].
  rewrite Hr. eauto.
Qed.

(** With [recursion_depth] or more fuel the subdivision returns. *)
Lemma subdivide_total_b64 (fuel : nat) :
  forall self,
    (recursion_depth max_depth self <= fuel)%nat ->
    exists r,
      conditional_recursive_subdivide fuel condition max_depth self = Some r.
Proof.
  induction fuel as [|fuel IH]; intros self Hfuel.
  - destruct self; cbn [recursion_depth] in Hfuel; lia.
  - rewrite subdivide_step_b64.
    destruct (level self >=? max_depth) eqn:Hlev; [eauto|].
    rewrite Z.geb_leb in Hlev. apply Z.leb_gt in Hlev.
    destruct (visit_total_b64 fuel self (row_0 self) IH Hlev) as [v0 ->];
      [rewrite subdivision_table_rows_b64; cbn; tauto | assumption |].
    destruct (visit_total_b64 fuel self (row_1 self) IH Hlev) as [v1 ->];
      [rewrite subdivision_table_rows_b64; cbn; tauto | assumption |].
    destruct (visit_total_b64 fuel self (row_2 self) IH Hlev) as [v2 ->];
      [rewrite subdivision_table_rows_b64; cbn; tauto | assumption |].
    destruct (visit_total_b64 fuel self (row_3 self) IH Hlev) as [v3 ->];
      [rewrite subdivision_table_rows_b64; cbn; tauto | assumption |].
    eauto.
Qed.

(** The subdivision leaves the fields of the cell itself as they are. *)
Lemma subdivide_fields_b64 (fuel : nat) (self r : WebMercatorCell) :
  conditional_recursive_subdivide fuel condition max_depth self = Some r ->
  level r = level self /\ i r = i self /\ j r = j self /\
  x0 r = x0 self /\ x1 r = x1 self /\ y0 r = y0 self /\ y1 r = y1 self.
Proof.
  destruct fuel as [|fuel]; [discriminate|].
  rewrite subdivide_step_b64.
  destruct (level self >=? max_depth).
  - intros [= <-]. tauto.
  - destruct (visit fuel self (row_0 self)); [|discriminate].
    destruct (visit fuel self (row_1 self)); [|discriminate].
    destruct (visit fuel self (row_2 self)); [|discriminate].
    destruct (visit fuel self (row_3 self)); [|discriminate].
    intros [= <-]. cbn. tauto.
Qed.

End SubdivisionFacts64.

(** [child] has the level [lvl] and the address and the box that [row]
    describes. *)
Definition is_quadrant (row : SubdivisionRow) (lvl : Z)
  (child : WebMercatorCell) : Prop :=
  let '(_, a, b, xa, xb, ya, yb) := row in
  level child = lvl /\ i child = a /\ j child = b /\
  x0 child = xa /\ x1 child = xb /\ y0 child = ya /\ y1 child = yb.

(** Every attached child of the tree is the quadrant of its parent that
    the table of the subdivision assigns to its attribute: the box cut
    at the computed midpoints [xmid] and [ymid], [i' = 2i + {0,1}],
    [j' = 2j + {0,1}], [level' = level + 1]. *)
Fixpoint quadtree_inv (self : WebMercatorCell) : Prop :=
  match self with
  | mkCell l _ _ _ _ _ _ c0 c1 c2 c3 =>
    let ok (row : SubdivisionRow) (o : option WebMercatorCell) :=
      match o with
      | Some child => is_quadrant row (l + 1) child /\ quadtree_inv child
      | None => True
      end in
    ok (row_0 self) c0 /\ ok (row_1 self) c1
    /\ ok (row_2 self) c2 /\ ok (row_3 self) c3
  end.

Definition child_inv (self : WebMercatorCell) (row : SubdivisionRow) : Prop :=
  match getattr self (row_key row) with
  | Some child =>
    is_quadrant row (level self + 1) child /\ quadtree_inv child
  | None => True
  end.

Lemma quadtree_inv_unfold_b64 (self : WebMercatorCell) :
  quadtree_inv self <->
  child_inv self (row_0 self) /\ child_inv self (row_1 self)
  /\ child_inv self (row_2 self) /\ child_inv self (row_3 self).
Proof. destruct self; reflexivity. Qed.

Lemma candidate_inv_b64 (self : WebMercatorCell) (row : SubdivisionRow) :
  In row (subdivision_table self) ->
  child_inv self row ->
  is_quadrant row (level self + 1) (candidate self row)
  /\ quadtree_inv (candidate self row).
Proof.
  intros Hin Hc. unfold child_inv in Hc.
  rewrite subdivision_table_rows_b64 in Hin.
  destruct Hin as [<-|[<-|[<-|[<-|[]]]]];
    cbn [row_0 row_1 row_2 row_3 row_key candidate] in *;
    match goal with
    | |- context [match getattr ?s ?k with Some _ => _ | None => _ end] =>
      destruct (getattr s k)
    end;
    try assumption;
    cbn; repeat split.
Qed.

Section QuadrantInvariant64.

Variable condition : WebMercatorCell -> bool.
Variable max_depth : Z.

Lemma visit_inv_b64 (fuel : nat) (self : WebMercatorCell) (row : SubdivisionRow)
  (v : option WebMercatorCell) :
  (forall cell r,
      quadtree_inv cell ->
      conditional_recursive_subdivide fuel condition max_depth cell = Some r ->
      quadtree_inv r) ->
  In row (subdivision_table self) ->
  child_inv self row ->
  visit condition max_depth fuel self row = Some v ->
  match v with
  | Some child =>
    is_quadrant row (level self + 1) child /\ quadtree_inv child
  | None => True
  end.
Proof.
  intros IH Hin Hc. unfold visit.
  destruct (candidate_inv_b64 self row Hin Hc) as [Hq Hi].
  destruct (condition (candidate self row)).
  - destruct (conditional_recursive_subdivide fuel condition max_depth
                (candidate self row)) as [r|] eqn:E; [|discriminate].
    intros [= <-]. split; [|exact (IH _ _ Hi E)].
    destruct (subdivide_fields_b64 _ _ _ _ _ E) as (F1 & F2 & F3 & F4 & F5 & F6 & F7).
    destruct row as [[[[[[k a] b] xa] xb] ya] yb]. unfold is_quadrant in *.
    rewrite F1, F2, F3, F4, F5, F6, F7. exact Hq.
  - intros [= <-]. exact Hc.
Qed.

(** The subdivision preserves the invariant. *)
Lemma subdivide_inv_b64 (fuel : nat) :
  forall self r,
    quadtree_inv self ->
    conditional_recursive_subdivide fuel condition max_depth self = Some r ->
    quadtree_inv r.
Proof.
  induction fuel as [|fuel IH]; intros self r Hinv H; [discriminate|].
  rewrite subdivide_step_b64 in H.
  destruct (level self >=? max_depth); [congruence|].
  apply quadtree_inv_unfold_b64 in Hinv.
  destruct Hinv as (H0 & H1 & H2 & H3).
  destruct (visit condition max_depth fuel self (row_0 self))
    as [v0|] eqn:E0; [|discriminate].
  destruct (visit condition max_depth fuel self (row_1 self))
    as [v1|] eqn:E1; [|discriminate].
  destruct (visit condition max_depth fuel self (row_2 self))
    as [v2|] eqn:E2; [|discriminate].
  destruct (visit condition max_depth fuel self (row_3 self))
    as [v3|] eqn:E3; [|discriminate].
  injection H as <-.
  assert (Hrows : forall k, k = 0%nat \/ k = 1%nat \/ k = 2%nat \/ k = 3%nat ->
            In (nth k (subdivision_table self) (row_0 self))
               (subdivision_table self)).
  { intros k [->|[->|[->| ->]]]; cbn; tauto. }
  pose proof (visit_inv_b64 fuel self _ _ IH (Hrows 0%nat (or_introl eq_refl))
                H0 E0) as G0.
  pose proof (visit_inv_b64 fuel self _ _ IH
                (Hrows 1%nat (or_intror (or_introl eq_refl))) H1 E1) as G1.
  pose proof (visit_inv_b64 fuel self _ _ IH
                (Hrows 2%nat (or_intror (or_intror (or_introl eq_refl))))
                H2 E2) as G2.
  pose proof (visit_inv_b64 fuel self _ _ IH
                (Hrows 3%nat (or_intror (or_intror (or_intror eq_refl))))
                H3 E3) as G3.
  destruct self; cbn in *. tauto.
Qed.

End QuadrantInvariant64.

(** The order of a quadrant: the rows of the table keep [y0] and put
    [ymid] below it, or put [ymid] on top and keep [y1]. *)
Lemma quadrant_order_b64 (parent : WebMercatorCell) (row : SubdivisionRow)
  (child : WebMercatorCell) :
  In row (subdivision_table parent) ->
  is_quadrant row (level parent + 1) child ->
  (y1 parent <? ymid parent)%float = true ->
  (ymid parent <? y0 parent)%float = true ->
  (y1 child <? y0 child)%float = true.
Proof.
  intros Hin Hq Hlow Hhigh. rewrite subdivision_table_rows_b64 in Hin.
  destruct Hin as [<-|[<-|[<-|[<-|[]]]]];
    cbn [row_0 row_1 row_2 row_3 is_quadrant] in Hq;
    destruct Hq as (_ & _ & _ & _ & _ & -> & ->); assumption.
Qed.

End Binary64Facts.

(** ** Concrete runs *)

(** The unit box, [y] running from 1 at the top to 0 at the bottom. *)
Definition unit_box : Binary64.WebMercatorCell :=
  Binary64.mkCell 0 0 0 0 1 1 0 None None None None.

(** The cell [n] levels below [self] along [cell_0]. *)
Fixpoint descend_cell_0 (n : nat) (self : Binary64.WebMercatorCell)
  : option Binary64.WebMercatorCell :=
  match n with
  | O => Some self
  | S n' =>
    match Binary64.cell_0 self with
    | Some child => descend_cell_0 n' child
    | None => None
    end
  end.

(** C8, as amended.  The subdivision returns, and it keeps the quadrants:
    when every attached child of the tree is the quadrant of its parent
    that the table assigns to its attribute (the box cut at the computed
    midpoints [xmid = (x0 + x1) / 2] and [ymid = (y0 + y1) / 2],
    [i' = 2i + {0,1}], [j' = 2j + {0,1}], [level' = level + 1]), the
    same holds for the subdivided tree, children attached by the
    subdivision included.  Such a child has [y1 < y0] when the computed
    [ymid] of its parent lies strictly between the [y1] and the [y0] of
    the parent. *)
Theorem subdivision_keeps_quadrants
  (condition : Binary64.WebMercatorCell -> bool) (max_depth : Z)
  (self : Binary64.WebMercatorCell) :
  Binary64Facts.quadtree_inv self ->
  (exists r,
      Binary64.conditional_recursive_subdivide
        (Binary64.recursion_depth max_depth self) condition max_depth self
      = Some r
      /\ Binary64Facts.quadtree_inv r)
  /\ (forall parent row child,
        In row (Binary64.subdivision_table parent) ->
        Binary64Facts.is_quadrant row (Binary64.level parent + 1) child ->
        (Binary64.y1 parent <? Binary64.ymid parent)%float = true ->
        (Binary64.ymid parent <? Binary64.y0 parent)%float = true ->
        (Binary64.y1 child <? Binary64.y0 child)%float = true).
Proof.
  intros Hinv. split.
  - destruct (Binary64Facts.subdivide_total_b64 condition max_depth _ self
                (le_n _)) as [r Hr].
    exists r. split; [assumption|].
    exact (Binary64Facts.subdivide_inv_b64 condition max_depth _ self r
             Hinv Hr).
  - exact Binary64Facts.quadrant_order_b64.
Qed.

Lemma subdivision_keeps_quadrants_witness :
  Binary64Facts.quadtree_inv unit_box
  /\ exists r,
      Binary64.conditional_recursive_subdivide
        (Binary64.recursion_depth 2 unit_box)
        (fun c => Binary64.i c =? 0) 2 unit_box = Some r
      /\ Binary64Facts.quadtree_inv r.
Proof.
  assert (H : Binary64Facts.quadtree_inv unit_box) by (cbn; tauto).
  split; [exact H|].
  exact (proj1 (subdivision_keeps_quadrants (fun c => Binary64.i c =? 0) 2
                  unit_box H)).
Defined.

(** C8, as stated, fails: the order [y1 < y0] is lost where the rounded
    midpoint is one of the bounds.  A cell with [y0 = 1] and [y1] the
    binary64 number next below 1 has [y1 < y0]; its [ymid] is
    [(1 + y1) / 2 = 1], and the quadrant the subdivision attaches as
    [cell_0] has [y1 = y0 = 1].  The cell is the one 53 levels below the
    unit box along [cell_0], so the subdivision of the unit box to 54
    levels attaches such a quadrant. *)
Lemma subdivision_loses_order_counterexample :
  (exists r child,
      Binary64.conditional_recursive_subdivide 2 (fun _ => true) 1
        (Binary64.mkCell 0 0 0 0 1 1 0x1.fffffffffffffp-1 None None None None)
      = Some r
      /\ (Binary64.y1 r <? Binary64.y0 r)%float = true
      /\ Binary64.cell_0 r = Some child
      /\ Binary64.y0 child = 1%float /\ Binary64.y1 child = 1%float
      /\ (Binary64.y1 child <? Binary64.y0 child)%float = false)
  /\ (exists r parent child,
        Binary64.conditional_recursive_subdivide
          (Binary64.recursion_depth 54 unit_box)
          (fun c => (Binary64.i c =? 0) && (Binary64.j c =? 0)) 54 unit_box
        = Some r
        /\ descend_cell_0 53 r = Some parent
        /\ Binary64.y0 parent = 1%float
        /\ Binary64.y1 parent = 0x1.fffffffffffffp-1%float
        /\ Binary64.cell_0 parent = Some child
        /\ Binary64.level child = 54
        /\ Binary64.y0 child = 1%float /\ Binary64.y1 child = 1%float).
Proof.
  split.
  - do 2 eexists. split; [lazy; reflexivity|].
    split; [reflexivity|]. split; [lazy; reflexivity|].
    split; [reflexivity|]. split; reflexivity.
  - do 3 eexists. split; [lazy; reflexivity|].
    split; [lazy; reflexivity|].
    split; [reflexivity|]. split; [reflexivity|].
    split; [lazy; reflexivity|].
    split; [reflexivity|]. split; reflexivity.
Qed.

(* ================================================================== *)
(** * Properties of the hillshade tone transform *)
(* ================================================================== *)

(** The element of an array at row [r] and column [c]. *)
Definition pixel {A : Type} (a : ndarray A) (r c : nat) : option A :=
  match nth_error a r with
  | Some row => nth_error row c
  | None => None
  end.

(** On the values of a [uint8] nothing wraps around: the transform is
    [255 - (255 - v) / 3] with the quotient rounded down. *)
Lemma lighten_no_wrap (v : Z) :
  0 <= v <= 255 -> lighten v = 255 - (255 - v) / 3.
Proof.
  intros Hv. unfold lighten, uint8.
  assert (H1 : 0 <= 255 - v < 256) by lia.
  rewrite (Z.mod_small (255 - v)) by assumption.
  assert (H2 : 0 <= (255 - v) / 3 <= 85).
  { split; [apply Z.div_pos; lia|].
    apply Z.div_le_upper_bound; lia. }
  rewrite (Z.mod_small ((255 - v) / 3)) by lia.
  apply Z.mod_small. lia.
Qed.

Lemma pixel_map {A B : Type} (f : A -> B) (a : ndarray A) (r c : nat) :
  pixel (map (map f) a) r c = option_map f (pixel a r c).
Proof.
  unfold pixel. rewrite nth_error_map.
  destruct (nth_error a r) as [row|]; cbn; [|reflexivity].
  apply nth_error_map.
Qed.

(** C9. [to_hillshade] applies the tone transform to every element of the
    8-bit hillshade: where the hillshade has the value [v] (which lies in
    [0 .. 255]), the image has [255 - (255 - v) / 3], the division being
    the integer division of the 8-bit values; the image has no other
    elements. *)
Theorem to_hillshade_tone
  (es_hillshade : ndarray R -> Z -> ndarray R) (float_to_int : R -> Z)
  (data : ndarray R) (r c : nat) :
  match pixel (hillshade_uint8 es_hillshade float_to_int data) r c with
  | Some v =>
    0 <= v <= 255
    /\ pixel (to_hillshade es_hillshade float_to_int data) r c
       = Some (255 - (255 - v) / 3)
  | None => pixel (to_hillshade es_hillshade float_to_int data) r c = None
  end.
Proof.
  unfold to_hillshade. rewrite pixel_map.
  destruct (pixel (hillshade_uint8 es_hillshade float_to_int data) r c)
    as [v|] eqn:E; [|reflexivity].
  assert (Hv : 0 <= v <= 255).
  { unfold hillshade_uint8 in E. rewrite pixel_map in E.
    destruct (pixel (es_hillshade data HILLSHADE_AZIMUTH) r c);
      [|discriminate].
    injection E as <-. unfold uint8.
    pose proof (Z.mod_pos_bound (float_to_int r0) 256). lia. }
  split; [assumption|].
  cbn [option_map]. rewrite lighten_no_wrap by assumption. reflexivity.
Qed.

(* ================================================================== *)
(** * Properties of the thumbnail lookup *)
(* ================================================================== *)

Lemma zeros_shape (h w : nat) : has_shape h w (zeros h w).
Proof.
  unfold has_shape, zeros. split; [apply repeat_length|].
  apply Forall_forall. intros row Hin.
  apply repeat_spec in Hin. subst row. apply repeat_length.
Qed.

(** C10. The lookup wraps the column and leaves the row alone.  For every
    level [L >= 0] and every row [j]: a request for column [-1] returns
    what is stored for [(L, 2^L - 1, j)], a request for column [2^L] what
    is stored for [(L, 0, j)], a request for a column in [0 .. 2^L - 1]
    what is stored for that column, always in the row [j] as passed; and
    where nothing is stored for the address read, the all-zero
    128 x 128 array is returned. *)
Theorem get_heightdata_wraps_columns
  (tile_directory : TileStore) (L j : Z) :
  0 <= L ->
  let stored (i : Z) :=
    match tile_directory L i j with
    | Some img => img
    | None => zeros 128 128
    end in
  _get_heightdata tile_directory L (-1) j = stored (2 ^ L - 1)
  /\ _get_heightdata tile_directory L (2 ^ L) j = stored 0
  /\ (forall i, 0 <= i < 2 ^ L ->
        _get_heightdata tile_directory L i j = stored i)
  /\ (forall i, tile_directory L i j = None ->
        stored i = zeros 128 128 /\ has_shape 128 128 (stored i)).
Proof.
  intros HL stored.
  assert (Hpow : 0 < 2 ^ L) by (apply Z.pow_pos_nonneg; lia).
  unfold _get_heightdata. split; [|split; [|split]].
  - reflexivity.
  - assert (H1 : (2 ^ L <? 0) = false) by (apply Z.ltb_ge; lia).
    assert (H2 : (2 ^ L >=? 2 ^ L) = true) by (apply Z.geb_le; lia).
    rewrite H1, H2, Z.sub_diag. reflexivity.
  - intros i Hi.
    assert (H1 : (i <? 0) = false) by (apply Z.ltb_ge; lia).
    assert (H2 : (i >=? 2 ^ L) = false)
      by (rewrite Z.geb_leb; apply Z.leb_gt; lia).
    rewrite H1, H2. reflexivity.
  - intros i H. unfold stored. rewrite H.
    split; [reflexivity | apply zeros_shape].
Qed.

Definition ones (h w : nat) : ndarray R := repeat (repeat 1%R w) h.

Lemma ones_shape (h w : nat) : has_shape h w (ones h w).
Proof.
  unfold has_shape, ones. split; [apply repeat_length|].
  apply Forall_forall. intros row Hin.
  apply repeat_spec in Hin. subst row. apply repeat_length.
Qed.

(** A store with a single thumbnail, of ones, for the tile [(1, 1, 0)]. *)
Definition single_tile_store : TileStore :=
  fun level i j =>
    if (level =? 1) && (i =? 1) && (j =? 0)
    then Some (ones 128 128)
    else None.

Lemma get_heightdata_wraps_columns_witness :
  0 <= 1 /\
  _get_heightdata single_tile_store 1 (-1) 0 = ones 128 128
  /\ _get_heightdata single_tile_store 1 2 0 = zeros 128 128.
Proof.
  assert (H : 0 <= 1) by lia.
  split; [exact H|].
  pose proof (get_heightdata_wraps_columns single_tile_store 1 0 H) as G.
  cbv zeta in G. destruct G as (G1 & G2 & _).
  split; [exact G1 | exact G2].
Defined.

(* ================================================================== *)
(** * Properties of the list of empty tiles *)
(* ================================================================== *)

(** ** Induction over cells, and the equality of the dataclass *)

Lemma cell_induction (P : WebMercatorCell -> Prop) :
  (forall self,
      (forall key child, getattr self key = Some child -> P child) ->
      P self) ->
  forall self, P self.
Proof.
  intros step. fix IH 1.
  intros [l a b xa xb ya yb c0 c1 c2 c3].
  apply step. intros key child H.
  destruct key; cbn [getattr cell_0 cell_1 cell_2 cell_3] in H.
  - destruct c0 as [c|]; [injection H as <-; apply IH | discriminate].
  - destruct c1 as [c|]; [injection H as <-; apply IH | discriminate].
  - destruct c2 as [c|]; [injection H as <-; apply IH | discriminate].
  - destruct c3 as [c|]; [injection H as <-; apply IH | discriminate].
Qed.

Lemma Req_bool_true (a b : R) : Req_bool a b = true <-> a = b.
Proof.
  unfold Req_bool. destruct (Req_dec_T a b); split; congruence.
Qed.

Lemma cell_eqb_eq (a : WebMercatorCell) :
  forall b, cell_eqb a b = true <-> a = b.
Proof.
  induction a as [a IH] using cell_induction.
  assert (Hopt : forall key (p : option WebMercatorCell),
    match getattr a key, p with
    | Some c, Some d => cell_eqb c d
    | None, None => true
    | _, _ => false
    end = true <-> getattr a key = p).
  { intros key p. destruct (getattr a key) as [c|] eqn:E, p as [d|];
      try (split; [discriminate | congruence]); [|tauto].
    rewrite (IH key c E). split; congruence. }
  intros b.
  destruct a as [l ia ja xa0 xa1 ya0 ya1 a0 a1 a2 a3].
  destruct b as [m ib jb xb0 xb1 yb0 yb1 b0 b1 b2 b3].
  pose proof (Hopt Cell_0 b0) as H0. pose proof (Hopt Cell_1 b1) as H1.
  pose proof (Hopt Cell_2 b2) as H2. pose proof (Hopt Cell_3 b3) as H3.
  cbn [getattr cell_0 cell_1 cell_2 cell_3] in H0, H1, H2, H3.
  cbn [cell_eqb].
  rewrite !andb_true_iff, !Z.eqb_eq, !Req_bool_true, H0, H1, H2, H3.
  split.
  - intros ((((((((((-> & ->) & ->) & ->) & ->) & ->) & ->) & ->) & ->)
              & ->) & ->).
    reflexivity.
  - intros [= -> -> -> -> -> -> -> -> -> -> ->]. tauto.
Qed.

Lemma set_mem_In (cell : WebMercatorCell) (empties : list WebMercatorCell) :
  set_mem cell empties = true <-> In cell empties.
Proof.
  unfold set_mem. rewrite existsb_exists. split.
  - intros (x & Hin & Heq). apply cell_eqb_eq in Heq. congruence.
  - intros Hin. exists cell. split; [assumption|]. apply cell_eqb_eq.
    reflexivity.
Qed.

Lemma set_add_In (cell x : WebMercatorCell)
  (empties : list WebMercatorCell) :
  In x (set_add cell empties) <-> In x empties \/ x = cell.
Proof.
  unfold set_add. destruct (set_mem cell empties) eqn:E.
  - apply set_mem_In in E. split; [tauto|].
    intros [H| ->]; assumption.
  - rewrite in_app_iff. cbn. split; intros [H|H]; try tauto.
    + destruct H as [->|[]]. tauto.
    + subst x. tauto.
Qed.

Lemma child_mem_In (child : option WebMercatorCell)
  (empties : list WebMercatorCell) :
  child_mem child empties = true <->
  exists c, child = Some c /\ In c empties.
Proof.
  destruct child as [c|]; cbn.
  - rewrite set_mem_In. split; [eauto|].
    intros (c' & [= <-] & H). assumption.
  - split; [discriminate|]. intros (c & H & _). discriminate.
Qed.

(** ** Cells of a tree *)

Lemma flatten_unfold (self : WebMercatorCell) :
  flatten self =
  self :: (match cell_0 self with Some c => flatten c | None => [] end)
       ++ (match cell_1 self with Some c => flatten c | None => [] end)
       ++ (match cell_2 self with Some c => flatten c | None => [] end)
       ++ (match cell_3 self with Some c => flatten c | None => [] end).
Proof. destruct self; reflexivity. Qed.

Lemma flatten_In (self c : WebMercatorCell) :
  In c (flatten self) <->
  c = self \/ exists key child,
      getattr self key = Some child /\ In c (flatten child).
Proof.
  rewrite flatten_unfold. cbn [In]. rewrite !in_app_iff. split.
  - intros [H|[H|[H|[H|H]]]]; [left; congruence | right ..].
    + exists Cell_0. cbn. destruct (cell_0 self); [eauto | destruct H].
    + exists Cell_1. cbn. destruct (cell_1 self); [eauto | destruct H].
    + exists Cell_2. cbn. destruct (cell_2 self); [eauto | destruct H].
    + exists Cell_3. cbn. destruct (cell_3 self); [eauto | destruct H].
  - intros [H|(key & child & Hk & Hin)]; [left; congruence | right].
    destruct key; cbn in Hk; rewrite Hk; tauto.
Qed.

Lemma flatten_self (self : WebMercatorCell) : In self (flatten self).
Proof. apply flatten_In. left. reflexivity. Qed.

Lemma flatten_trans (t : WebMercatorCell) :
  forall c d, In c (flatten t) -> In d (flatten c) -> In d (flatten t).
Proof.
  induction t as [t IH] using cell_induction. intros c d Hc Hd.
  apply flatten_In in Hc. destruct Hc as [->|(key & child & Hk & Hin)];
    [assumption|].
  apply flatten_In. right. exists key, child. split; [assumption|].
  exact (IH key child Hk c d Hin Hd).
Qed.

Lemma flatten_child (t p c : WebMercatorCell) (key : CellKey) :
  In p (flatten t) -> getattr p key = Some c -> In c (flatten t).
Proof.
  intros Hp Hk. apply (flatten_trans t p c Hp).
  apply flatten_In. right. exists key, c. split; [assumption|].
  apply flatten_self.
Qed.

(** Every cell but the root has a parent in the tree. *)
Lemma flatten_parent (t : WebMercatorCell) :
  forall c, In c (flatten t) ->
    c = t \/ exists p key, In p (flatten t) /\ getattr p key = Some c.
Proof.
  induction t as [t IH] using cell_induction. intros c Hc.
  apply flatten_In in Hc. destruct Hc as [->|(key & child & Hk & Hin)];
    [tauto|].
  right. destruct (IH key child Hk c Hin) as [->|(p & key' & Hp & Hk')].
  - exists t, key. split; [apply flatten_self | assumption].
  - exists p, key'. split; [|assumption].
    apply (flatten_trans t child p); [|assumption].
    apply (flatten_child t t child key); [apply flatten_self | assumption].
Qed.

(** The row of the subdivision table that belongs to an attribute. *)
Definition row_of (self : WebMercatorCell) (key : CellKey) : SubdivisionRow :=
  match key with
  | Cell_0 => row_0 self
  | Cell_1 => row_1 self
  | Cell_2 => row_2 self
  | Cell_3 => row_3 self
  end.

Lemma quadtree_inv_child (self child : WebMercatorCell) (key : CellKey) :
  quadtree_inv self -> getattr self key = Some child ->
  is_quadrant (row_of self key) (level self + 1) child
  /\ quadtree_inv child.
Proof.
  intros Hinv Hk. apply quadtree_inv_unfold in Hinv.
  destruct Hinv as (_ & H0 & H1 & H2 & H3).
  unfold child_inv in *.
  destruct key; cbn [row_of row_key row_0 row_1 row_2 row_3] in *;
    rewrite Hk in *; assumption.
Qed.

Lemma quadtree_inv_flatten (t : WebMercatorCell) :
  forall c, quadtree_inv t -> In c (flatten t) -> quadtree_inv c.
Proof.
  induction t as [t IH] using cell_induction. intros c Hinv Hc.
  apply flatten_In in Hc. destruct Hc as [->|(key & child & Hk & Hin)];
    [assumption|].
  apply (IH key child Hk c); [|assumption].
  apply (quadtree_inv_child t child key Hinv Hk).
Qed.

(** ** Addresses in a tree of quadrants *)

Lemma quadrant_range (a d P x : Z) :
  0 <= d <= 1 -> 0 < P ->
  (2 * a + d) * P <= x < (2 * a + d + 1) * P ->
  a * (2 * P) <= x < (a + 1) * (2 * P).
Proof. intros Hd HP Hx. nia. Qed.

Lemma quadrant_disjoint (a d d' P x : Z) :
  0 <= d <= 1 -> 0 <= d' <= 1 -> 0 < P ->
  (2 * a + d) * P <= x < (2 * a + d + 1) * P ->
  (2 * a + d') * P <= x < (2 * a + d' + 1) * P ->
  d = d'.
Proof. intros Hd Hd' HP Hx Hx'. nia. Qed.

Definition key_dx (key : CellKey) : Z :=
  match key with Cell_1 | Cell_3 => 1 | _ => 0 end.

Definition key_dy (key : CellKey) : Z :=
  match key with Cell_2 | Cell_3 => 1 | _ => 0 end.

Lemma key_dx_dy_inj (k k' : CellKey) :
  key_dx k = key_dx k' -> key_dy k = key_dy k' -> k = k'.
Proof. destruct k, k'; cbn; intros; congruence || lia. Qed.

Lemma child_address_inv (self c : WebMercatorCell) (key : CellKey) :
  quadtree_inv self -> getattr self key = Some c ->
  level c = level self + 1
  /\ i c = 2 * i self + key_dx key
  /\ j c = 2 * j self + key_dy key.
Proof.
  intros Hinv Hk.
  destruct (quadtree_inv_child self c key Hinv Hk) as [Hq _].
  destruct key;
    unfold is_quadrant, row_of, row_0, row_1, row_2, row_3 in Hq;
    cbn [key_dx key_dy]; lia.
Qed.

(** The cells of a tree lie below its root: not above its level, and
    inside its square. *)
Lemma flatten_range (t : WebMercatorCell) :
  forall c,
    quadtree_inv t -> In c (flatten t) ->
    level t <= level c
    /\ i t * 2 ^ (level c - level t) <= i c
       < (i t + 1) * 2 ^ (level c - level t)
    /\ j t * 2 ^ (level c - level t) <= j c
       < (j t + 1) * 2 ^ (level c - level t).
Proof.
  induction t as [t IH] using cell_induction. intros c Hinv Hc.
  apply flatten_In in Hc. destruct Hc as [->|(key & child & Hk & Hin)].
  - rewrite Z.sub_diag. cbn. lia.
  - destruct (quadtree_inv_child t child key Hinv Hk) as [_ Hcinv].
    destruct (child_address_inv t child key Hinv Hk) as (Hl & Hi & Hj).
    destruct (IH key child Hk c Hcinv Hin) as (Hlev & Hri & Hrj).
    rewrite Hl, Hi in Hri. rewrite Hl, Hj in Hrj. rewrite Hl in Hlev.
    replace (level c - level t) with (level c - (level t + 1) + 1) by lia.
    rewrite Z.pow_add_r, Z.pow_1_r by lia.
    set (P := 2 ^ (level c - (level t + 1))) in *.
    assert (HP : 0 < P) by (apply Z.pow_pos_nonneg; lia).
    assert (Hdx : 0 <= key_dx key <= 1) by (destruct key; cbn; lia).
    assert (Hdy : 0 <= key_dy key <= 1) by (destruct key; cbn; lia).
    rewrite (Z.mul_comm P 2).
    split; [lia|]. split.
    + exact (quadrant_range _ _ _ _ Hdx HP Hri).
    + exact (quadrant_range _ _ _ _ Hdy HP Hrj).
Qed.

(** In a tree of quadrants the address determines the cell. *)
Lemma flatten_address_unique (t : WebMercatorCell) :
  forall c c',
    quadtree_inv t -> In c (flatten t) -> In c' (flatten t) ->
    level c = level c' -> i c = i c' -> j c = j c' -> c = c'.
Proof.
  induction t as [t IH] using cell_induction.
  intros c c' Hinv Hc Hc' Hl Hi Hj.
  assert (Hbelow : forall key child d,
    getattr t key = Some child -> In d (flatten child) ->
    level t + 1 <= level d
    /\ (2 * i t + key_dx key) * 2 ^ (level d - (level t + 1)) <= i d
       < (2 * i t + key_dx key + 1) * 2 ^ (level d - (level t + 1))
    /\ (2 * j t + key_dy key) * 2 ^ (level d - (level t + 1)) <= j d
       < (2 * j t + key_dy key + 1) * 2 ^ (level d - (level t + 1))).
  { intros key child d Hk Hd.
    destruct (quadtree_inv_child t child key Hinv Hk) as [_ Hcinv].
    destruct (child_address_inv t child key Hinv Hk) as (Hl1 & Hi1 & Hj1).
    pose proof (flatten_range child d Hcinv Hd) as Hr.
    rewrite Hl1, Hi1, Hj1 in Hr. exact Hr. }
  apply flatten_In in Hc. apply flatten_In in Hc'.
  destruct Hc as [->|(key & child & Hk & Hin)];
    destruct Hc' as [->|(key' & child' & Hk' & Hin')].
  - reflexivity.
  - destruct (Hbelow _ _ _ Hk' Hin') as (H & _). lia.
  - destruct (Hbelow _ _ _ Hk Hin) as (H & _). lia.
  - destruct (Hbelow _ _ _ Hk Hin) as (Hlev & Hri & Hrj).
    destruct (Hbelow _ _ _ Hk' Hin') as (_ & Hri' & Hrj').
    rewrite <- Hl, <- Hi in Hri'. rewrite <- Hl, <- Hj in Hrj'.
    set (P := 2 ^ (level c - (level t + 1))) in *.
    assert (HP : 0 < P) by (apply Z.pow_pos_nonneg; lia).
    assert (Hdx : forall k, 0 <= key_dx k <= 1) by (destruct k; cbn; lia).
    assert (Hdy : forall k, 0 <= key_dy k <= 1) by (destruct k; cbn; lia).
    pose proof (quadrant_disjoint _ _ _ _ _ (Hdx key) (Hdx key') HP Hri Hri')
      as Ex.
    pose proof (quadrant_disjoint _ _ _ _ _ (Hdy key) (Hdy key') HP Hrj Hrj')
      as Ey.
    pose proof (key_dx_dy_inj _ _ Ex Ey) as <-.
    assert (child' = child) as -> by congruence.
    destruct (quadtree_inv_child t child key Hinv Hk) as [_ Hcinv].
    exact (IH key child Hk c c' Hcinv Hin Hin' Hl Hi Hj).
Qed.

(** Below a level [k] that lies between the root and a cell there is a
    cell of level [k] whose subtree has the cell. *)
Lemma flatten_ancestor (t : WebMercatorCell) :
  forall c k,
    quadtree_inv t -> In c (flatten t) -> level t <= k <= level c ->
    exists q, In q (flatten t) /\ level q = k /\ In c (flatten q).
Proof.
  induction t as [t IH] using cell_induction. intros c k Hinv Hc Hk.
  destruct (Z.eq_dec k (level t)) as [->|Hne].
  - exists t. split; [apply flatten_self|]. split; [reflexivity | assumption].
  - apply flatten_In in Hc. destruct Hc as [->|(key & child & Hkey & Hin)];
      [lia|].
    destruct (quadtree_inv_child t child key Hinv Hkey) as [_ Hcinv].
    destruct (child_address_inv t child key Hinv Hkey) as (Hl & _).
    destruct (IH key child Hkey c k Hcinv Hin) as (q & Hq & Hlq & Hcq);
      [lia|].
    exists q. split; [|tauto].
    apply (flatten_trans t child q); [|assumption].
    apply (flatten_child t t child key); [apply flatten_self | assumption].
Qed.

(** The cells of the full tree above its deepest level have four
    children, and no cell lies deeper. *)
Lemma full_tree_complete (n : nat) :
  forall self p,
    childless self -> In p (flatten (full_tree n self)) ->
    level p <= level self + Z.of_nat n
    /\ (level p < level self + Z.of_nat n ->
        forall key, exists c, getattr p key = Some c).
Proof.
  induction n as [|n IH]; intros self p Hc Hp.
  - cbn [full_tree] in Hp. rewrite flatten_childless in Hp by assumption.
    destruct Hp as [<-|[]]. lia.
  - apply flatten_In in Hp.
    destruct Hp as [->|(key & child & Hkey & Hin)].
    + rewrite full_tree_level. split; [lia|].
      intros _ key. destruct key; cbn; eauto.
    + assert (Hchild : child = full_tree n (fresh_child self (row_of self key))).
      { destruct key;
          cbn [getattr full_tree cell_0 cell_1 cell_2 cell_3] in Hkey;
          cbn [row_of]; congruence. }
      subst child.
      destruct (IH _ p (fresh_child_childless _ _) Hin) as [H1 H2].
      rewrite fresh_child_level in H1, H2.
      split; [lia|]. intros Hlt. apply H2. lia.
Qed.

(** ** The set after the classification of the leaves *)

Section EmptinessFacts.

Variable intersect : Feature -> Feature -> option Feature.

Lemma classify_cells_In (polygons_clipped : list Feature)
  (cells : list WebMercatorCell) :
  forall empties x,
    In x (classify_cells intersect polygons_clipped cells empties) <->
    In x empties
    \/ (In x cells
        /\ fst (does_intersect intersect polygons_clipped x) = false).
Proof.
  unfold classify_cells.
  induction cells as [|cell cells IH]; intros empties x; cbn [fold_left].
  - cbn. tauto.
  - rewrite IH.
    destruct (fst (does_intersect intersect polygons_clipped cell)) eqn:E;
      cbn [negb In].
    + split; [tauto|]. intros [H|[[<-|H] H']]; try tauto. congruence.
    + rewrite set_add_In. split.
      * intros [[H| ->]|H]; tauto.
      * intros [H|[[<-|H] H']]; tauto.
Qed.

Lemma classify_partitions_In (polygons : list Feature) (max_level : Z)
  (intermediate_cells : list WebMercatorCell) :
  forall empties x,
    In x (classify_partitions intersect polygons max_level
            intermediate_cells empties) <->
    In x empties
    \/ exists q,
        In q intermediate_cells /\ In x (flatten q) /\ level x = max_level
        /\ fst (does_intersect intersect
                  (clip_polygons intersect polygons (cell_polygon q)) x)
           = false.
Proof.
  unfold classify_partitions.
  induction intermediate_cells as [|q0 rest IH]; intros empties x;
    cbn [fold_left].
  - split; [tauto|]. intros [H|(q & [] & _)]. assumption.
  - rewrite IH, classify_cells_In, filter_In, Z.eqb_eq. split.
    + intros [[H|((H1 & H2) & H3)]|(q & Hq & H)]; [tauto| |].
      * right. exists q0. cbn. tauto.
      * right. exists q. cbn. tauto.
    + intros [H|(q & [<-|Hq] & H)]; [tauto|tauto|].
      right. exists q. tauto.
Qed.

(** ** The sweep up the hierarchy *)

(** All four children of [p] are attached and in the set. *)
Definition children_in (p : WebMercatorCell)
  (empties : list WebMercatorCell) : Prop :=
  forall key, exists c, getattr p key = Some c /\ In c empties.

Lemma children_in_test (p : WebMercatorCell)
  (empties : list WebMercatorCell) :
  child_mem (cell_0 p) empties && child_mem (cell_1 p) empties
  && child_mem (cell_2 p) empties && child_mem (cell_3 p) empties = true
  <-> children_in p empties.
Proof.
  rewrite !andb_true_iff, !child_mem_In. unfold children_in. split.
  - intros (((H0 & H1) & H2) & H3) key. destruct key; assumption.
  - intros H. repeat split;
      [apply (H Cell_0) | apply (H Cell_1) | apply (H Cell_2)
       | apply (H Cell_3)].
Qed.

Lemma sweep_level_In (cells : list WebMercatorCell) :
  forall empties,
    (forall p key c,
        In p cells -> getattr p key = Some c -> ~ In c cells) ->
    forall x,
      In x (sweep_level cells empties) <->
      In x empties \/ (In x cells /\ children_in x empties).
Proof.
  unfold sweep_level.
  induction cells as [|cell cells IH]; intros empties Hsep x;
    cbn [fold_left].
  - cbn. tauto.
  - assert (Hsep' : forall p key c,
      In p cells -> getattr p key = Some c -> ~ In c cells).
    { intros p key c Hp Hk Hc.
      apply (Hsep p key c); [right; assumption | assumption
                             | right; assumption]. }
    assert (Hstep : forall E' p,
      (forall y, In y E' <-> In y empties \/ (y = cell /\ In y E')) ->
      In p (cell :: cells) ->
      (children_in p E' <-> children_in p empties)).
    { intros E' p HE' Hp. unfold children_in. split; intros H key;
        destruct (H key) as (c & Hk & Hc); exists c; (split; [assumption|]).
      - apply HE' in Hc. destruct Hc as [Hc|[-> _]]; [assumption|].
        exfalso. apply (Hsep p key cell Hp Hk). left. reflexivity.
      - apply HE'. tauto. }
    rewrite IH by assumption.
    destruct (child_mem (cell_0 cell) empties
              && child_mem (cell_1 cell) empties
              && child_mem (cell_2 cell) empties
              && child_mem (cell_3 cell) empties) eqn:E.
    + apply children_in_test in E.
      assert (HE' : forall y,
        In y (set_add cell empties) <->
        In y empties \/ (y = cell /\ In y (set_add cell empties))).
      { intros y. rewrite set_add_In. split; [|tauto].
        intros [H| ->]; [tauto|].
        right. split; [reflexivity | right; reflexivity]. }
      rewrite set_add_In. split.
      * intros [[H| ->]|[H1 H2]]; [tauto| |].
        -- right. split; [left; reflexivity | assumption].
        -- right. split; [right; assumption|].
           apply (Hstep _ x HE'); [right; assumption | assumption].
      * intros [H|[[<-|H1] H2]]; [tauto|tauto|].
        right. split; [assumption|].
        apply (Hstep _ x HE'); [right; assumption | assumption].
    + assert (Hnot : ~ children_in cell empties).
      { intros H. apply children_in_test in H. congruence. }
      cbn [In]. split; [tauto|].
      intros [H|[[<-|H1] H2]]; tauto.
Qed.

Lemma range_down_snoc (start stop : Z) :
  stop <= start ->
  range_down start (stop - 1) = range_down start stop ++ [stop].
Proof.
  intros Hle. unfold range_down.
  replace (Z.to_nat (start - (stop - 1)))
    with (S (Z.to_nat (start - stop))) by lia.
  rewrite seq_S, map_app. cbn [map Nat.add]. f_equal. f_equal. lia.
Qed.

Lemma range_down_nil (start stop : Z) :
  start <= stop -> range_down start stop = [].
Proof.
  intros Hle. unfold range_down.
  replace (Z.to_nat (start - stop)) with O by lia. reflexivity.
Qed.

End EmptinessFacts.

(** ** The grid the list is computed on *)

Definition grid_root (max_level : Z) : WebMercatorCell :=
  full_tree (Z.to_nat max_level) webmercator_root.

Lemma grid_root_inv (max_level : Z) : quadtree_inv (grid_root max_level).
Proof.
  pose proof (generate_webmercator_grid_full max_level) as H.
  unfold generate_webmercator_grid, full_recursive_subdivide in H.
  exact (subdivide_inv _ _ _ _ _ webmercator_root_inv H).
Qed.

Lemma grid_root_complete (max_level : Z) (p : WebMercatorCell) :
  0 <= max_level ->
  In p (flatten (grid_root max_level)) ->
  level p <= max_level
  /\ (level p < max_level -> forall key, exists c, getattr p key = Some c).
Proof.
  intros Hmax Hp.
  destruct (full_tree_complete _ _ p webmercator_root_childless Hp)
    as [H1 H2].
  rewrite webmercator_root_level, Z2Nat.id in H1, H2 by assumption.
  split; [lia|]. intros Hlt. apply H2. lia.
Qed.

Lemma grid_root_level (max_level : Z) (p : WebMercatorCell) :
  In p (flatten (grid_root max_level)) -> 0 <= level p.
Proof.
  intros Hp.
  destruct (flatten_range _ p (grid_root_inv max_level) Hp) as [H _].
  unfold grid_root in H. rewrite full_tree_level, webmercator_root_level in H.
  assumption.
Qed.

Section SweepFacts.

Variable root : WebMercatorCell.
Hypothesis root_inv : quadtree_inv root.
Variables min_level max_level : Z.

Definition cells_from_min : list WebMercatorCell :=
  filter (fun v => level v >=? min_level) (flatten root).

Definition cells_of (lvl : Z) : list WebMercatorCell :=
  filter (fun v => level v =? lvl) cells_from_min.

Lemma cells_from_min_In (x : WebMercatorCell) :
  In x cells_from_min <-> In x (flatten root) /\ min_level <= level x.
Proof.
  unfold cells_from_min. rewrite filter_In, Z.geb_leb, Z.leb_le. tauto.
Qed.

Lemma cells_of_In (lvl : Z) (x : WebMercatorCell) :
  In x (cells_of lvl) <-> In x cells_from_min /\ level x = lvl.
Proof. unfold cells_of. rewrite filter_In, Z.eqb_eq. tauto. Qed.

Lemma cells_of_separate (lvl : Z) (p c : WebMercatorCell) (key : CellKey) :
  In p (cells_of lvl) -> getattr p key = Some c -> ~ In c (cells_of lvl).
Proof.
  rewrite !cells_of_In, !cells_from_min_In.
  intros [[Hp _] Hl] Hk [_ Hl'].
  pose proof (quadtree_inv_flatten root p root_inv Hp) as Hpinv.
  destruct (child_address_inv p c key Hpinv Hk) as (H & _). lia.
Qed.

(** After the rounds for the [k] levels below [max_level]: nothing was
    removed, only cells of the grid were added, and on each of these
    levels a cell whose four children are in the set is in the set. *)
Lemma sweep_rounds (k : nat) :
  forall empties,
    let swept :=
      fold_left (fun e lvl => sweep_level (cells_of lvl) e)
        (range_down (max_level - 1) (max_level - 1 - Z.of_nat k)) empties in
    (forall x, In x empties -> In x swept)
    /\ (forall x, In x swept -> In x empties \/ In x cells_from_min)
    /\ (forall p,
          In p cells_from_min ->
          max_level - Z.of_nat k <= level p <= max_level - 1 ->
          children_in p swept -> In p swept).
Proof.
  induction k as [|k IH]; intros empties.
  - rewrite Z.sub_0_r, range_down_nil by lia. cbn.
    repeat split; try tauto. lia.
  - replace (max_level - 1 - Z.of_nat (S k))
      with (max_level - 1 - Z.of_nat k - 1) by lia.
    rewrite range_down_snoc by lia.
    cbv zeta. rewrite fold_left_app. cbn [fold_left].
    destruct (IH empties) as (Hmono & Hsub & Hclosed).
    set (before :=
           fold_left (fun e lvl => sweep_level (cells_of lvl) e)
             (range_down (max_level - 1) (max_level - 1 - Z.of_nat k))
             empties) in *.
    set (lvl := max_level - 1 - Z.of_nat k).
    pose proof (sweep_level_In (cells_of lvl) before
                  (fun p key c => cells_of_separate lvl p c key)) as Hin.
    split; [|split].
    + intros x Hx. apply Hin. left. auto.
    + intros x Hx. apply Hin in Hx. destruct Hx as [Hx|[Hx _]]; [auto|].
      right. apply cells_of_In in Hx. tauto.
    + intros p Hp Hlev Hch.
      assert (Hch' : children_in p before).
      { intros key. destruct (Hch key) as (c & Hk & Hc).
        exists c. split; [assumption|].
        apply Hin in Hc. destruct Hc as [Hc|[Hc _]]; [assumption|].
        exfalso. apply cells_of_In in Hc. destruct Hc as [_ Hc].
        apply cells_from_min_In in Hp. destruct Hp as [Hp _].
        pose proof (quadtree_inv_flatten root p root_inv Hp) as Hpinv.
        destruct (child_address_inv p c key Hpinv Hk) as (H & _).
        unfold lvl in Hc. lia. }
      apply Hin.
      destruct (Z.eq_dec (level p) lvl) as [Heq|Hne].
      * right. split; [|assumption]. apply cells_of_In. tauto.
      * left. apply Hclosed; [assumption | unfold lvl in Hne; lia
                              | assumption].
Qed.

Lemma sweep_up_closed (empties : list WebMercatorCell) :
  let swept := sweep_up cells_from_min min_level max_level empties in
  (forall x, In x empties -> In x swept)
  /\ (forall x, In x swept -> In x empties \/ In x cells_from_min)
  /\ (forall p,
        In p cells_from_min ->
        min_level <= level p <= max_level - 1 ->
        children_in p swept -> In p swept).
Proof.
  unfold sweep_up. fold cells_of.
  destruct (Z.le_gt_cases min_level max_level) as [Hle|Hgt].
  - pose proof (sweep_rounds (Z.to_nat (max_level - min_level)) empties)
      as H.
    replace (max_level - 1 - Z.of_nat (Z.to_nat (max_level - min_level)))
      with (min_level - 1) in H by lia.
    replace (max_level - Z.of_nat (Z.to_nat (max_level - min_level)))
      with min_level in H by lia.
    exact H.
  - rewrite range_down_nil by lia. cbn.
    repeat split; try tauto. lia.
Qed.

End SweepFacts.

(** ** The list that is returned *)

Section EmptinessResult.

Variable intersect : Feature -> Feature -> option Feature.

(** The partition cells, and the set after the classification of the
    cells of the highest level. *)
Definition partition_cells (min_level max_level : Z)
  : list WebMercatorCell :=
  filter (fun v => level v =? Z.max min_level (max_level - 7))
         (cells_from_min (grid_root max_level) min_level).

Definition classified (polygons : list Feature) (min_level max_level : Z)
  : list WebMercatorCell :=
  classify_partitions intersect polygons max_level
    (partition_cells min_level max_level) [].

Lemma generate_list_returns (doc : GeoJSON) (min_level max_level : Z)
  (empties : list WebMercatorCell) :
  generate_list_of_empty_tiles intersect doc min_level max_level
  = Returns empties ->
  exists features polygons,
    doc = FeatureCollection features
    /\ filter_polygons features = Returns polygons
    /\ empties =
       sweep_up (cells_from_min (grid_root max_level) min_level)
         min_level max_level (classified polygons min_level max_level).
Proof.
  unfold generate_list_of_empty_tiles.
  destruct doc as [features| |]; cbn [get_features bind];
    [|discriminate|discriminate].
  destruct (filter_polygons features) as [polygons|] eqn:E; cbn [bind];
    [|discriminate].
  rewrite generate_webmercator_grid_full.
  intros [= <-]. exists features, polygons. auto.
Qed.

Lemma classified_In (polygons : list Feature) (min_level max_level : Z)
  (x : WebMercatorCell) :
  In x (classified polygons min_level max_level) <->
  exists q,
    In q (partition_cells min_level max_level)
    /\ In x (flatten q) /\ level x = max_level
    /\ fst (does_intersect intersect
              (clip_polygons intersect polygons (cell_polygon q)) x)
       = false.
Proof.
  unfold classified. rewrite classify_partitions_In. cbn [In]. tauto.
Qed.

Lemma partition_cells_In (min_level max_level : Z) (q : WebMercatorCell) :
  In q (partition_cells min_level max_level) <->
  In q (flatten (grid_root max_level)) /\ min_level <= level q
  /\ level q = Z.max min_level (max_level - 7).
Proof.
  unfold partition_cells.
  rewrite filter_In, Z.eqb_eq, cells_from_min_In. tauto.
Qed.

(** The members of the list are cells of the grid. *)
Lemma empties_in_grid (polygons : list Feature) (min_level max_level : Z)
  (x : WebMercatorCell) :
  In x (sweep_up (cells_from_min (grid_root max_level) min_level)
          min_level max_level (classified polygons min_level max_level)) ->
  In x (flatten (grid_root max_level)).
Proof.
  intros Hx.
  destruct (sweep_up_closed (grid_root max_level) (grid_root_inv max_level)
              min_level max_level
              (classified polygons min_level max_level))
    as (_ & Hsub & _).
  destruct (Hsub x Hx) as [H|H].
  - apply classified_In in H. destruct H as (q & Hq & Hxq & _).
    apply partition_cells_In in Hq. destruct Hq as (Hq & _).
    exact (flatten_trans _ q x Hq Hxq).
  - apply cells_from_min_In in H. tauto.
Qed.

(** C1. Upward closure of the list of empty tiles: for every list that
    [generate_list_of_empty_tiles] returns for the levels
    [min_level .. max_level] and every address [(l, a, b)] with
    [min_level <= l <= max_level - 1], if each of the four child
    addresses [(l + 1, 2a + {0,1}, 2b + {0,1})] is the address of a
    member of the list, then [(l, a, b)] is the address of a member. *)
Theorem empties_upward_closed (doc : GeoJSON) (min_level max_level : Z)
  (empties : list WebMercatorCell) (l a b : Z) :
  generate_list_of_empty_tiles intersect doc min_level max_level
  = Returns empties ->
  min_level <= l <= max_level - 1 ->
  (forall dx dy, In dx [0; 1] -> In dy [0; 1] ->
     exists m, In m empties /\ level m = l + 1
               /\ i m = 2 * a + dx /\ j m = 2 * b + dy) ->
  exists p, In p empties /\ level p = l /\ i p = a /\ j p = b.
Proof.
  intros Hgen Hl Hchildren.
  destruct (generate_list_returns _ _ _ _ Hgen)
    as (features & polygons & _ & _ & ->).
  set (root := grid_root max_level) in *.
  pose proof (grid_root_inv max_level) as Hinv. fold root in Hinv.
  set (E := sweep_up (cells_from_min root min_level) min_level max_level
              (classified polygons min_level max_level)) in *.
  assert (Hgrid : forall x, In x E -> In x (flatten root))
    by (intros x; apply empties_in_grid).
  destruct (sweep_up_closed root Hinv min_level max_level
              (classified polygons min_level max_level))
    as (_ & _ & Hclosed). fold E in Hclosed.
  (* the four members *)
  destruct (Hchildren 0 0) as (m00 & Hm00 & Hl00 & Hi00 & Hj00);
    [cbn; tauto | cbn; tauto |].
  destruct (Hchildren 1 0) as (m10 & Hm10 & Hl10 & Hi10 & Hj10);
    [cbn; tauto | cbn; tauto |].
  (* the first one is not the root, so it has a parent *)
  destruct (flatten_parent root m00 (Hgrid _ Hm00))
    as [Hroot|(p & key & Hp & Hkey)].
  { exfalso.
    pose proof (flatten_range root m10 Hinv (Hgrid _ Hm10)) as (_ & Hr & _).
    pose proof (flatten_range root m00 Hinv (Hgrid _ Hm00)) as (_ & Hr0 & _).
    assert (Hlr : level root = 0)
      by (unfold root, grid_root; rewrite full_tree_level;
          apply webmercator_root_level).
    assert (Hir : i root = 0)
      by (unfold root, grid_root;
          destruct (Z.to_nat max_level); rewrite webmercator_root_eq;
          reflexivity).
    rewrite Hlr, Hir, Hl10, Hi10 in Hr. rewrite Hlr, Hir, Hl00, Hi00 in Hr0.
    rewrite Hroot, Hlr in Hl00.
    replace (l + 1 - 0) with 0 in Hr, Hr0 by lia.
    cbn in Hr, Hr0. lia. }
  pose proof (quadtree_inv_flatten root p Hinv Hp) as Hpinv.
  destruct (child_address_inv p m00 key Hpinv Hkey) as (Hpl & Hpi & Hpj).
  assert (Hkx : 0 <= key_dx key <= 1) by (destruct key; cbn; lia).
  assert (Hky : 0 <= key_dy key <= 1) by (destruct key; cbn; lia).
  assert (Hlp : level p = l) by lia.
  assert (Hip : i p = a) by lia.
  assert (Hjp : j p = b) by lia.
  exists p. split; [|tauto].
  apply Hclosed.
  - apply cells_from_min_In. split; [assumption | lia].
  - lia.
  - intros key'.
    assert (Hmax : 0 <= max_level).
    { pose proof (grid_root_level max_level p Hp). lia. }
    destruct (grid_root_complete max_level p Hmax Hp) as [_ Hfull].
    destruct (Hfull ltac:(lia) key') as (c & Hc).
    exists c. split; [assumption|].
    destruct (child_address_inv p c key' Hpinv Hc) as (Hcl & Hci & Hcj).
    destruct (Hchildren (key_dx key') (key_dy key'))
      as (m & Hm & Hml & Hmi & Hmj);
      [destruct key'; cbn; tauto | destruct key'; cbn; tauto |].
    assert (c = m) as ->; [|assumption].
    apply (flatten_address_unique root c m Hinv).
    + exact (flatten_child root p c key' Hp Hc).
    + exact (Hgrid _ Hm).
    + lia.
    + lia.
    + lia.
Qed.

End EmptinessResult.

(** ** Cells of the highest level that are classified empty *)

Section LeafClassification.

Variable intersect : Feature -> Feature -> option Feature.

(** A cell of the highest level for which the test finds no intersection,
    whatever partition cell it is reached from, is in the list. *)
Lemma leaf_classified (polygons : list Feature) (min_level max_level : Z)
  (cell : WebMercatorCell) :
  0 <= min_level <= max_level ->
  In cell (flatten (grid_root max_level)) ->
  level cell = max_level ->
  (forall q,
      fst (does_intersect intersect
             (clip_polygons intersect polygons (cell_polygon q)) cell)
      = false) ->
  In cell (sweep_up (cells_from_min (grid_root max_level) min_level)
             min_level max_level
             (classified intersect polygons min_level max_level)).
Proof.
  intros Hlev Hcell Hl Hno.
  pose proof (grid_root_inv max_level) as Hinv.
  destruct (sweep_up_closed (grid_root max_level) Hinv min_level max_level
              (classified intersect polygons min_level max_level))
    as (Hmono & _ & _).
  apply Hmono. apply classified_In.
  assert (Hroot : level (grid_root max_level) = 0)
    by (unfold grid_root; rewrite full_tree_level;
        apply webmercator_root_level).
  destruct (flatten_ancestor (grid_root max_level) cell
              (Z.max min_level (max_level - 7)) Hinv Hcell)
    as (q & Hq & Hlq & Hcq); [lia|].
  exists q. split; [|auto].
  apply partition_cells_In. split; [assumption|]. lia.
Qed.

Lemma does_intersect_polar (polygons_clipped : list Feature)
  (cell : WebMercatorCell) :
  (fst (invert_mercator (x0 cell) (y0 cell)) < -60
   \/ 60 < fst (invert_mercator (x1 cell) (y1 cell)))%R ->
  does_intersect intersect polygons_clipped cell = (false, []).
Proof.
  intros Hpolar. unfold does_intersect.
  destruct (Rlt_dec (fst (invert_mercator (x0 cell) (y0 cell))) (-60));
    [reflexivity|].
  destruct (Rgt_dec (fst (invert_mercator (x1 cell) (y1 cell))) 60);
    [reflexivity|].
  exfalso. unfold Rgt in *. tauto.
Qed.

(** C6. Polar short-circuit: in a construction for levels
    [0 <= min_level <= max_level], every cell of the grid at the highest
    level whose latitude band lies entirely below -60 degrees (its upper
    edge [lat0] is below) or entirely above +60 degrees (its lower edge
    [lat1] is above) is in the list that is returned, and its
    classification calls [intersect] not once, whatever the polygons. *)
Theorem polar_cells_empty_without_test (doc : GeoJSON)
  (min_level max_level : Z) (empties : list WebMercatorCell)
  (root cell : WebMercatorCell) :
  generate_list_of_empty_tiles intersect doc min_level max_level
  = Returns empties ->
  0 <= min_level <= max_level ->
  generate_webmercator_grid max_level = Some root ->
  In cell (flatten root) ->
  level cell = max_level ->
  (fst (invert_mercator (x0 cell) (y0 cell)) < -60
   \/ 60 < fst (invert_mercator (x1 cell) (y1 cell)))%R ->
  In cell empties
  /\ forall polygons_clipped,
      does_intersect intersect polygons_clipped cell = (false, []).
Proof.
  intros Hgen Hlev Hroot Hcell Hl Hpolar.
  rewrite generate_webmercator_grid_full in Hroot. injection Hroot as <-.
  destruct (generate_list_returns _ _ _ _ _ Hgen)
    as (features & polygons & _ & _ & ->).
  split.
  - apply leaf_classified; try assumption.
    intros q. rewrite does_intersect_polar by assumption. reflexivity.
  - intros polygons_clipped. apply does_intersect_polar. assumption.
Qed.

(** ** Features that are not polygons *)

(** The test of the filter: ['Polygon' in feature['geometry']['type']]. *)
Definition is_polygon_feature (feature : Feature) : bool :=
  match geometry feature with
  | Some g => str_contains "Polygon"%string (geometry_type g)
  | None => false
  end.

Lemma filter_polygons_returns (features : list Feature) :
  Forall (fun f => geometry f <> None) features ->
  filter_polygons features = Returns (filter is_polygon_feature features).
Proof.
  induction 1 as [|f rest Hf _ IH]; [reflexivity|].
  cbn [filter_polygons filter]. unfold is_polygon_feature.
  destruct (geometry f) as [g|]; [|congruence].
  rewrite IH. cbn [bind].
  destruct (str_contains "Polygon" (geometry_type g)); reflexivity.
Qed.

Lemma filter_polygons_raises (features : list Feature) :
  Exists (fun f => geometry f = None) features ->
  filter_polygons features = Raises TypeError.
Proof.
  induction features as [|f rest IH]; intros H.
  - inversion H.
  - cbn [filter_polygons]. destruct (geometry f) as [g|] eqn:E;
      [|reflexivity].
    inversion H as [? ? Hf|? ? Hrest]; subst; [congruence|].
    rewrite (IH Hrest). reflexivity.
Qed.

Lemma filter_polygons_kept (features : list Feature) :
  Forall (fun f => geometry f <> None)
         (filter is_polygon_feature features).
Proof.
  apply Forall_forall. intros f Hf. apply filter_In in Hf.
  destruct Hf as [_ Hf]. unfold is_polygon_feature in Hf.
  destruct (geometry f); [discriminate | discriminate].
Qed.

Lemma filter_is_polygon_idem (features : list Feature) :
  filter is_polygon_feature (filter is_polygon_feature features)
  = filter is_polygon_feature features.
Proof.
  induction features as [|f rest IH]; [reflexivity|].
  cbn [filter]. destruct (is_polygon_feature f) eqn:E; [|assumption].
  cbn [filter]. rewrite E, IH. reflexivity.
Qed.

Lemma generate_list_of_collection (features : list Feature)
  (min_level max_level : Z) :
  Forall (fun f => geometry f <> None) features ->
  generate_list_of_empty_tiles intersect (FeatureCollection features)
    min_level max_level
  = Returns
      (sweep_up (cells_from_min (grid_root max_level) min_level)
         min_level max_level
         (classified intersect (filter is_polygon_feature features)
            min_level max_level)).
Proof.
  intros Hgeo. unfold generate_list_of_empty_tiles.
  cbn [get_features bind]. rewrite filter_polygons_returns by assumption.
  cbn [bind]. rewrite generate_webmercator_grid_full. reflexivity.
Qed.

(** C7, as amended.  A feature whose geometry is not a polygon does not
    stop the construction.  The filter at the head of the function keeps
    the features whose geometry type contains ['Polygon'] and nothing
    after it reads the others: on a collection in which every feature
    has a geometry, the construction does what it does on the collection
    without the features that are not polygons, with the same outcome. *)
Theorem generate_list_drops_other_geometries (min_level max_level : Z)
  (features : list Feature) :
  Forall (fun f => geometry f <> None) features ->
  filter_polygons features = Returns (filter is_polygon_feature features)
  /\ generate_list_of_empty_tiles intersect (FeatureCollection features)
       min_level max_level
     = generate_list_of_empty_tiles intersect
         (FeatureCollection (filter is_polygon_feature features))
         min_level max_level.
Proof.
  intros Hgeo. split; [apply filter_polygons_returns; assumption|].
  unfold generate_list_of_empty_tiles. cbn [get_features bind].
  rewrite (filter_polygons_returns features Hgeo).
  rewrite (filter_polygons_returns _ (filter_polygons_kept features)).
  rewrite filter_is_polygon_idem. reflexivity.
Qed.

End LeafClassification.

(** ** Concrete runs *)

(** An [intersect] that never finds an intersection. *)
Definition no_intersection (a b : Feature) : option Feature := None.

Definition point_feature : Feature :=
  mkFeature (Some (mkGeometry "Point"%string (Position 9 48))).

Definition square_feature : Feature :=
  mkFeature (Some (mkGeometry "Polygon"%string
    (Nested [Nested [Position 0 0; Position 1 0; Position 1 1;
                     Position 0 1; Position 0 0]]))).

Lemma generate_list_drops_other_geometries_witness :
  Forall (fun f => geometry f <> None) [point_feature; square_feature]
  /\ filter_polygons [point_feature; square_feature]
     = Returns [square_feature]
  /\ generate_list_of_empty_tiles no_intersection
       (FeatureCollection [point_feature; square_feature]) 0 1
     = generate_list_of_empty_tiles no_intersection
         (FeatureCollection [square_feature]) 0 1.
Proof.
  assert (H : Forall (fun f => geometry f <> None)
                     [point_feature; square_feature]).
  { repeat constructor; discriminate. }
  split; [exact H|].
  exact (generate_list_drops_other_geometries no_intersection 0 1
           [point_feature; square_feature] H).
Defined.

(** C7, as stated, fails: a collection that holds a feature with a
    [Point] geometry, which is neither a [Polygon] nor a [MultiPolygon],
    does not make the construction raise; the list for the collection
    without the feature is returned. *)
Lemma generate_list_accepts_point_counterexample :
  (exists f g,
      In f [point_feature] /\ geometry f = Some g
      /\ geometry_type g <> "Polygon"%string
      /\ geometry_type g <> "MultiPolygon"%string)
  /\ exists empties,
      generate_list_of_empty_tiles no_intersection
        (FeatureCollection [point_feature]) 0 1 = Returns empties
      /\ generate_list_of_empty_tiles no_intersection
           (FeatureCollection []) 0 1 = Returns empties.
Proof.
  split.
  - exists point_feature, (mkGeometry "Point"%string (Position 9 48)).
    repeat split; [left; reflexivity | discriminate | discriminate].
  - eexists. split.
    + apply generate_list_of_collection. repeat constructor. discriminate.
    + exact (generate_list_of_collection no_intersection [] 0 1
               (Forall_nil _)).
Qed.

Lemma does_intersect_no_polygons (intersect : Feature -> Feature -> option Feature)
  (cell : WebMercatorCell) :
  fst (does_intersect intersect [] cell) = false.
Proof.
  unfold does_intersect.
  destruct (Rlt_dec _ _); [reflexivity|].
  destruct (Rgt_dec _ _); reflexivity.
Qed.

Lemma grid_root_address (max_level : Z) :
  level (grid_root max_level) = 0 /\ i (grid_root max_level) = 0
  /\ j (grid_root max_level) = 0.
Proof.
  unfold grid_root. destruct (Z.to_nat max_level);
    rewrite webmercator_root_eq; repeat split.
Qed.

Lemma empties_upward_closed_witness :
  exists empties,
    generate_list_of_empty_tiles no_intersection (FeatureCollection []) 0 1
    = Returns empties
    /\ 0 <= 0 <= 1 - 1
    /\ (forall dx dy, In dx [0; 1] -> In dy [0; 1] ->
          exists m, In m empties /\ level m = 0 + 1
                    /\ i m = 2 * 0 + dx /\ j m = 2 * 0 + dy)
    /\ exists p, In p empties /\ level p = 0 /\ i p = 0 /\ j p = 0.
Proof.
  eexists.
  assert (Hgen : generate_list_of_empty_tiles no_intersection
                   (FeatureCollection []) 0 1 = Returns _)
    by (apply generate_list_of_collection; constructor).
  assert (Hl : 0 <= 0 <= 1 - 1) by lia.
  assert (Hch : forall dx dy, In dx [0; 1] -> In dy [0; 1] ->
    exists m,
      In m (sweep_up (cells_from_min (grid_root 1) 0) 0 1
              (classified no_intersection
                 (filter is_polygon_feature []) 0 1))
      /\ level m = 0 + 1 /\ i m = 2 * 0 + dx /\ j m = 2 * 0 + dy).
  { intros dx dy Hdx Hdy.
    assert (Hkey : exists key, key_dx key = dx /\ key_dy key = dy).
    { destruct Hdx as [<-|[<-|[]]]; destruct Hdy as [<-|[<-|[]]];
        [exists Cell_0 | exists Cell_2 | exists Cell_1 | exists Cell_3];
        split; reflexivity. }
    destruct Hkey as (key & <- & <-).
    pose proof (grid_root_inv 1) as Hinv.
    destruct (grid_root_address 1) as (Hrl & Hri & Hrj).
    destruct (grid_root_complete 1 (grid_root 1) ltac:(lia)
                (flatten_self _)) as [_ Hfull].
    destruct (Hfull ltac:(lia) key) as (c & Hc).
    destruct (child_address_inv _ c key Hinv Hc) as (Hcl & Hci & Hcj).
    exists c. split; [|lia].
    apply leaf_classified; [lia | | lia |].
    - exact (flatten_child _ _ c key (flatten_self _) Hc).
    - intros q. cbn [filter clip_polygons flat_map].
      apply does_intersect_no_polygons. }
  split; [exact Hgen|]. split; [exact Hl|]. split; [exact Hch|].
  exact (empties_upward_closed no_intersection (FeatureCollection []) 0 1
           _ 0 0 0 Hgen Hl Hch).
Defined.

(** ** A cell south of -60 degrees *)

Section PolarBound.

Local Open Scope R_scope.

Lemma tan_PI12_lower : 1 / 4 <= tan (PI / 12).
Proof.
  pose proof PI_RGT_0 as HPI.
  assert (Hc : 0 < cos (PI / 12)) by (apply cos_gt_0; lra).
  pose proof (COS_bound (PI / 12)) as [_ Hc1].
  assert (Hs : 2 * sin (PI / 12) * cos (PI / 12) = 1 / 2).
  { rewrite <- sin_2a. replace (2 * (PI / 12)) with (PI / 6) by lra.
    apply sin_PI6. }
  unfold tan.
  apply (Rmult_le_reg_r (cos (PI / 12))); [assumption|].
  replace (sin (PI / 12) / cos (PI / 12) * cos (PI / 12))
    with (sin (PI / 12)) by (field; lra).
  assert (Hpos : 0 < sin (PI / 12)) by nra.
  nra.
Qed.

Lemma exp_9_4 : 4 < exp (9 / 4).
Proof.
  replace (9 / 4) with (9 / 8 + 9 / 8) by lra.
  rewrite exp_plus. pose proof (exp_ineq1_le (9 / 8)). nra.
Qed.

(** A point of the plane far enough south has a latitude below -60. *)
Lemma south_polar_latitude (x y : R) :
  y / R_sphere <= - (9 / 4) ->
  fst (invert_mercator x y) < -60.
Proof.
  intros Hy. unfold invert_mercator. cbn [fst].
  pose proof PI_RGT_0 as HPI.
  assert (Hexp : exp (y / R_sphere) < 1 / 4).
  { apply Rle_lt_trans with (exp (- (9 / 4))).
    - destruct Hy as [Hy|Hy]; [left; apply exp_increasing; assumption
                               | right; f_equal; assumption].
    - rewrite exp_Ropp. pose proof exp_9_4 as H4.
      unfold Rdiv. rewrite Rmult_1_l.
      apply Rinv_lt_contravar; nra. }
  assert (Hatan : atan (exp (y / R_sphere)) < PI / 12).
  { rewrite <- (atan_tan (PI / 12)) by (split; lra).
    apply atan_increasing. pose proof tan_PI12_lower. lra. }
  replace (-60) with (360 * (PI / 12 - PI / 4) / PI)
    by (field; apply PI_neq_0).
  unfold Rdiv at 1 3.
  apply Rmult_lt_compat_r; [apply Rinv_0_lt_compat; assumption | lra].
Qed.

End PolarBound.

(** The cell [(3, 0, 7)] of the grid: the south-west corner. *)
Definition south_west_leaf : WebMercatorCell :=
  let s1 := fresh_child webmercator_root (row_2 webmercator_root) in
  let s2 := fresh_child s1 (row_2 s1) in
  fresh_child s2 (row_2 s2).

Lemma south_west_leaf_in_grid :
  In south_west_leaf (flatten (grid_root 3)).
Proof.
  unfold grid_root.
  set (s1 := fresh_child webmercator_root (row_2 webmercator_root)).
  set (s2 := fresh_child s1 (row_2 s1)).
  apply (flatten_child _ (full_tree 1 s2) south_west_leaf Cell_2);
    [|reflexivity].
  apply (flatten_child _ (full_tree 2 s1) (full_tree 1 s2) Cell_2);
    [|reflexivity].
  apply (flatten_child _ (full_tree 3 webmercator_root) (full_tree 2 s1)
           Cell_2); [|reflexivity].
  apply flatten_self.
Qed.

Lemma south_west_leaf_fields :
  level south_west_leaf = 3 /\ i south_west_leaf = 0
  /\ j south_west_leaf = 7
  /\ (y0 south_west_leaf / R_sphere = - (3 / 4) * PI)%R.
Proof.
  unfold south_west_leaf. rewrite webmercator_root_eq.
  cbn [fresh_child row_2 level i j x0 x1 y0 y1].
  repeat split. field. apply R_sphere_neq_0.
Qed.

Lemma polar_cells_empty_without_test_witness :
  exists empties,
    generate_list_of_empty_tiles no_intersection
      (FeatureCollection [square_feature]) 0 3 = Returns empties
    /\ 0 <= 0 <= 3
    /\ generate_webmercator_grid 3 = Some (grid_root 3)
    /\ In south_west_leaf (flatten (grid_root 3))
    /\ level south_west_leaf = 3
    /\ (fst (invert_mercator (x0 south_west_leaf) (y0 south_west_leaf))
        < -60
        \/ 60 < fst (invert_mercator (x1 south_west_leaf)
                       (y1 south_west_leaf)))%R
    /\ In south_west_leaf empties
    /\ forall polygons_clipped,
        does_intersect no_intersection polygons_clipped south_west_leaf
        = (false, []).
Proof.
  eexists.
  assert (Hgen : generate_list_of_empty_tiles no_intersection
                   (FeatureCollection [square_feature]) 0 3 = Returns _)
    by (apply generate_list_of_collection; repeat constructor;
        discriminate).
  assert (Hlev : 0 <= 0 <= 3) by lia.
  pose proof (generate_webmercator_grid_full 3) as Hgrid.
  pose proof south_west_leaf_in_grid as Hin.
  destruct south_west_leaf_fields as (Hl & _ & _ & Hy).
  assert (Hpolar :
    (fst (invert_mercator (x0 south_west_leaf) (y0 south_west_leaf)) < -60
     \/ 60 < fst (invert_mercator (x1 south_west_leaf)
                    (y1 south_west_leaf)))%R).
  { left. apply south_polar_latitude. rewrite Hy.
    pose proof PI2_3_2. lra. }
  split; [exact Hgen|]. split; [exact Hlev|]. split; [exact Hgrid|].
  split; [exact Hin|]. split; [exact Hl|]. split; [exact Hpolar|].
  exact (polar_cells_empty_without_test no_intersection
           (FeatureCollection [square_feature]) 0 3 _ (grid_root 3)
           south_west_leaf Hgen Hlev Hgrid Hin Hl Hpolar).
Defined.

(* ================================================================== *)
(** * Properties of the pyramid merge *)
(* ================================================================== *)

(** ** Segments of lists *)

Section ListSegments.

Context {A : Type}.

(** The elements [a .. b - 1] of a list, and the list with these elements
    replaced. *)
Definition seg (a b : nat) (l : list A) : list A :=
  firstn (b - a) (skipn a l).

Definition splice (a b : nat) (s l : list A) : list A :=
  firstn a l ++ s ++ skipn (a + (b - a)) l.

Lemma seg_length (a b : nat) (l : list A) :
  (a <= b <= length l)%nat -> length (seg a b l) = (b - a)%nat.
Proof.
  intros H. unfold seg. rewrite length_firstn, length_skipn. lia.
Qed.

Lemma splice_length (a b : nat) (s l : list A) :
  (a <= b <= length l)%nat -> length s = (b - a)%nat ->
  length (splice a b s l) = length l.
Proof.
  intros H Hs. unfold splice.
  rewrite !length_app, length_firstn, length_skipn. lia.
Qed.

Lemma seg_splice_same (a b : nat) (s l : list A) :
  (a <= b <= length l)%nat -> length s = (b - a)%nat ->
  seg a b (splice a b s l) = s.
Proof.
  intros H Hs. unfold seg, splice.
  assert (Hf : length (firstn a l) = a)
    by (rewrite length_firstn; lia).
  rewrite skipn_app, Hf, Nat.sub_diag, skipn_all2 by lia.
  cbn [skipn app]. rewrite firstn_app, <- Hs, Nat.sub_diag, firstn_all.
  cbn [firstn]. apply app_nil_r.
Qed.

Lemma seg_splice_other (a b a' b' : nat) (s l : list A) :
  (a <= b <= length l)%nat -> length s = (b - a)%nat ->
  (a' <= b')%nat -> (b' <= a \/ b <= a')%nat ->
  seg a' b' (splice a b s l) = seg a' b' l.
Proof.
  intros H Hs Hab [Hd|Hd]; unfold seg, splice.
  - assert (Hf : length (firstn a l) = a)
      by (rewrite length_firstn; lia).
    rewrite skipn_app, firstn_app, Hf.
    rewrite length_skipn, Hf.
    replace (b' - a' - (a - a'))%nat with O by lia.
    cbn [firstn]. rewrite app_nil_r.
    rewrite skipn_firstn_comm, firstn_firstn.
    f_equal. lia.
  - assert (Hf : length (firstn a l) = a)
      by (rewrite length_firstn; lia).
    rewrite skipn_app, Hf, (skipn_all2 (firstn a l)) by lia.
    cbn [app]. rewrite skipn_app, (skipn_all2 s) by lia.
    cbn [app]. rewrite skipn_skipn. do 2 f_equal. lia.
Qed.

Lemma splice_seg (a b : nat) (l : list A) :
  (a <= b)%nat -> splice a b (seg a b l) l = l.
Proof.
  intros H. unfold splice, seg.
  rewrite <- (firstn_skipn a l) at 4. f_equal.
  rewrite <- (firstn_skipn (b - a) (skipn a l)) at 2.
  rewrite skipn_skipn. do 2 f_equal. lia.
Qed.

Lemma In_firstn (n : nat) (l : list A) (x : A) :
  In x (firstn n l) -> In x l.
Proof.
  revert l. induction n as [|n IH]; intros [|y l]; cbn; try tauto.
  intros [H|H]; [tauto | right; apply IH, H].
Qed.

Lemma In_skipn (n : nat) (l : list A) (x : A) :
  In x (skipn n l) -> In x l.
Proof.
  revert l. induction n as [|n IH]; intros [|y l]; cbn; try tauto.
  intros H. right. apply IH, H.
Qed.

Lemma Forall_seg (P : A -> Prop) (a b : nat) (l : list A) :
  Forall P l -> Forall P (seg a b l).
Proof.
  intros H. apply Forall_forall. intros x Hx.
  rewrite Forall_forall in H. apply H.
  unfold seg in Hx. apply In_firstn, In_skipn in Hx. assumption.
Qed.

Lemma Forall_splice (P : A -> Prop) (a b : nat) (s l : list A) :
  Forall P l -> Forall P s -> Forall P (splice a b s l).
Proof.
  intros Hl Hs. unfold splice. rewrite !Forall_app. repeat split.
  - apply Forall_forall. intros x Hx. rewrite Forall_forall in Hl.
    apply Hl. apply In_firstn in Hx. assumption.
  - assumption.
  - apply Forall_forall. intros x Hx. rewrite Forall_forall in Hl.
    apply Hl. apply In_skipn in Hx. assumption.
Qed.

Lemma py_slice_seg (s : Slice) (l : list A) (a b : nat) :
  slice_range s (length l) = (a, b) -> py_slice s l = seg a b l.
Proof. intros H. unfold py_slice. rewrite H. reflexivity. Qed.

End ListSegments.

Lemma seg_map {A B : Type} (f : A -> B) (a b : nat) (l : list A) :
  seg a b (map f l) = map f (seg a b l).
Proof. unfold seg. rewrite skipn_map, firstn_map. reflexivity. Qed.

(** ** Blocks of arrays *)

Section ArrayBlocks.

Context {A : Type}.

(** The rows [ra .. rb - 1] and columns [ca .. cb - 1] of an array. *)
Definition block (a : ndarray A) (ra rb ca cb : nat) : ndarray A :=
  map (seg ca cb) (seg ra rb a).

(** The rows with the columns [ca .. cb - 1] replaced by the rows of
    [src]. *)
Definition overwrite (ca cb : nat) (rows : list (list A)) (src : ndarray A)
  : list (list A) :=
  map (fun p => splice ca cb (snd p) (fst p)) (combine rows src).

Lemma getitem2_block (h w : nat) (a : ndarray A) (rows cols : Slice)
  (ra rb ca cb : nat) :
  has_shape h w a ->
  slice_range rows h = (ra, rb) -> slice_range cols w = (ca, cb) ->
  getitem2 rows cols a = block a ra rb ca cb.
Proof.
  intros [Hh Hw] Hr Hc. unfold getitem2, block.
  rewrite (py_slice_seg rows a ra rb) by (rewrite Hh; assumption).
  apply map_ext_in. intros row Hrow.
  apply py_slice_seg.
  assert (Hlen : length row = w).
  { pose proof (Forall_seg _ ra rb a Hw) as H.
    rewrite Forall_forall in H. apply H. assumption. }
  rewrite Hlen. assumption.
Qed.

Lemma block_shape (h w : nat) (a : ndarray A) (ra rb ca cb : nat) :
  has_shape h w a ->
  (ra <= rb <= h)%nat -> (ca <= cb <= w)%nat ->
  has_shape (rb - ra) (cb - ca) (block a ra rb ca cb).
Proof.
  intros [Hh Hw] Hr Hc. unfold block. split.
  - rewrite length_map. apply seg_length. lia.
  - apply Forall_map. apply Forall_seg.
    eapply Forall_impl; [|exact Hw].
    cbn. intros row Hrow. apply seg_length. lia.
Qed.

Lemma assign_rows_returns (cols : Slice) (w ca cb : nat) :
  slice_range cols w = (ca, cb) -> (ca <= cb <= w)%nat ->
  forall rows src,
    Forall (fun row => length row = w) rows ->
    length src = length rows ->
    Forall (fun row => length row = (cb - ca)%nat) src ->
    assign_rows cols rows src = Returns (overwrite ca cb rows src).
Proof.
  intros Hc Hcb. induction rows as [|row rows IH]; intros [|srow src];
    cbn [length]; try discriminate; intros Hrows Hlen Hsrc.
  - reflexivity.
  - apply Forall_cons_iff in Hrows. destruct Hrows as [Hrow Hrows'].
    apply Forall_cons_iff in Hsrc. destruct Hsrc as [Hsrow Hsrc'].
    cbn [assign_rows]. unfold assign_row. rewrite Hrow, Hc, Hsrow.
    rewrite Nat.eqb_refl. cbn [bind].
    rewrite (IH src Hrows' ltac:(lia) Hsrc'). reflexivity.
Qed.

Lemma overwrite_length (ca cb : nat) (rows : list (list A))
  (src : ndarray A) :
  length src = length rows -> length (overwrite ca cb rows src) = length rows.
Proof.
  intros H. unfold overwrite. rewrite length_map, length_combine. lia.
Qed.

Lemma overwrite_rows (w ca cb : nat) :
  (ca <= cb <= w)%nat ->
  forall rows src,
    Forall (fun row => length row = w) rows ->
    Forall (fun row => length row = (cb - ca)%nat) src ->
    Forall (fun row => length row = w) (overwrite ca cb rows src).
Proof.
  intros Hcb. induction rows as [|row rows IH]; intros [|srow src] Hr Hs;
    cbn; try constructor.
  - apply Forall_cons_iff in Hr. apply Forall_cons_iff in Hs.
    rewrite splice_length; lia.
  - apply Forall_cons_iff in Hr. apply Forall_cons_iff in Hs.
    apply IH; tauto.
Qed.

Lemma overwrite_same (w ca cb : nat) :
  (ca <= cb <= w)%nat ->
  forall rows src,
    Forall (fun row => length row = w) rows ->
    length src = length rows ->
    Forall (fun row => length row = (cb - ca)%nat) src ->
    map (seg ca cb) (overwrite ca cb rows src) = src.
Proof.
  intros Hcb. induction rows as [|row rows IH]; intros [|srow src];
    cbn [length]; try discriminate; intros Hr Hlen Hs; [reflexivity|].
  apply Forall_cons_iff in Hr. apply Forall_cons_iff in Hs.
  cbn. rewrite seg_splice_same by lia. f_equal.
  apply IH; [tauto | lia | tauto].
Qed.

Lemma overwrite_other (w ca cb ca' cb' : nat) :
  (ca <= cb <= w)%nat -> (ca' <= cb')%nat -> (cb' <= ca \/ cb <= ca')%nat ->
  forall rows src,
    Forall (fun row => length row = w) rows ->
    length src = length rows ->
    Forall (fun row => length row = (cb - ca)%nat) src ->
    map (seg ca' cb') (overwrite ca cb rows src) = map (seg ca' cb') rows.
Proof.
  intros Hcb Hcb' Hd. induction rows as [|row rows IH]; intros [|srow src];
    cbn [length]; try discriminate; intros Hr Hlen Hs; [reflexivity|].
  apply Forall_cons_iff in Hr. apply Forall_cons_iff in Hs.
  cbn. rewrite seg_splice_other by lia. f_equal.
  apply IH; [tauto | lia | tauto].
Qed.

(** An assignment to a block of an array of shape [h x w]: it returns,
    the shape stays, the block reads back as the source, and a block
    beside it, above or below it reads as before. *)
Lemma setitem2_ok (h w : nat) (a : ndarray A) (rows cols : Slice)
  (src : ndarray A) (ra rb ca cb : nat) :
  has_shape h w a ->
  slice_range rows h = (ra, rb) -> slice_range cols w = (ca, cb) ->
  (ra <= rb <= h)%nat -> (ca <= cb <= w)%nat ->
  has_shape (rb - ra) (cb - ca) src ->
  exists a',
    setitem2 rows cols src a = Returns a'
    /\ has_shape h w a'
    /\ block a' ra rb ca cb = src
    /\ forall ra' rb' ca' cb',
        (ra' <= rb')%nat -> (ca' <= cb')%nat ->
        (rb' <= ra \/ rb <= ra' \/ cb' <= ca \/ cb <= ca')%nat ->
        block a' ra' rb' ca' cb' = block a ra' rb' ca' cb'.
Proof.
  intros [Hh Hw] Hr Hc Hrb Hcb [Hsh Hsw].
  assert (Hseg : Forall (fun row => length row = w) (seg ra rb a))
    by (apply Forall_seg; assumption).
  assert (Hseglen : length (seg ra rb a) = (rb - ra)%nat)
    by (apply seg_length; lia).
  exists (splice ra rb (overwrite ca cb (seg ra rb a) src) a).
  assert (Hmid : length (overwrite ca cb (seg ra rb a) src) = (rb - ra)%nat)
    by (rewrite overwrite_length; lia).
  split; [|split; [|split]].
  - unfold setitem2. rewrite Hh, Hr.
    change (firstn (rb - ra) (skipn ra a)) with (seg ra rb a).
    rewrite (assign_rows_returns cols w ca cb Hc Hcb) by (assumption || lia).
    reflexivity.
  - split.
    + rewrite splice_length; lia.
    + apply Forall_splice; [assumption|].
      apply (overwrite_rows w); assumption.
  - unfold block. rewrite seg_splice_same by lia.
    apply (overwrite_same w); (assumption || lia).
  - intros ra' rb' ca' cb' Hr' Hc' Hd. unfold block.
    destruct Hd as [Hd|[Hd|Hd]].
    + rewrite seg_splice_other by lia. reflexivity.
    + rewrite seg_splice_other by lia. reflexivity.
    + rewrite <- !seg_map. f_equal.
      assert (Ha : map (seg ca' cb') a
                   = map (seg ca' cb') (splice ra rb (seg ra rb a) a))
        by (rewrite splice_seg by lia; reflexivity).
      rewrite Ha. unfold splice. rewrite !map_app. do 2 f_equal.
      apply (overwrite_other w); (assumption || lia).
Qed.

End ArrayBlocks.

(** ** The buffer of the merge *)

(** A range [a .. b - 1] inside a sequence of length [n], and two ranges
    without a common index. *)
Definition range_ok (r : nat * nat) (n : nat) : bool :=
  (fst r <=? snd r)%nat && (snd r <=? n)%nat.

Definition ranges_apart (r r' : nat * nat) : bool :=
  (snd r' <=? fst r)%nat || (snd r <=? fst r')%nat.

Lemma range_ok_spec (r : nat * nat) (n : nat) :
  range_ok r n = true -> (fst r <= snd r <= n)%nat.
Proof.
  unfold range_ok. rewrite andb_true_iff, !Nat.leb_le. tauto.
Qed.

(** [setitem2_ok] on a square array, with the side conditions as checks
    on the slices. *)
Lemma setitem2_square {A : Type} (n : nat) (a : ndarray A)
  (rows cols : Slice) (src : ndarray A) :
  has_shape n n a ->
  range_ok (slice_range rows n) n = true ->
  range_ok (slice_range cols n) n = true ->
  has_shape (snd (slice_range rows n) - fst (slice_range rows n))
            (snd (slice_range cols n) - fst (slice_range cols n)) src ->
  exists a',
    setitem2 rows cols src a = Returns a'
    /\ has_shape n n a'
    /\ getitem2 rows cols a' = src
    /\ forall rows' cols',
        range_ok (slice_range rows' n) n = true ->
        range_ok (slice_range cols' n) n = true ->
        ranges_apart (slice_range rows n) (slice_range rows' n)
        || ranges_apart (slice_range cols n) (slice_range cols' n) = true ->
        getitem2 rows' cols' a' = getitem2 rows' cols' a.
Proof.
  intros Ha Hr Hc Hsrc.
  apply range_ok_spec in Hr. apply range_ok_spec in Hc.
  destruct (slice_range rows n) as [ra rb] eqn:Er.
  destruct (slice_range cols n) as [ca cb] eqn:Ec.
  cbn [fst snd] in *.
  destruct (setitem2_ok n n a rows cols src ra rb ca cb Ha Er Ec Hr Hc Hsrc)
    as (a' & E & Ha' & Hread & Hkeep).
  exists a'. split; [assumption|]. split; [assumption|]. split.
  - rewrite (getitem2_block n n a' rows cols ra rb ca cb); assumption.
  - intros rows' cols' Hr' Hc' Hd.
    apply range_ok_spec in Hr'. apply range_ok_spec in Hc'.
    destruct (slice_range rows' n) as [ra' rb'] eqn:Er'.
    destruct (slice_range cols' n) as [ca' cb'] eqn:Ec'.
    cbn [fst snd] in *.
    rewrite (getitem2_block n n a' rows' cols' ra' rb' ca' cb')
      by assumption.
    rewrite (getitem2_block n n a rows' cols' ra' rb' ca' cb')
      by assumption.
    apply Hkeep; [lia | lia |].
    unfold ranges_apart in Hd. cbn [fst snd] in Hd.
    rewrite !orb_true_iff, !Nat.leb_le in Hd. lia.
Qed.

Lemma getitem2_shape {A : Type} (n : nat) (a : ndarray A)
  (rows cols : Slice) :
  has_shape n n a ->
  range_ok (slice_range rows n) n = true ->
  range_ok (slice_range cols n) n = true ->
  has_shape (snd (slice_range rows n) - fst (slice_range rows n))
            (snd (slice_range cols n) - fst (slice_range cols n))
            (getitem2 rows cols a).
Proof.
  intros Ha Hr Hc.
  apply range_ok_spec in Hr. apply range_ok_spec in Hc.
  destruct (slice_range rows n) as [ra rb] eqn:Er.
  destruct (slice_range cols n) as [ca cb] eqn:Ec.
  cbn [fst snd] in *.
  rewrite (getitem2_block n n a rows cols ra rb ca cb) by assumption.
  apply (block_shape n n); assumption.
Qed.

(** The column [_get_heightdata] reads for a requested column. *)
Definition wrap_column (level i : Z) : Z :=
  if i <? 0 then 2 ^ level + i
  else if i >=? 2 ^ level then i - 2 ^ level
  else i.

Lemma get_heightdata_lookup (tile_directory : TileStore) (level i j : Z) :
  _get_heightdata tile_directory level i j =
  match tile_directory level (wrap_column level i) j with
  | None => zeros 128 128
  | Some img => img
  end.
Proof. reflexivity. Qed.

(** The thumbnails of a level are 128 x 128, as the generator writes
    them. *)
Definition thumbnails_ok (tile_directory : TileStore) (level : Z) : Prop :=
  forall i j img,
    tile_directory level i j = Some img -> has_shape 128 128 img.

Lemma get_heightdata_shape (tile_directory : TileStore) (level i j : Z) :
  thumbnails_ok tile_directory level ->
  has_shape 128 128 (_get_heightdata tile_directory level i j).
Proof.
  intros Hok. rewrite get_heightdata_lookup.
  destruct (tile_directory level (wrap_column level i) j) as [img|] eqn:E.
  - exact (Hok _ _ _ E).
  - apply zeros_shape.
Qed.

(** The twelve strips of the border: the offset of the neighbour at
    [level + 1] from [(2i, 2j)], the rows and columns of the buffer the
    strip occupies, and the shape of the strip. *)
Definition border_strips : list (Z * Z * Slice * Slice * nat * nat) :=
  [ (-1, -1, upto 8, upto 8, 8%nat, 8%nat);
    (0, -1, upto 8, between 8 136, 8%nat, 128%nat);
    (1, -1, upto 8, between 136 264, 8%nat, 128%nat);
    (2, -1, upto 8, from 264, 8%nat, 8%nat);
    (-1, 0, between 8 136, upto 8, 128%nat, 8%nat);
    (2, 0, between 8 136, from 264, 128%nat, 8%nat);
    (-1, 1, between 136 264, upto 8, 128%nat, 8%nat);
    (2, 1, between 136 264, from 264, 128%nat, 8%nat);
    (-1, 2, from 264, upto 8, 8%nat, 8%nat);
    (0, 2, from 264, between 8 136, 8%nat, 128%nat);
    (1, 2, from 264, between 136 264, 8%nat, 128%nat);
    (2, 2, from 264, from 264, 8%nat, 8%nat) ].

Ltac assign_step Hshape :=
  match goal with
  | |- context [bind (setitem2 ?rows ?cols ?src ?d) _] =>
    let d' := fresh "data" in
    let E := fresh "E" in
    let S := fresh "S" in
    let Rd := fresh "Rd" in
    let K := fresh "K" in
    destruct (setitem2_square 272 d rows cols src)
      as (d' & E & S & Rd & K);
    [ assumption | reflexivity | reflexivity
    | first [ exact Hshape
            | apply (getitem2_shape 128);
              [exact Hshape | reflexivity | reflexivity] ]
    | rewrite E; cbn [bind]; clear E ]
  end.

Ltac read_strip :=
  repeat match goal with
         | K : forall rows' cols' : Slice, _ -> _ -> _ ->
               getitem2 rows' cols' ?d = _
           |- getitem2 _ _ ?d = _ =>
           rewrite K by reflexivity
         end;
  match goal with
  | Rd : getitem2 _ _ ?d = _ |- getitem2 _ _ ?d = _ =>
    etransitivity; [exact Rd|]
  end.

(** C2, as amended.  In the buffer of the merge for a cell at [level],
    every strip of the border is the all-zero strip when no thumbnail is
    stored at the address the lookup reads for its neighbour at
    [level + 1]: the row of the neighbour as it is, the column wrapped
    around the grid of [level + 1].  The thumbnails that exist are
    128 x 128. *)
Theorem merged_border_zero_for_missing (tile_directory : TileStore)
  (cell : WebMercatorCell) (level : Z) :
  thumbnails_ok tile_directory (level + 1) ->
  exists data,
    merged_heightdata tile_directory cell level = Returns data
    /\ has_shape 272 272 data
    /\ forall di dj rows cols h w,
        In (di, dj, rows, cols, h, w) border_strips ->
        tile_directory (level + 1)
          (wrap_column (level + 1) (2 * i cell + di)) (2 * j cell + dj)
        = None ->
        getitem2 rows cols data = zeros h w.
Proof.
  intros Hok.
  assert (Hget : forall a b,
    has_shape 128 128 (_get_heightdata tile_directory (level + 1) a b))
    by (intros a b; apply get_heightdata_shape; assumption).
  assert (Habsent : forall a b,
    tile_directory (level + 1) (wrap_column (level + 1) a) b = None ->
    _get_heightdata tile_directory (level + 1) a b = zeros 128 128)
    by (intros a b H; rewrite get_heightdata_lookup, H; reflexivity).
  unfold merged_heightdata. cbv zeta.
  pose proof (zeros_shape 272 272) as S0.
  change (256 + 2 * 8)%nat with 272%nat.
  do 16 (assign_step (Hget (2 * i cell) (2 * j cell))
         || (match goal with
             | |- context [bind (setitem2 _ _ (getitem2 _ _
                      (_get_heightdata _ _ ?a ?b)) _) _] =>
               assign_step (Hget a b)
             | |- context [bind (setitem2 _ _
                      (_get_heightdata _ _ ?a ?b) _) _] =>
               assign_step (Hget a b)
             end)).
  eexists. split; [reflexivity|]. split; [assumption|].
  intros di dj rows cols h w Hin Hnone.
  cbn [border_strips In] in Hin.
  repeat (destruct Hin as [Hin|Hin];
          [injection Hin as <- <- <- <- <- <-|]); [..|destruct Hin];
    rewrite ?Z.add_0_r in Hnone;
    read_strip;
    match goal with
    | |- getitem2 _ _ ?g = _ =>
      replace g with (zeros 128 128)
        by (symmetry; exact (Habsent _ _ Hnone))
    end;
    vm_compute; reflexivity.
Qed.

Lemma single_tile_store_ok (level : Z) :
  thumbnails_ok single_tile_store level.
Proof.
  intros a b img H. unfold single_tile_store in H.
  destruct ((level =? 1) && (a =? 1) && (b =? 0)); [|discriminate].
  assert (Himg : img = ones 128 128) by congruence.
  subst img. apply ones_shape.
Qed.

Lemma merged_border_zero_for_missing_witness :
  thumbnails_ok single_tile_store (0 + 1)
  /\ exists data,
      merged_heightdata single_tile_store unit_cell 0 = Returns data
      /\ has_shape 272 272 data
      /\ getitem2 (upto 8) (upto 8) data = zeros 8 8
      /\ getitem2 (from 264) (between 8 136) data = zeros 8 128.
Proof.
  pose proof (single_tile_store_ok (0 + 1)) as Hok.
  split; [exact Hok|].
  destruct (merged_border_zero_for_missing single_tile_store unit_cell 0 Hok)
    as (data & E & S & Hzero).
  exists data. split; [exact E|]. split; [exact S|]. split.
  - apply (Hzero (-1) (-1)); [cbn; tauto | reflexivity].
  - apply (Hzero 0 2); [cbn; tauto | reflexivity].
Defined.

(** C2, as stated, fails for a neighbour past the left edge.  With a
    single thumbnail stored, for the tile [(1, 1, 0)], the merge for the
    cell [(0, 0, 0)] has the neighbour [(1, -1, 0)] to its left, for
    which nothing is stored; the strip of that neighbour is not the
    all-zero strip: the lookup reads column [-1] as column 1, and the
    strip holds the last eight columns of the tile [(1, 1, 0)]. *)
Lemma merged_strip_past_edge_counterexample :
  In (-1, 0, between 8 136, upto 8, 128%nat, 8%nat) border_strips
  /\ single_tile_store (0 + 1) (2 * i unit_cell + -1) (2 * j unit_cell + 0)
     = None
  /\ exists data,
      merged_heightdata single_tile_store unit_cell 0 = Returns data
      /\ getitem2 (between 8 136) (upto 8) data = ones 128 8
      /\ getitem2 (between 8 136) (upto 8) data <> zeros 128 8.
Proof.
  split; [cbn; tauto|]. split; [reflexivity|].
  assert (Hget : forall a b,
    has_shape 128 128 (_get_heightdata single_tile_store (0 + 1) a b))
    by (intros a b; apply get_heightdata_shape; apply single_tile_store_ok).
  unfold merged_heightdata. cbv zeta.
  pose proof (zeros_shape 272 272) as S0.
  change (256 + 2 * 8)%nat with 272%nat.
  do 16 (assign_step (Hget (2 * i unit_cell) (2 * j unit_cell))
         || (match goal with
             | |- context [bind (setitem2 _ _ (getitem2 _ _
                      (_get_heightdata _ _ ?a ?b)) _) _] =>
               assign_step (Hget a b)
             | |- context [bind (setitem2 _ _
                      (_get_heightdata _ _ ?a ?b) _) _] =>
               assign_step (Hget a b)
             end)).
  eexists. split; [reflexivity|].
  match goal with
  | |- getitem2 ?rows ?cols ?d = _ /\ _ =>
    assert (Hstrip : getitem2 rows cols d = ones 128 8)
      by (read_strip; vm_compute; reflexivity)
  end.
  split; [exact Hstrip|].
  rewrite Hstrip. intros H.
  assert (Hpix : nth 0 (nth 0 (ones 128 8) []) 0%R
                 = nth 0 (nth 0 (zeros 128 8) []) 0%R)
    by (rewrite H; reflexivity).
  cbn in Hpix. lra.
Qed.

(* ================================================================== *)
(** * Further properties of the Mercator projection *)
(* ================================================================== *)

Section MercatorInverse.

Local Open Scope R_scope.

(** In the real numbers the latitude grows with [y]. *)
Lemma invert_latitude_increasing (x x' y y' : R) :
  y < y' -> fst (invert_mercator x y) < fst (invert_mercator x' y').
Proof.
  intros Hy. unfold invert_mercator; cbn [fst].
  pose proof PI_RGT_0 as HPI.
  assert (H : atan (exp (y / R_sphere)) < atan (exp (y' / R_sphere))).
  { apply atan_increasing, exp_increasing.
    unfold Rdiv. apply Rmult_lt_compat_r; [|assumption].
    apply Rinv_0_lt_compat. unfold R_sphere. lra. }
  unfold Rdiv at 1 4.
  apply Rmult_lt_compat_r; [apply Rinv_0_lt_compat; assumption | lra].
Qed.

End MercatorInverse.

(* ================================================================== *)
(** * The range of the tone transform *)
(* ================================================================== *)

Lemma lighten_range (v : Z) : 170 <= lighten v <= 255.
Proof.
  unfold lighten, uint8.
  pose proof (Z.mod_pos_bound (255 - v) 256 ltac:(lia)) as H1.
  assert (H2 : 0 <= (255 - v) mod 256 / 3 <= 85).
  { split; [apply Z.div_pos; lia|].
    apply Z.div_le_upper_bound; lia. }
  rewrite (Z.mod_small ((255 - v) mod 256 / 3)) by lia.
  rewrite Z.mod_small by lia. lia.
Qed.

Lemma lighten_monotone (v v' : Z) :
  0 <= v <= v' -> v' <= 255 -> lighten v <= lighten v'.
Proof.
  intros Hv Hv'. rewrite !lighten_no_wrap by lia.
  assert (H : (255 - v') / 3 <= (255 - v) / 3)
    by (apply Z.div_le_mono; lia).
  lia.
Qed.

(** X4. Every element of the image of [to_hillshade] lies between 170 and
    255, whatever the height data and the hillshade computed from it;
    and a lighter hillshade value never gives a darker element. *)
Theorem to_hillshade_range
  (es_hillshade : ndarray R -> Z -> ndarray R) (float_to_int : R -> Z)
  (data : ndarray R) :
  (forall r c p,
      pixel (to_hillshade es_hillshade float_to_int data) r c = Some p ->
      170 <= p <= 255)
  /\ (forall v v', 0 <= v <= v' -> v' <= 255 -> lighten v <= lighten v').
Proof.
  split; [|exact lighten_monotone].
  intros r c p. unfold to_hillshade. rewrite pixel_map.
  destruct (pixel (hillshade_uint8 es_hillshade float_to_int data) r c);
    [|discriminate].
  intros [= <-]. apply lighten_range.
Qed.

Lemma to_hillshade_range_witness :
  pixel (to_hillshade (fun _ _ => [[0%R]]) (fun _ => 3) []) 0 0 = Some 171
  /\ 170 <= 171 <= 255.
Proof.
  assert (H : pixel (to_hillshade (fun _ _ => [[0%R]]) (fun _ => 3) []) 0 0
              = Some 171) by reflexivity.
  split; [exact H|].
  exact (proj1 (to_hillshade_range (fun _ _ => [[0%R]]) (fun _ => 3) [])
           0%nat 0%nat 171 H).
Defined.

(* ================================================================== *)
(** * Properties of [contains] *)
(* ================================================================== *)

Lemma contains_spec (self : WebMercatorCell) (x y : R) :
  contains self x y = true <->
  (x0 self <= x <= x1 self /\ y1 self <= y <= y0 self)%R.
Proof.
  unfold contains, Rlt_bool.
  destruct (Rlt_dec x (x0 self)), (Rlt_dec (x1 self) x),
           (Rlt_dec y (y1 self)), (Rlt_dec (y0 self) y);
    cbn; split; intros H; try discriminate; try reflexivity; lra.
Qed.

(** X5. The four quadrants the subdivision constructs tile the cell: for
    a cell with [x0 <= x1] and [y1 <= y0], a point is contained in the
    cell exactly when it is contained in one of the four fresh
    children. *)
Theorem quadrants_tile_cell (self : WebMercatorCell) (x y : R) :
  (x0 self <= x1 self)%R -> (y1 self <= y0 self)%R ->
  (contains self x y = true <->
   exists row,
     In row (subdivision_table self)
     /\ contains (fresh_child self row) x y = true).
Proof.
  intros Hx Hy. rewrite contains_spec. split.
  - intros [[Hx0 Hx1] [Hy1 Hy0]].
    destruct (Rle_lt_dec x ((x0 self + x1 self) / 2)) as [Hxm|Hxm];
      destruct (Rle_lt_dec ((y0 self + y1 self) / 2) y) as [Hym|Hym].
    + exists (row_0 self). split; [cbn; tauto|].
      apply contains_spec. cbn. lra.
    + exists (row_2 self). split; [cbn; tauto|].
      apply contains_spec. cbn. lra.
    + exists (row_1 self). split; [cbn; tauto|].
      apply contains_spec. cbn. lra.
    + exists (row_3 self). split; [cbn; tauto|].
      apply contains_spec. cbn. lra.
  - intros (row & Hin & Hc). apply contains_spec in Hc.
    rewrite subdivision_table_rows in Hin.
    destruct Hin as [<-|[<-|[<-|[<-|[]]]]]; cbn in Hc; lra.
Qed.

Lemma quadrants_tile_cell_witness :
  (x0 unit_cell <= x1 unit_cell)%R /\ (y1 unit_cell <= y0 unit_cell)%R
  /\ (contains unit_cell (1 / 4) (3 / 4) = true <->
      exists row,
        In row (subdivision_table unit_cell)
        /\ contains (fresh_child unit_cell row) (1 / 4) (3 / 4) = true).
Proof.
  assert (Hx : (x0 unit_cell <= x1 unit_cell)%R) by (cbn; lra).
  assert (Hy : (y1 unit_cell <= y0 unit_cell)%R) by (cbn; lra).
  split; [exact Hx|]. split; [exact Hy|].
  exact (quadrants_tile_cell unit_cell (1 / 4) (3 / 4) Hx Hy).
Defined.

(* ================================================================== *)
(** * Further properties of the subdivision *)
(* ================================================================== *)

(** ** Refining a grid *)

Lemma full_tree_S (n : nat) (self : WebMercatorCell) :
  full_tree (S n) self =
  mkCell (level self) (i self) (j self)
         (x0 self) (x1 self) (y0 self) (y1 self)
         (Some (full_tree n (fresh_child self (row_0 self))))
         (Some (full_tree n (fresh_child self (row_1 self))))
         (Some (full_tree n (fresh_child self (row_2 self))))
         (Some (full_tree n (fresh_child self (row_3 self)))).
Proof. reflexivity. Qed.

Lemma full_tree_fields (n : nat) (self : WebMercatorCell) :
  i (full_tree n self) = i self /\ j (full_tree n self) = j self
  /\ x0 (full_tree n self) = x0 self /\ x1 (full_tree n self) = x1 self
  /\ y0 (full_tree n self) = y0 self /\ y1 (full_tree n self) = y1 self.
Proof. destruct n; repeat split. Qed.

Lemma row_full_tree (n : nat) (self : WebMercatorCell) :
  row_0 (full_tree n self) = row_0 self
  /\ row_1 (full_tree n self) = row_1 self
  /\ row_2 (full_tree n self) = row_2 self
  /\ row_3 (full_tree n self) = row_3 self.
Proof. destruct n; repeat split. Qed.

(** The unconditional subdivision of a full tree of depth [n] to the
    level [m] below its root gives the full tree of the larger depth. *)
Lemma full_subdivide_full_tree (n : nat) :
  forall (m fuel : nat) (max_depth : Z) (self : WebMercatorCell),
    childless self ->
    (Nat.max n m < fuel)%nat ->
    (max_depth = level self + Z.of_nat m
     \/ (m = O /\ max_depth <= level self)) ->
    conditional_recursive_subdivide fuel (fun _ => true) max_depth
      (full_tree n self)
    = Some (full_tree (Nat.max n m) self).
Proof.
  induction n as [|n IH]; intros m fuel max_depth self Hc Hfuel Hm.
  - cbn [full_tree Nat.max]. apply full_subdivide_childless;
      [assumption | lia | lia | lia].
  - destruct fuel as [|fuel]; [lia|].
    rewrite subdivide_step, full_tree_level.
    destruct (level self >=? max_depth) eqn:Hgeb.
    + apply Z.geb_le in Hgeb.
      assert (m = O) as -> by lia.
      rewrite Nat.max_0_r. reflexivity.
    + rewrite Z.geb_leb in Hgeb. apply Z.leb_gt in Hgeb.
      destruct m as [|m]; [lia|].
      destruct Hm as [Hm|[Hm _]]; [|discriminate].
      destruct (row_full_tree (S n) self) as (-> & -> & -> & ->).
      unfold visit. rewrite full_tree_S.
      cbn [candidate row_0 row_1 row_2 row_3 getattr
           cell_0 cell_1 cell_2 cell_3].
      rewrite !(IH m fuel max_depth);
        try apply fresh_child_childless; try lia;
        try (left; rewrite fresh_child_level; lia).
      cbn [level i j x0 x1 y0 y1].
      replace (Nat.max (S n) (S m)) with (S (Nat.max n m)) by lia.
      reflexivity.
Qed.

Lemma full_subdivide_grid (a b : Z) :
  full_recursive_subdivide b (grid_root a) = Some (grid_root (Z.max a b)).
Proof.
  unfold full_recursive_subdivide, grid_root.
  set (g := full_tree (Z.to_nat a) webmercator_root).
  destruct (subdivide_total (fun _ => true) b _ g (le_n _)) as [r Hr].
  rewrite Hr. f_equal.
  set (f0 := recursion_depth b g) in *.
  set (big := S (Nat.max f0 (Nat.max (Z.to_nat a) (Z.to_nat b)))).
  assert (H1 : conditional_recursive_subdivide big (fun _ => true) b g
               = Some r)
    by (apply (subdivide_fuel_le _ _ f0); [unfold big; lia | assumption]).
  assert (H2 : conditional_recursive_subdivide big (fun _ => true) b g
               = Some (full_tree (Nat.max (Z.to_nat a) (Z.to_nat b))
                         webmercator_root)).
  { apply full_subdivide_full_tree.
    - apply webmercator_root_childless.
    - unfold big. lia.
    - rewrite webmercator_root_level. lia. }
  replace (Z.to_nat (Z.max a b))
    with (Nat.max (Z.to_nat a) (Z.to_nat b)) by lia.
  congruence.
Qed.

(** X6. Refining a grid: the unconditional subdivision of the grid of
    level [a] to the level [b] is the grid of the larger of the two
    levels; a grid that is already deeper is returned as it is. *)
Theorem refine_grid (a b : Z) :
  exists g,
    generate_webmercator_grid a = Some g
    /\ full_recursive_subdivide b g = generate_webmercator_grid (Z.max a b).
Proof.
  rewrite !generate_webmercator_grid_full.
  eexists. split; [reflexivity|].
  exact (full_subdivide_grid a b).
Qed.

(** ** What the subdivision keeps and what it adds *)

(** Two cells with the same address and the same box. *)
Definition same_fields (c c' : WebMercatorCell) : Prop :=
  level c = level c' /\ i c = i c' /\ j c = j c'
  /\ x0 c = x0 c' /\ x1 c = x1 c' /\ y0 c = y0 c' /\ y1 c = y1 c'.

(** The cell without its children, as the loop constructs it. *)
Definition bare (c : WebMercatorCell) : WebMercatorCell :=
  mkCell (level c) (i c) (j c) (x0 c) (x1 c) (y0 c) (y1 c)
         None None None None.

Lemma same_fields_refl (c : WebMercatorCell) : same_fields c c.
Proof. repeat split. Qed.

Lemma same_fields_bare (c c' : WebMercatorCell) :
  same_fields c c' -> bare c = bare c'.
Proof.
  unfold same_fields, bare.
  intros (-> & -> & -> & -> & -> & -> & ->). reflexivity.
Qed.

Section SubdivisionEffect.

Variable condition : WebMercatorCell -> bool.
Variable max_depth : Z.

Lemma subdivide_shape (fuel : nat) (self r : WebMercatorCell) :
  conditional_recursive_subdivide (S fuel) condition max_depth self
  = Some r ->
  (max_depth <= level self /\ r = self)
  \/ (level self < max_depth /\ same_fields self r
      /\ forall key,
          visit condition max_depth fuel self (row_of self key)
          = Some (getattr r key)).
Proof.
  rewrite subdivide_step.
  destruct (level self >=? max_depth) eqn:Hgeb.
  - apply Z.geb_le in Hgeb. intros [= <-]. tauto.
  - rewrite Z.geb_leb in Hgeb. apply Z.leb_gt in Hgeb.
    destruct (visit condition max_depth fuel self (row_0 self))
      as [v0|] eqn:E0; [|discriminate].
    destruct (visit condition max_depth fuel self (row_1 self))
      as [v1|] eqn:E1; [|discriminate].
    destruct (visit condition max_depth fuel self (row_2 self))
      as [v2|] eqn:E2; [|discriminate].
    destruct (visit condition max_depth fuel self (row_3 self))
      as [v3|] eqn:E3; [|discriminate].
    intros [= <-]. right. split; [assumption|]. split; [repeat split|].
    intros key. destruct key; cbn [row_of getattr cell_0 cell_1 cell_2 cell_3];
      assumption.
Qed.

Lemma candidate_cases (self : WebMercatorCell) (key : CellKey) :
  (exists child,
      getattr self key = Some child
      /\ candidate self (row_of self key) = child)
  \/ (getattr self key = None
      /\ candidate self (row_of self key)
         = fresh_child self (row_of self key)).
Proof.
  destruct key; cbn [row_of row_0 row_1 row_2 row_3 candidate fresh_child];
    match goal with
    | |- context [getattr ?s ?k] => destruct (getattr s k) as [child|]
    end; eauto.
Qed.

Lemma row_of_key (self : WebMercatorCell) (key : CellKey) :
  row_key (row_of self key) = key.
Proof. destruct key; reflexivity. Qed.

Lemma subdivide_keeps (fuel : nat) :
  forall self r,
    conditional_recursive_subdivide fuel condition max_depth self = Some r ->
    forall c, In c (flatten self) ->
      exists c', In c' (flatten r) /\ same_fields c c'.
Proof.
  induction fuel as [|fuel IH]; intros self r H c Hc; [discriminate|].
  destruct (subdivide_shape fuel self r H) as [[_ ->]|(Hlev & Hsame & Hvis)].
  - exists c. split; [assumption | apply same_fields_refl].
  - apply flatten_In in Hc. destruct Hc as [->|(key & child & Hk & Hin)].
    + exists r. split; [apply flatten_self | assumption].
    + pose proof (Hvis key) as Hv. unfold visit in Hv.
      rewrite row_of_key in Hv.
      destruct (candidate_cases self key)
        as [(child' & Hk' & Hcand)|[Hk' _]]; [|congruence].
      assert (child' = child) as -> by congruence.
      rewrite Hcand in Hv.
      destruct (condition child).
      * destruct (conditional_recursive_subdivide fuel condition max_depth
                    child) as [rk|] eqn:E; [|discriminate].
        injection Hv as Hv.
        destruct (IH child rk E c Hin) as (c' & Hc' & Hs).
        exists c'. split; [|assumption].
        apply flatten_In. right. exists key, rk. split; [congruence|].
        assumption.
      * injection Hv as Hv. exists c. split; [|apply same_fields_refl].
        apply flatten_In. right. exists key, child.
        split; [congruence | assumption].
Qed.

Lemma subdivide_adds (fuel : nat) :
  forall self r,
    conditional_recursive_subdivide fuel condition max_depth self = Some r ->
    forall c', In c' (flatten r) ->
      (exists c, In c (flatten self) /\ same_fields c c')
      \/ (level c' <= max_depth /\ condition (bare c') = true).
Proof.
  induction fuel as [|fuel IH]; intros self r H c' Hc'; [discriminate|].
  destruct (subdivide_shape fuel self r H) as [[_ ->]|(Hlev & Hsame & Hvis)].
  - left. exists c'. split; [assumption | apply same_fields_refl].
  - apply flatten_In in Hc'. destruct Hc' as [->|(key & rk & Hk & Hin)].
    + left. exists self. split; [apply flatten_self | assumption].
    + pose proof (Hvis key) as Hv. unfold visit in Hv.
      rewrite row_of_key, Hk in Hv.
      destruct (candidate_cases self key)
        as [(child & Hkc & Hcand)|[Hkn Hcand]]; rewrite Hcand in Hv.
      * destruct (condition child).
        -- destruct (conditional_recursive_subdivide fuel condition
                       max_depth child) as [rk'|] eqn:E; [|discriminate].
           assert (rk' = rk) as -> by congruence.
           destruct (IH child rk E c' Hin) as [(c & Hc & Hs)|Hnew];
             [|tauto].
           left. exists c. split; [|assumption].
           apply flatten_In. right. exists key, child. tauto.
        -- left. exists c'. split; [|apply same_fields_refl].
           apply flatten_In. right. exists key, rk.
           split; [congruence | assumption].
      * destruct (condition (fresh_child self (row_of self key))) eqn:Ec;
          [|congruence].
        destruct (conditional_recursive_subdivide fuel condition
                    max_depth (fresh_child self (row_of self key)))
          as [rk'|] eqn:E; [|discriminate].
        assert (rk' = rk) as -> by congruence.
        destruct (IH _ rk E c' Hin) as [(c & Hc & Hs)|Hnew]; [|tauto].
        right.
        rewrite flatten_childless in Hc by apply fresh_child_childless.
        destruct Hc as [<-|[]].
        rewrite <- (same_fields_bare _ _ Hs).
        destruct Hs as (Hl & _). rewrite fresh_child_level in Hl.
        split; [lia|].
        replace (bare (fresh_child self (row_of self key)))
          with (fresh_child self (row_of self key)); [assumption|].
        destruct key; reflexivity.
Qed.

End SubdivisionEffect.

(** X7. The subdivision detaches nothing and adds only what it is asked
    for: every cell of the tree is in the subdivided tree, with the
    address and box it had; and every other cell of the subdivided tree
    lies at a level of at most [max_depth] and satisfied the condition
    when it was constructed without children. *)
Theorem subdivide_keeps_and_adds (condition : WebMercatorCell -> bool)
  (max_depth : Z) (self : WebMercatorCell) :
  exists r,
    conditional_recursive_subdivide (recursion_depth max_depth self)
      condition max_depth self = Some r
    /\ (forall c, In c (flatten self) ->
          exists c', In c' (flatten r) /\ same_fields c c')
    /\ (forall c', In c' (flatten r) ->
          (exists c, In c (flatten self) /\ same_fields c c')
          \/ (level c' <= max_depth /\ condition (bare c') = true)).
Proof.
  destruct (subdivide_total condition max_depth _ self (le_n _)) as [r Hr].
  exists r. split; [assumption|]. split.
  - exact (subdivide_keeps condition max_depth _ self r Hr).
  - exact (subdivide_adds condition max_depth _ self r Hr).
Qed.

(* ================================================================== *)
(** * Each address once *)
(* ================================================================== *)

(** The address [(level, i, j)] of a cell. *)
Definition address (c : WebMercatorCell) : Z * Z * Z :=
  (level c, i c, j c).

(** The cells below an attached child lie in the quadrant of its
    attribute. *)
Lemma flatten_child_range (t child d : WebMercatorCell) (key : CellKey) :
  quadtree_inv t -> getattr t key = Some child -> In d (flatten child) ->
  level t + 1 <= level d
  /\ (2 * i t + key_dx key) * 2 ^ (level d - (level t + 1)) <= i d
     < (2 * i t + key_dx key + 1) * 2 ^ (level d - (level t + 1))
  /\ (2 * j t + key_dy key) * 2 ^ (level d - (level t + 1)) <= j d
     < (2 * j t + key_dy key + 1) * 2 ^ (level d - (level t + 1)).
Proof.
  intros Hinv Hk Hd.
  destruct (quadtree_inv_child t child key Hinv Hk) as [_ Hcinv].
  destruct (child_address_inv t child key Hinv Hk) as (Hl1 & Hi1 & Hj1).
  pose proof (flatten_range child d Hcinv Hd) as Hr.
  rewrite Hl1, Hi1, Hj1 in Hr. exact Hr.
Qed.

Definition below (t : WebMercatorCell) (key : CellKey)
  : list WebMercatorCell :=
  match getattr t key with
  | Some c => flatten c
  | None => []
  end.

Lemma flatten_below (t : WebMercatorCell) :
  flatten t =
  t :: below t Cell_0 ++ below t Cell_1 ++ below t Cell_2 ++ below t Cell_3.
Proof. apply flatten_unfold. Qed.

Lemma below_apart (t : WebMercatorCell) (key key' : CellKey)
  (c c' : WebMercatorCell) :
  quadtree_inv t -> key <> key' ->
  In c (below t key) -> In c' (below t key') -> address c <> address c'.
Proof.
  intros Hinv Hne Hc Hc' Heq. unfold below in Hc, Hc'.
  destruct (getattr t key) as [child|] eqn:Hk; [|destruct Hc].
  destruct (getattr t key') as [child'|] eqn:Hk'; [|destruct Hc'].
  destruct (flatten_child_range t child c key Hinv Hk Hc)
    as (Hlev & Hri & Hrj).
  destruct (flatten_child_range t child' c' key' Hinv Hk' Hc')
    as (_ & Hri' & Hrj').
  unfold address in Heq. injection Heq as Hl Hi Hj.
  rewrite <- Hl, <- Hi in Hri'. rewrite <- Hl, <- Hj in Hrj'.
  set (P := 2 ^ (level c - (level t + 1))) in *.
  assert (HP : 0 < P) by (apply Z.pow_pos_nonneg; lia).
  assert (Hdx : forall k, 0 <= key_dx k <= 1) by (destruct k; cbn; lia).
  assert (Hdy : forall k, 0 <= key_dy k <= 1) by (destruct k; cbn; lia).
  apply Hne. apply key_dx_dy_inj.
  - exact (quadrant_disjoint _ _ _ _ _ (Hdx key) (Hdx key') HP Hri Hri').
  - exact (quadrant_disjoint _ _ _ _ _ (Hdy key) (Hdy key') HP Hrj Hrj').
Qed.

Lemma NoDup_map_app {A B : Type} (f : A -> B) (l l' : list A) :
  NoDup (map f l) -> NoDup (map f l') ->
  (forall a a', In a l -> In a' l' -> f a <> f a') ->
  NoDup (map f (l ++ l')).
Proof.
  intros Hl Hl' Hd. rewrite map_app. apply NoDup_app; try assumption.
  intros b Hb Hb'. apply in_map_iff in Hb. apply in_map_iff in Hb'.
  destruct Hb as (a & <- & Ha). destruct Hb' as (a' & Heq & Ha').
  exact (Hd a a' Ha Ha' (eq_sym Heq)).
Qed.

Lemma flatten_address_NoDup (t : WebMercatorCell) :
  quadtree_inv t -> NoDup (map address (flatten t)).
Proof.
  induction t as [t IH] using cell_induction. intros Hinv.
  assert (Hsub : forall key, NoDup (map address (below t key))).
  { intros key. unfold below.
    destruct (getattr t key) as [child|] eqn:Hk; [|constructor].
    apply (IH key child Hk).
    apply (quadtree_inv_child t child key Hinv Hk). }
  assert (Hroot : forall key c, In c (below t key) -> address t <> address c).
  { intros key c Hc Heq. unfold below in Hc.
    destruct (getattr t key) as [child|] eqn:Hk; [|destruct Hc].
    destruct (flatten_child_range t child c key Hinv Hk Hc) as (Hlev & _).
    unfold address in Heq. injection Heq as Hl _ _. lia. }
  rewrite flatten_below. cbn [map]. constructor.
  - intros Hin. apply in_map_iff in Hin. destruct Hin as (c & Heq & Hc).
    rewrite !in_app_iff in Hc.
    destruct Hc as [Hc|[Hc|[Hc|Hc]]];
      exact (Hroot _ c Hc (eq_sym Heq)).
  - apply NoDup_map_app; [apply Hsub | |].
    + apply NoDup_map_app; [apply Hsub | |].
      * apply NoDup_map_app; [apply Hsub | apply Hsub |].
        intros a a'. apply below_apart; [assumption | discriminate].
      * intros a a' Ha Ha'. rewrite in_app_iff in Ha'.
        destruct Ha' as [Ha'|Ha'];
          (eapply below_apart; [exact Hinv | | exact Ha | exact Ha']);
          discriminate.
    + intros a a' Ha Ha'. rewrite !in_app_iff in Ha'.
      destruct Ha' as [Ha'|[Ha'|Ha']];
        (eapply below_apart; [exact Hinv | | exact Ha | exact Ha']);
        discriminate.
Qed.

(** X8. In a tree of quadrants [flatten] lists every address once: no two
    positions of the list hold cells with the same [(level, i, j)]. *)
Theorem flatten_addresses_once (t : WebMercatorCell) :
  quadtree_inv t -> NoDup (map address (flatten t)).
Proof.
  exact (flatten_address_NoDup t).
Qed.

Lemma flatten_addresses_once_witness :
  quadtree_inv (grid_root 2) /\ NoDup (map address (flatten (grid_root 2))).
Proof.
  pose proof (grid_root_inv 2) as H.
  split; [exact H | exact (flatten_addresses_once (grid_root 2) H)].
Defined.

(* ================================================================== *)
(** * Properties of the pruning *)
(* ================================================================== *)

Lemma address_eqb_eq (a b : Z * Z * Z) : address_eqb a b = true <-> a = b.
Proof.
  destruct a as [[l x] y], b as [[l' x'] y']. unfold address_eqb.
  rewrite !andb_true_iff, !Z.eqb_eq. split.
  - intros [[-> ->] ->]. reflexivity.
  - intros [= -> -> ->]. tauto.
Qed.

Lemma checker_call_In (checker : EmptyChecker) (cell : WebMercatorCell) :
  checker_call checker cell = true <-> In (address cell) checker.
Proof.
  unfold checker_call, address. rewrite existsb_exists. split.
  - intros (a & Ha & Heq). apply address_eqb_eq in Heq. congruence.
  - intros H. eexists. split; [exact H|]. apply address_eqb_eq. reflexivity.
Qed.

Lemma checker_call_address (checker : EmptyChecker)
  (c c' : WebMercatorCell) :
  address c = address c' ->
  checker_call checker c = checker_call checker c'.
Proof.
  unfold address, checker_call. intros H. rewrite H. reflexivity.
Qed.

(** What pruning leaves in one attribute. *)
Definition pruned_child (condition : WebMercatorCell -> bool)
  (o : option WebMercatorCell) : option WebMercatorCell :=
  match o with
  | None => None
  | Some child =>
    if condition child then None else Some (prune_children condition child)
  end.

Lemma prune_children_getattr (condition : WebMercatorCell -> bool)
  (self : WebMercatorCell) (key : CellKey) :
  getattr (prune_children condition self) key
  = pruned_child condition (getattr self key).
Proof. destruct self, key; reflexivity. Qed.

Lemma prune_children_fields (condition : WebMercatorCell -> bool)
  (self : WebMercatorCell) :
  same_fields self (prune_children condition self).
Proof. destruct self. repeat split. Qed.

Lemma prune_children_address (condition : WebMercatorCell -> bool)
  (self : WebMercatorCell) :
  address (prune_children condition self) = address self.
Proof. destruct self. reflexivity. Qed.

(** The size of a tree. *)
Definition cell_count (t : WebMercatorCell) : Z :=
  Z.of_nat (length (flatten t)).

Lemma cell_count_pos (t : WebMercatorCell) : 1 <= cell_count t.
Proof.
  unfold cell_count. rewrite flatten_unfold. cbn [length]. lia.
Qed.

Lemma cell_count_unfold (t : WebMercatorCell) :
  cell_count t =
  1 + Z.of_nat (length (below t Cell_0)) + Z.of_nat (length (below t Cell_1))
    + Z.of_nat (length (below t Cell_2))
    + Z.of_nat (length (below t Cell_3)).
Proof.
  unfold cell_count. rewrite flatten_below. cbn [length].
  rewrite !length_app. lia.
Qed.

Section PruneEmpties.

Variable checker : EmptyChecker.

(** One round of the loop of [_inner_prune_empties]. *)
Definition prune_key (o : option WebMercatorCell) (prune_count : Z)
  : option WebMercatorCell * Z :=
  match o with
  | None => (None, prune_count)
  | Some child =>
    if checker_call checker child then (None, prune_count + 1)
    else
      let '(child', n) := _inner_prune_empties child checker in
      (Some child', prune_count + n)
  end.

Lemma inner_prune_unfold (root : WebMercatorCell) :
  _inner_prune_empties root checker =
  let '(c0', n0) := prune_key (cell_0 root) 0 in
  let '(c1', n1) := prune_key (cell_1 root) n0 in
  let '(c2', n2) := prune_key (cell_2 root) n1 in
  let '(c3', n3) := prune_key (cell_3 root) n2 in
  (mkCell (level root) (i root) (j root)
          (x0 root) (x1 root) (y0 root) (y1 root) c0' c1' c2' c3', n3).
Proof. destruct root; reflexivity. Qed.

Lemma prune_children_unfold (condition : WebMercatorCell -> bool)
  (root : WebMercatorCell) :
  prune_children condition root =
  mkCell (level root) (i root) (j root)
         (x0 root) (x1 root) (y0 root) (y1 root)
         (pruned_child condition (cell_0 root))
         (pruned_child condition (cell_1 root))
         (pruned_child condition (cell_2 root))
         (pruned_child condition (cell_3 root)).
Proof. destruct root; reflexivity. Qed.

(** The number of cells below an attribute. *)
Definition count_below (o : option WebMercatorCell) : Z :=
  match o with
  | Some c => cell_count c
  | None => 0
  end.

Lemma cell_count_children (t : WebMercatorCell) :
  cell_count t =
  1 + count_below (cell_0 t) + count_below (cell_1 t)
    + count_below (cell_2 t) + count_below (cell_3 t).
Proof.
  rewrite cell_count_unfold. unfold below, count_below, cell_count.
  cbn [getattr].
  destruct (cell_0 t), (cell_1 t), (cell_2 t), (cell_3 t);
    cbn [length]; lia.
Qed.

(** The two routines prune alike; the count is at least the number of
    cells that went missing divided among the detached subtrees: it is
    not negative, it is zero exactly when nothing was detached, and it
    is at most the number of cells lost. *)
Lemma inner_prune_spec (root : WebMercatorCell) :
  fst (_inner_prune_empties root checker)
  = prune_children (checker_call checker) root
  /\ 0 <= snd (_inner_prune_empties root checker)
  /\ snd (_inner_prune_empties root checker)
     <= cell_count root
        - cell_count (prune_children (checker_call checker) root)
  /\ (snd (_inner_prune_empties root checker) = 0 ->
      prune_children (checker_call checker) root = root).
Proof.
  induction root as [root IH] using cell_induction.
  assert (Hkey : forall key n,
    0 <= n ->
    fst (prune_key (getattr root key) n)
    = pruned_child (checker_call checker) (getattr root key)
    /\ n <= snd (prune_key (getattr root key) n)
    /\ snd (prune_key (getattr root key) n) - n
       <= count_below (getattr root key)
          - count_below (pruned_child (checker_call checker)
                           (getattr root key))
    /\ (snd (prune_key (getattr root key) n) = n ->
        pruned_child (checker_call checker) (getattr root key)
        = getattr root key)).
  { intros key n Hn. unfold prune_key, pruned_child.
    destruct (getattr root key) as [child|] eqn:Hk.
    - destruct (checker_call checker child) eqn:Hc; cbn [fst snd].
      + pose proof (cell_count_pos child). cbn [count_below].
        repeat split; try lia.
      + destruct (IH key child Hk) as (H1 & H2 & H3 & H4).
        destruct (_inner_prune_empties child checker) as [child' m].
        cbn [fst snd count_below] in *. subst child'.
        repeat split; try lia.
        intros Hz. rewrite H4 by lia. reflexivity.
    - cbn [fst snd count_below]. repeat split; lia. }
  rewrite inner_prune_unfold, prune_children_unfold.
  destruct (Hkey Cell_0 0 ltac:(lia)) as (A1 & A2 & A3 & A4).
  cbn [getattr] in A1, A2, A3, A4.
  destruct (prune_key (cell_0 root) 0) as [c0' n0]. cbn [fst snd] in *.
  destruct (Hkey Cell_1 n0 ltac:(lia)) as (B1 & B2 & B3 & B4).
  cbn [getattr] in B1, B2, B3, B4.
  destruct (prune_key (cell_1 root) n0) as [c1' n1]. cbn [fst snd] in *.
  destruct (Hkey Cell_2 n1 ltac:(lia)) as (C1 & C2 & C3 & C4).
  cbn [getattr] in C1, C2, C3, C4.
  destruct (prune_key (cell_2 root) n1) as [c2' n2]. cbn [fst snd] in *.
  destruct (Hkey Cell_3 n2 ltac:(lia)) as (D1 & D2 & D3 & D4).
  cbn [getattr] in D1, D2, D3, D4.
  destruct (prune_key (cell_3 root) n2) as [c3' n3]. cbn [fst snd] in *.
  subst c0' c1' c2' c3'.
  split; [reflexivity|]. split; [lia|]. split.
  - rewrite (cell_count_children root).
    rewrite (cell_count_children (mkCell _ _ _ _ _ _ _ _ _ _ _)).
    cbn [cell_0 cell_1 cell_2 cell_3]. lia.
  - intros Hz. rewrite A4, B4, C4, D4 by lia.
    destruct root; reflexivity.
Qed.

(** No cell of the pruned tree but its root satisfies the checker. *)
Lemma prune_children_clean (root : WebMercatorCell) :
  forall c,
    In c (flatten (prune_children (checker_call checker) root)) ->
    c = prune_children (checker_call checker) root
    \/ checker_call checker c = false.
Proof.
  induction root as [root IH] using cell_induction. intros c Hc.
  apply flatten_In in Hc. destruct Hc as [->|(key & child' & Hk & Hin)];
    [tauto|].
  right. rewrite prune_children_getattr in Hk. unfold pruned_child in Hk.
  destruct (getattr root key) as [child|] eqn:Hkey; [|discriminate].
  destruct (checker_call checker child) eqn:Hcc; [discriminate|].
  injection Hk as <-.
  destruct (IH key child Hkey c Hin) as [->|H]; [|assumption].
  rewrite <- Hcc. apply checker_call_address.
  apply prune_children_address.
Qed.

(** The cells of the pruned tree are cells of the tree, pruned. *)
Lemma prune_children_subset (condition : WebMercatorCell -> bool)
  (root : WebMercatorCell) :
  forall c',
    In c' (flatten (prune_children condition root)) ->
    exists c, In c (flatten root) /\ c' = prune_children condition c.
Proof.
  induction root as [root IH] using cell_induction. intros c' Hc'.
  apply flatten_In in Hc'. destruct Hc' as [->|(key & child' & Hk & Hin)].
  - exists root. split; [apply flatten_self | reflexivity].
  - rewrite prune_children_getattr in Hk. unfold pruned_child in Hk.
    destruct (getattr root key) as [child|] eqn:Hkey; [|discriminate].
    destruct (condition child); [discriminate|].
    injection Hk as <-.
    destruct (IH key child Hkey c' Hin) as (c & Hc & ->).
    exists c. split; [|reflexivity].
    apply flatten_In. right. exists key, child. tauto.
Qed.

End PruneEmpties.

(** X9. [_inner_prune_empties] prunes as [prune_children] does with the
    checker as condition.  The root stays, with its address and box, even
    when the checker holds for it; no other cell of the pruned tree has
    its address in the set; every cell of the pruned tree is a cell of
    the tree, pruned.  The count returned is not negative, at most the
    number of cells lost, and zero only when the tree is unchanged. *)
Theorem inner_prune_empties_prunes (root : WebMercatorCell)
  (checker : EmptyChecker) :
  let pruned := fst (_inner_prune_empties root checker) in
  let prune_count := snd (_inner_prune_empties root checker) in
  pruned = prune_children (checker_call checker) root
  /\ same_fields root pruned
  /\ (forall c, In c (flatten pruned) ->
        c = pruned \/ ~ In (address c) checker)
  /\ (forall c', In c' (flatten pruned) ->
        exists c,
          In c (flatten root)
          /\ c' = prune_children (checker_call checker) c)
  /\ 0 <= prune_count <= cell_count root - cell_count pruned
  /\ (prune_count = 0 -> pruned = root).
Proof.
  cbv zeta.
  destruct (inner_prune_spec checker root) as (H1 & H2 & H3 & H4).
  rewrite H1. split; [reflexivity|].
  split; [apply prune_children_fields|]. split.
  - intros c Hc. destruct (prune_children_clean checker root c Hc) as [H|H];
      [tauto|].
    right. intros Hin. apply checker_call_In in Hin. congruence.
  - split; [apply prune_children_subset|]. split; [lia | assumption].
Qed.

(* ================================================================== *)
(** * Further properties of the list of empty tiles *)
(* ================================================================== *)

Lemma set_add_NoDup (cell : WebMercatorCell)
  (empties : list WebMercatorCell) :
  NoDup empties -> NoDup (set_add cell empties).
Proof.
  intros H. unfold set_add. destruct (set_mem cell empties) eqn:E;
    [assumption|].
  apply NoDup_app; [assumption | repeat constructor; intros [] |].
  intros a Ha [<-|[]].
  apply set_mem_In in Ha. congruence.
Qed.

Lemma fold_set_add_NoDup {A : Type}
  (test : list WebMercatorCell -> WebMercatorCell -> bool)
  (cells : list WebMercatorCell) :
  forall empties,
    NoDup empties ->
    NoDup (fold_left (fun e cell => if test e cell then set_add cell e else e)
                     cells empties).
Proof.
  induction cells as [|cell cells IH]; intros empties H; cbn [fold_left];
    [assumption|].
  apply IH. destruct (test empties cell); [apply set_add_NoDup|]; assumption.
Qed.

Section EmptinessMore.

Variable intersect : Feature -> Feature -> option Feature.

Lemma classify_cells_NoDup (polygons_clipped : list Feature)
  (cells empties : list WebMercatorCell) :
  NoDup empties ->
  NoDup (classify_cells intersect polygons_clipped cells empties).
Proof.
  unfold classify_cells.
  apply (fold_set_add_NoDup (A := unit)
           (fun _ cell =>
              negb (fst (does_intersect intersect polygons_clipped cell)))).
Qed.

Lemma classify_partitions_NoDup (polygons : list Feature) (max_level : Z)
  (intermediate_cells : list WebMercatorCell) :
  forall empties,
    NoDup empties ->
    NoDup (classify_partitions intersect polygons max_level
             intermediate_cells empties).
Proof.
  unfold classify_partitions.
  induction intermediate_cells as [|q rest IH]; intros empties H;
    cbn [fold_left]; [assumption|].
  apply IH, classify_cells_NoDup, H.
Qed.

Lemma sweep_level_NoDup (cells empties : list WebMercatorCell) :
  NoDup empties -> NoDup (sweep_level cells empties).
Proof.
  unfold sweep_level.
  apply (fold_set_add_NoDup (A := unit)
           (fun e cell =>
              child_mem (cell_0 cell) e && child_mem (cell_1 cell) e
              && child_mem (cell_2 cell) e && child_mem (cell_3 cell) e)).
Qed.

Lemma sweep_up_NoDup (all_cells : list WebMercatorCell)
  (min_level max_level : Z) (empties : list WebMercatorCell) :
  NoDup empties -> NoDup (sweep_up all_cells min_level max_level empties).
Proof.
  unfold sweep_up.
  generalize (range_down (max_level - 1) (min_level - 1)) as levels.
  intros levels. revert empties.
  induction levels as [|lvl levels IH]; intros empties H; cbn [fold_left];
    [assumption|].
  apply IH, sweep_level_NoDup, H.
Qed.

(** What a member of the swept set is: a member from before, or a cell
    of one of the levels swept whose four children are members. *)
Lemma sweep_rounds_members (root : WebMercatorCell)
  (min_level max_level : Z) (k : nat) :
  quadtree_inv root ->
  forall empties x,
    let swept :=
      fold_left (fun e lvl => sweep_level (cells_of root min_level lvl) e)
        (range_down (max_level - 1) (max_level - 1 - Z.of_nat k)) empties in
    In x swept ->
    In x empties
    \/ (In x (cells_from_min root min_level)
        /\ max_level - Z.of_nat k <= level x <= max_level - 1
        /\ children_in x swept).
Proof.
  intros Hinv. induction k as [|k IH]; intros empties x.
  - rewrite Z.sub_0_r, range_down_nil by lia. cbn. tauto.
  - replace (max_level - 1 - Z.of_nat (S k))
      with (max_level - 1 - Z.of_nat k - 1) by lia.
    rewrite range_down_snoc by lia.
    cbv zeta. rewrite fold_left_app. cbn [fold_left].
    set (before :=
           fold_left (fun e lvl => sweep_level (cells_of root min_level lvl) e)
             (range_down (max_level - 1) (max_level - 1 - Z.of_nat k))
             empties) in *.
    set (lvl := max_level - 1 - Z.of_nat k).
    pose proof (sweep_level_In (cells_of root min_level lvl) before
                  (fun p key c =>
                     cells_of_separate root Hinv min_level lvl p c key))
      as Hin.
    assert (Hmono : forall y, In y before ->
              In y (sweep_level (cells_of root min_level lvl) before))
      by (intros y Hy; apply Hin; tauto).
    assert (Hch : forall y, children_in y before ->
              children_in y (sweep_level (cells_of root min_level lvl) before)).
    { intros y Hy key. destruct (Hy key) as (c & Hk & Hc).
      exists c. split; [assumption | apply Hmono, Hc]. }
    intros Hx. apply Hin in Hx. destruct Hx as [Hx|[Hx Hxc]].
    + destruct (IH empties x Hx) as [H|(H1 & H2 & H3)]; [tauto|].
      right. split; [assumption|]. split; [lia | apply Hch, H3].
    + right. apply cells_of_In in Hx. destruct Hx as [Hx Hl].
      split; [assumption|]. split; [unfold lvl in Hl; lia | apply Hch, Hxc].
Qed.

Lemma sweep_up_members (root : WebMercatorCell) (min_level max_level : Z)
  (empties : list WebMercatorCell) (x : WebMercatorCell) :
  quadtree_inv root ->
  In x (sweep_up (cells_from_min root min_level) min_level max_level
          empties) ->
  In x empties
  \/ (In x (cells_from_min root min_level)
      /\ min_level <= level x <= max_level - 1
      /\ children_in x (sweep_up (cells_from_min root min_level)
                          min_level max_level empties)).
Proof.
  intros Hinv. unfold sweep_up. fold (cells_of root min_level).
  destruct (Z.le_gt_cases min_level max_level) as [Hle|Hgt].
  - pose proof (sweep_rounds_members root min_level max_level
                  (Z.to_nat (max_level - min_level)) Hinv empties x) as H.
    replace (max_level - 1 - Z.of_nat (Z.to_nat (max_level - min_level)))
      with (min_level - 1) in H by lia.
    replace (max_level - Z.of_nat (Z.to_nat (max_level - min_level)))
      with min_level in H by lia.
    exact H.
  - rewrite range_down_nil by lia. cbn. tauto.
Qed.

Lemma filter_polygons_value (features polygons : list Feature) :
  filter_polygons features = Returns polygons ->
  polygons = filter is_polygon_feature features.
Proof.
  revert polygons. induction features as [|f rest IH]; intros polygons.
  - cbn. congruence.
  - cbn [filter_polygons filter]. unfold is_polygon_feature.
    destruct (geometry f) as [g|]; [|discriminate].
    destruct (filter_polygons rest) as [kept|]; cbn [bind]; [|discriminate].
    rewrite (IH kept eq_refl). intros [= <-]. reflexivity.
Qed.

(** The members of the list that is returned. *)
Lemma empties_members (doc : GeoJSON) (min_level max_level : Z)
  (empties : list WebMercatorCell) (x : WebMercatorCell) :
  generate_list_of_empty_tiles intersect doc min_level max_level
  = Returns empties ->
  In x empties ->
  In x (flatten (grid_root max_level))
  /\ ((level x = max_level /\ min_level <= max_level)
      \/ (min_level <= level x <= max_level - 1
          /\ children_in x empties)).
Proof.
  intros Hgen Hx.
  destruct (generate_list_returns _ _ _ _ _ Hgen)
    as (features & polygons & _ & _ & ->).
  split; [exact (empties_in_grid intersect polygons _ _ x Hx)|].
  pose proof (grid_root_inv max_level) as Hinv.
  destruct (sweep_up_members _ _ _ _ x Hinv Hx) as [H|(_ & H2 & H3)];
    [|tauto].
  left. apply classified_In in H. destruct H as (q & Hq & Hxq & Hl & _).
  split; [assumption|].
  apply partition_cells_In in Hq. destruct Hq as (Hq & Hmin & _).
  pose proof (quadtree_inv_flatten _ q Hinv Hq) as Hqinv.
  destruct (flatten_range q x Hqinv Hxq) as (Hlev & _). lia.
Qed.

(** X10. The list that is returned holds no cell twice; every member is
    a cell of the grid of [max_level], and its level lies between
    [min_level] and [max_level]. *)
Theorem empties_list_members (doc : GeoJSON) (min_level max_level : Z)
  (empties : list WebMercatorCell) :
  generate_list_of_empty_tiles intersect doc min_level max_level
  = Returns empties ->
  NoDup empties
  /\ forall x, In x empties ->
       (exists root,
           generate_webmercator_grid max_level = Some root
           /\ In x (flatten root))
       /\ min_level <= level x <= max_level.
Proof.
  intros Hgen. split.
  - destruct (generate_list_returns _ _ _ _ _ Hgen)
      as (features & polygons & _ & _ & ->).
    apply sweep_up_NoDup. unfold classified.
    apply classify_partitions_NoDup. constructor.
  - intros x Hx.
    destruct (empties_members _ _ _ _ x Hgen Hx) as (Hgrid & Hlev).
    split; [|lia].
    exists (grid_root max_level). split; [|assumption].
    apply generate_webmercator_grid_full.
Qed.

(** X11. Downward closure: a member of the list above the highest level
    has four children, and all four are members. *)
Theorem empties_downward_closed (doc : GeoJSON) (min_level max_level : Z)
  (empties : list WebMercatorCell) (p : WebMercatorCell) :
  generate_list_of_empty_tiles intersect doc min_level max_level
  = Returns empties ->
  In p empties -> level p < max_level ->
  forall key, exists c, getattr p key = Some c /\ In c empties.
Proof.
  intros Hgen Hp Hlev.
  destruct (empties_members _ _ _ _ p Hgen Hp) as (_ & [[H _]|[_ H]]);
    [lia | exact H].
Qed.

End EmptinessMore.

(** Two cells of one level that both hold a cell below them are the
    same cell. *)
Lemma flatten_ancestor_unique (t q q' c : WebMercatorCell) :
  quadtree_inv t ->
  In q (flatten t) -> In q' (flatten t) -> level q = level q' ->
  In c (flatten q) -> In c (flatten q') -> q = q'.
Proof.
  intros Hinv Hq Hq' Hl Hc Hc'.
  pose proof (flatten_range q c (quadtree_inv_flatten _ _ Hinv Hq) Hc)
    as (H1 & H2 & H3).
  pose proof (flatten_range q' c (quadtree_inv_flatten _ _ Hinv Hq') Hc')
    as (_ & H2' & H3').
  rewrite <- Hl in H2', H3'.
  assert (Hpos : 0 < 2 ^ (level c - level q))
    by (apply Z.pow_pos_nonneg; lia).
  apply (flatten_address_unique t); try assumption; nia.
Qed.

Lemma grid_root_level_0 (max_level : Z) : level (grid_root max_level) = 0.
Proof.
  unfold grid_root. rewrite full_tree_level. apply webmercator_root_level.
Qed.

Section EmptinessLeaves.

Variable intersect : Feature -> Feature -> option Feature.

(** Without polygons every cell of the levels asked for is found
    empty. *)
Lemma all_cells_empty_without_polygons (min_level max_level : Z) :
  0 <= min_level <= max_level ->
  forall (k : nat) (c : WebMercatorCell),
    In c (flatten (grid_root max_level)) ->
    level c = max_level - Z.of_nat k -> min_level <= level c ->
    In c (sweep_up (cells_from_min (grid_root max_level) min_level)
            min_level max_level
            (classified intersect [] min_level max_level)).
Proof.
  intros Hlv. induction k as [|k IH]; intros c Hc Hl Hmin.
  - apply leaf_classified; [assumption | assumption | lia |].
    intros q. apply does_intersect_no_polygons.
  - pose proof (grid_root_inv max_level) as Hinv.
    destruct (sweep_up_closed (grid_root max_level) Hinv min_level max_level
                (classified intersect [] min_level max_level))
      as (_ & _ & Hclosed).
    apply Hclosed.
    + apply cells_from_min_In. tauto.
    + lia.
    + intros key.
      destruct (grid_root_complete max_level c ltac:(lia) Hc) as (_ & Hkids).
      destruct (Hkids ltac:(lia) key) as (c' & Hc').
      exists c'. split; [assumption|].
      pose proof (quadtree_inv_flatten _ _ Hinv Hc) as Hcinv.
      destruct (quadtree_inv_child c c' key Hcinv Hc') as (Hq & _).
      assert (Hl' : level c' = level c + 1).
      { destruct (row_of c key) as [[[[[[k0 a] b] xa] xb] ya] yb].
        apply Hq. }
      apply IH; [exact (flatten_child _ c c' key Hc Hc') | lia | lia].
Qed.

(** X12. A cell of the highest level is in the list exactly when the
    test of that cell against the polygons clipped to its partition cell
    (the cell of level [max min_level (max_level - 7)] above it) finds
    no intersection. *)
Theorem leaf_empty_iff_no_intersection (features : list Feature)
  (min_level max_level : Z) (empties : list WebMercatorCell)
  (root q c : WebMercatorCell) :
  generate_list_of_empty_tiles intersect (FeatureCollection features)
    min_level max_level = Returns empties ->
  generate_webmercator_grid max_level = Some root ->
  In q (flatten root) -> level q = Z.max min_level (max_level - 7) ->
  In c (flatten q) -> level c = max_level ->
  (In c empties
   <-> fst (does_intersect intersect
              (clip_polygons intersect
                 (filter is_polygon_feature features) (cell_polygon q))
              c) = false).
Proof.
  intros Hgen Hroot Hq Hlq Hc Hlc.
  rewrite generate_webmercator_grid_full in Hroot.
  injection Hroot as <-.
  pose proof (grid_root_inv max_level) as Hinv.
  destruct (generate_list_returns _ _ _ _ _ Hgen)
    as (features' & polygons & Hdoc & Hfilter & ->).
  injection Hdoc as <-.
  apply filter_polygons_value in Hfilter. subst polygons.
  assert (Hpart : In q (partition_cells min_level max_level))
    by (apply partition_cells_In; repeat split; [assumption | lia | assumption]).
  split.
  - intros Hin.
    destruct (sweep_up_members _ _ _ _ c Hinv Hin) as [H|(_ & H & _)];
      [|lia].
    apply classified_In in H. destruct H as (q' & Hq' & Hcq' & _ & Hfree).
    apply partition_cells_In in Hq'. destruct Hq' as (Hq' & _ & Hlq').
    assert (q = q')
      by (apply (flatten_ancestor_unique (grid_root max_level) q q' c);
          try assumption; congruence).
    subst q'. exact Hfree.
  - intros Hfree.
    destruct (sweep_up_closed (grid_root max_level) Hinv min_level max_level
                (classified intersect (filter is_polygon_feature features)
                   min_level max_level)) as (Hmono & _).
    apply Hmono, classified_In. exists q. tauto.
Qed.

(** X13. When no feature of the collection is a polygon, every cell of
    the grid whose level is [min_level] or above is in the list, and
    nothing else is. *)
Theorem no_polygons_all_empty (features : list Feature)
  (min_level max_level : Z) :
  0 <= min_level <= max_level ->
  Forall (fun f => geometry f <> None) features ->
  filter is_polygon_feature features = [] ->
  exists empties root,
    generate_list_of_empty_tiles intersect (FeatureCollection features)
      min_level max_level = Returns empties
    /\ generate_webmercator_grid max_level = Some root
    /\ forall c, In c empties <-> In c (flatten root) /\ min_level <= level c.
Proof.
  intros Hlv Hgeo Hnone.
  eexists. exists (grid_root max_level).
  split; [apply generate_list_of_collection, Hgeo|].
  split; [apply generate_webmercator_grid_full|].
  rewrite Hnone. intros c. split.
  - intros Hc.
    assert (Hgen := generate_list_of_collection intersect features
                      min_level max_level Hgeo).
    rewrite Hnone in Hgen.
    destruct (empties_members intersect _ _ _ _ c Hgen Hc) as (H1 & H2).
    split; [assumption | lia].
  - intros (Hc & Hmin).
    destruct (grid_root_complete max_level c ltac:(lia) Hc) as (Hmax & _).
    apply (all_cells_empty_without_polygons min_level max_level Hlv
             (Z.to_nat (max_level - level c)) c Hc); lia.
Qed.

End EmptinessLeaves.

Lemma empties_list_members_witness :
  exists empties,
    generate_list_of_empty_tiles no_intersection (FeatureCollection []) 0 1
    = Returns empties
    /\ NoDup empties
    /\ forall x, In x empties ->
         (exists root,
             generate_webmercator_grid 1 = Some root /\ In x (flatten root))
         /\ 0 <= level x <= 1.
Proof.
  eexists.
  assert (Hgen : generate_list_of_empty_tiles no_intersection
                   (FeatureCollection []) 0 1 = Returns _)
    by (apply generate_list_of_collection; constructor).
  split; [exact Hgen|].
  exact (empties_list_members no_intersection _ 0 1 _ Hgen).
Defined.

Lemma empties_downward_closed_witness :
  exists empties p,
    generate_list_of_empty_tiles no_intersection (FeatureCollection []) 0 1
    = Returns empties
    /\ In p empties /\ level p < 1
    /\ forall key, exists c, getattr p key = Some c /\ In c empties.
Proof.
  eexists. exists (grid_root 1).
  assert (Hgen : generate_list_of_empty_tiles no_intersection
                   (FeatureCollection []) 0 1 = Returns _)
    by (apply generate_list_of_collection; constructor).
  assert (Hin : In (grid_root 1)
                  (sweep_up (cells_from_min (grid_root 1) 0) 0 1
                     (classified no_intersection
                        (filter is_polygon_feature []) 0 1))).
  { apply (all_cells_empty_without_polygons no_intersection 0 1 ltac:(lia)
             1%nat).
    - apply flatten_self.
    - rewrite grid_root_level_0; lia.
    - rewrite grid_root_level_0; lia. }
  assert (Hl : level (grid_root 1) < 1) by (rewrite grid_root_level_0; lia).
  split; [exact Hgen|]. split; [exact Hin|]. split; [exact Hl|].
  exact (empties_downward_closed no_intersection _ 0 1 _ (grid_root 1)
           Hgen Hin Hl).
Defined.

Lemma leaf_empty_iff_no_intersection_witness :
  exists empties root q c,
    generate_list_of_empty_tiles no_intersection (FeatureCollection []) 0 1
    = Returns empties
    /\ generate_webmercator_grid 1 = Some root
    /\ In q (flatten root) /\ level q = Z.max 0 (1 - 7)
    /\ In c (flatten q) /\ level c = 1
    /\ (In c empties
        <-> fst (does_intersect no_intersection
                   (clip_polygons no_intersection
                      (filter is_polygon_feature []) (cell_polygon q))
                   c) = false).
Proof.
  destruct (grid_root_complete 1 (grid_root 1) ltac:(lia)
              (flatten_self _)) as (_ & Hkids).
  rewrite grid_root_level_0 in Hkids.
  destruct (Hkids ltac:(lia) Cell_0) as (c & Hc).
  assert (Hgen : generate_list_of_empty_tiles no_intersection
                   (FeatureCollection []) 0 1 = Returns _)
    by (apply generate_list_of_collection; constructor).
  assert (Hroot := generate_webmercator_grid_full 1).
  assert (Hq : In (grid_root 1) (flatten (grid_root 1)))
    by apply flatten_self.
  assert (Hlq : level (grid_root 1) = Z.max 0 (1 - 7))
    by (rewrite grid_root_level_0; reflexivity).
  assert (Hcq : In c (flatten (grid_root 1)))
    by exact (flatten_child _ _ c Cell_0 Hq Hc).
  assert (Hlc : level c = 1).
  { destruct (quadtree_inv_child _ c Cell_0 (grid_root_inv 1) Hc) as (H & _).
    rewrite grid_root_level_0 in H.
    destruct (row_of (grid_root 1) Cell_0) as [[[[[[k0 a] b] xa] xb] ya] yb].
    apply H. }
  eexists. exists (grid_root 1), (grid_root 1), c.
  split; [exact Hgen|]. split; [exact Hroot|]. split; [exact Hq|].
  split; [exact Hlq|]. split; [exact Hcq|]. split; [exact Hlc|].
  exact (leaf_empty_iff_no_intersection no_intersection [] 0 1 _
           (grid_root 1) (grid_root 1) c Hgen Hroot Hq Hlq Hcq Hlc).
Defined.

Lemma no_polygons_all_empty_witness :
  (0 <= 0 <= 1)
  /\ Forall (fun f => geometry f <> None) [point_feature]
  /\ filter is_polygon_feature [point_feature] = []
  /\ exists empties root,
       generate_list_of_empty_tiles no_intersection
         (FeatureCollection [point_feature]) 0 1 = Returns empties
       /\ generate_webmercator_grid 1 = Some root
       /\ forall c, In c empties <-> In c (flatten root) /\ 0 <= level c.
Proof.
  assert (H1 : 0 <= 0 <= 1) by lia.
  assert (H2 : Forall (fun f => geometry f <> None) [point_feature])
    by (repeat constructor; discriminate).
  assert (H3 : filter is_polygon_feature [point_feature] = [])
    by reflexivity.
  split; [exact H1|]. split; [exact H2|]. split; [exact H3|].
  exact (no_polygons_all_empty no_intersection [point_feature] 0 1 H1 H2 H3).
Defined.

(* ================================================================== *)
(** * The content of the merged buffer *)
(* ================================================================== *)

Lemma py_slice_whole {A : Type} (l : list A) : py_slice whole l = l.
Proof.
  unfold py_slice, whole, slice_range. cbn [fst snd skipn].
  rewrite Nat.sub_0_r. apply firstn_all.
Qed.

Lemma getitem2_whole {A : Type} (a : ndarray A) : getitem2 whole whole a = a.
Proof.
  unfold getitem2. rewrite py_slice_whole.
  induction a as [|row a IH]; cbn [map]; [reflexivity|].
  rewrite py_slice_whole, IH. reflexivity.
Qed.

(** The sixteen assignments of [_generate_merged_cell_from_subcells]:
    the offset of the neighbour at [level + 1] from [(2i, 2j)], the rows
    and columns of the buffer that are assigned, and the rows and
    columns of the neighbour's thumbnail that are read. *)
Definition merge_blocks : list (Z * Z * Slice * Slice * Slice * Slice) :=
  [ (0, 0, between 8 136, between 8 136, whole, whole);
    (1, 0, between 8 136, between 136 264, whole, whole);
    (0, 1, between 136 264, between 8 136, whole, whole);
    (1, 1, between 136 264, between 136 264, whole, whole);
    (-1, -1, upto 8, upto 8, from (-8), from (-8));
    (0, -1, upto 8, between 8 136, from (-8), whole);
    (1, -1, upto 8, between 136 264, from (-8), whole);
    (2, -1, upto 8, from 264, from (-8), upto 8);
    (-1, 0, between 8 136, upto 8, whole, from (-8));
    (2, 0, between 8 136, from 264, whole, upto 8);
    (-1, 1, between 136 264, upto 8, whole, from (-8));
    (2, 1, between 136 264, from 264, whole, upto 8);
    (-1, 2, from 264, upto 8, upto 8, from (-8));
    (0, 2, from 264, between 8 136, upto 8, whole);
    (1, 2, from 264, between 136 264, upto 8, whole);
    (2, 2, from 264, from 264, upto 8, upto 8) ].

(** An index that lies in the range a slice selects. *)
Definition in_slice (s : Slice) (n k : nat) : Prop :=
  (fst (slice_range s n) <= k < snd (slice_range s n))%nat.

(** X14. After the sixteen assignments every assigned block of the
    buffer still holds what was assigned to it: the four thumbnails of
    the children in the core, and around them the strips of the twelve
    neighbours that face the cell.  No assignment overwrites another,
    and the blocks leave no pixel of the buffer out. *)
Theorem merged_buffer_blocks (tile_directory : TileStore)
  (cell : WebMercatorCell) (level : Z) :
  thumbnails_ok tile_directory (level + 1) ->
  exists data,
    merged_heightdata tile_directory cell level = Returns data
    /\ has_shape 272 272 data
    /\ (forall di dj rows cols src_rows src_cols,
          In (di, dj, rows, cols, src_rows, src_cols) merge_blocks ->
          getitem2 rows cols data
          = getitem2 src_rows src_cols
              (_get_heightdata tile_directory (level + 1)
                 (2 * i cell + di) (2 * j cell + dj)))
    /\ (forall r c, (r < 272)%nat -> (c < 272)%nat ->
          exists di dj rows cols src_rows src_cols,
            In (di, dj, rows, cols, src_rows, src_cols) merge_blocks
            /\ in_slice rows 272 r /\ in_slice cols 272 c).
Proof.
  intros Hok.
  assert (Hget : forall a b,
    has_shape 128 128 (_get_heightdata tile_directory (level + 1) a b))
    by (intros a b; apply get_heightdata_shape; assumption).
  unfold merged_heightdata. cbv zeta.
  pose proof (zeros_shape 272 272) as S0.
  change (256 + 2 * 8)%nat with 272%nat.
  do 16 (assign_step (Hget (2 * i cell) (2 * j cell))
         || (match goal with
             | |- context [bind (setitem2 _ _ (getitem2 _ _
                      (_get_heightdata _ _ ?a ?b)) _) _] =>
               assign_step (Hget a b)
             | |- context [bind (setitem2 _ _
                      (_get_heightdata _ _ ?a ?b) _) _] =>
               assign_step (Hget a b)
             end)).
  eexists. split; [reflexivity|]. split; [assumption|]. split.
  - intros di dj rows cols src_rows src_cols Hin.
    cbn [merge_blocks In] in Hin.
    repeat (destruct Hin as [Hin|Hin];
            [injection Hin as <- <- <- <- <- <-|]); [..|destruct Hin];
      rewrite ?Z.add_0_r, ?getitem2_whole;
      read_strip; reflexivity.
  - intros r c Hr Hc.
    assert (Hrows : (r < 8 \/ 8 <= r < 136 \/ 136 <= r < 264
                     \/ 264 <= r < 272)%nat) by lia.
    assert (Hcols : (c < 8 \/ 8 <= c < 136 \/ 136 <= c < 264
                     \/ 264 <= c < 272)%nat) by lia.
    unfold in_slice.
    destruct Hrows as [Hr'|[Hr'|[Hr'|Hr']]];
      destruct Hcols as [Hc'|[Hc'|[Hc'|Hc']]].
    + exists (-1), (-1), (upto 8), (upto 8), (from (-8)), (from (-8)).
      split; [cbn; tauto | vm_compute slice_range; cbn [fst snd]; lia].
    + exists 0, (-1), (upto 8), (between 8 136), (from (-8)), whole.
      split; [cbn; tauto | vm_compute slice_range; cbn [fst snd]; lia].
    + exists 1, (-1), (upto 8), (between 136 264), (from (-8)), whole.
      split; [cbn; tauto | vm_compute slice_range; cbn [fst snd]; lia].
    + exists 2, (-1), (upto 8), (from 264), (from (-8)), (upto 8).
      split; [cbn; tauto | vm_compute slice_range; cbn [fst snd]; lia].
    + exists (-1), 0, (between 8 136), (upto 8), whole, (from (-8)).
      split; [cbn; tauto | vm_compute slice_range; cbn [fst snd]; lia].
    + exists 0, 0, (between 8 136), (between 8 136), whole, whole.
      split; [cbn; tauto | vm_compute slice_range; cbn [fst snd]; lia].
    + exists 1, 0, (between 8 136), (between 136 264), whole, whole.
      split; [cbn; tauto | vm_compute slice_range; cbn [fst snd]; lia].
    + exists 2, 0, (between 8 136), (from 264), whole, (upto 8).
      split; [cbn; tauto | vm_compute slice_range; cbn [fst snd]; lia].
    + exists (-1), 1, (between 136 264), (upto 8), whole, (from (-8)).
      split; [cbn; tauto | vm_compute slice_range; cbn [fst snd]; lia].
    + exists 0, 1, (between 136 264), (between 8 136), whole, whole.
      split; [cbn; tauto | vm_compute slice_range; cbn [fst snd]; lia].
    + exists 1, 1, (between 136 264), (between 136 264), whole, whole.
      split; [cbn; tauto | vm_compute slice_range; cbn [fst snd]; lia].
    + exists 2, 1, (between 136 264), (from 264), whole, (upto 8).
      split; [cbn; tauto | vm_compute slice_range; cbn [fst snd]; lia].
    + exists (-1), 2, (from 264), (upto 8), (upto 8), (from (-8)).
      split; [cbn; tauto | vm_compute slice_range; cbn [fst snd]; lia].
    + exists 0, 2, (from 264), (between 8 136), (upto 8), whole.
      split; [cbn; tauto | vm_compute slice_range; cbn [fst snd]; lia].
    + exists 1, 2, (from 264), (between 136 264), (upto 8), whole.
      split; [cbn; tauto | vm_compute slice_range; cbn [fst snd]; lia].
    + exists 2, 2, (from 264), (from 264), (upto 8), (upto 8).
      split; [cbn; tauto | vm_compute slice_range; cbn [fst snd]; lia].
Qed.

Lemma merged_buffer_blocks_witness :
  thumbnails_ok single_tile_store (0 + 1)
  /\ exists data,
      merged_heightdata single_tile_store unit_cell 0 = Returns data
      /\ has_shape 272 272 data
      /\ getitem2 (between 8 136) (between 136 264) data = ones 128 128.
Proof.
  pose proof (single_tile_store_ok (0 + 1)) as Hok.
  split; [exact Hok|].
  destruct (merged_buffer_blocks single_tile_store unit_cell 0 Hok)
    as (data & E & S & Hblocks & _).
  exists data. split; [exact E|]. split; [exact S|].
  rewrite (Hblocks 1 0 _ _ whole whole) by (cbn; tauto).
  rewrite getitem2_whole. reflexivity.
Defined.

(* ================================================================== *)
(** * Cells grouped by the block above them *)
(* ================================================================== *)

Lemma flatten_NoDup (t : WebMercatorCell) :
  quadtree_inv t -> NoDup (flatten t).
Proof.
  intros Hinv. apply (NoDup_map_inv address), flatten_address_NoDup, Hinv.
Qed.

Lemma NoDup_flat_map {A B : Type} (f : A -> list B) (l : list A) :
  NoDup l ->
  (forall x, In x l -> NoDup (f x)) ->
  (forall x y z, In x l -> In y l -> x <> y ->
                 In z (f x) -> In z (f y) -> False) ->
  NoDup (flat_map f l).
Proof.
  induction l as [|x l IH]; intros Hl Hf Hd; cbn [flat_map];
    [constructor|].
  apply NoDup_cons_iff in Hl. destruct Hl as (Hx & Hl).
  apply NoDup_app.
  - apply Hf. left. reflexivity.
  - apply IH; [assumption | |].
    + intros y Hy. apply Hf. right. assumption.
    + intros y y' z Hy Hy'. apply Hd; right; assumption.
  - intros z Hz Hz'. apply in_flat_map in Hz'.
    destruct Hz' as (y & Hy & Hzy).
    apply (Hd x y z); [left; reflexivity | right; assumption | | |];
      try assumption.
    intros ->. contradiction.
Qed.

Lemma flat_map_flat_map {A B C : Type} (f : A -> list B) (g : B -> list C)
  (l : list A) :
  flat_map g (flat_map f l) = flat_map (fun x => flat_map g (f x)) l.
Proof.
  induction l as [|x l IH]; cbn [flat_map]; [reflexivity|].
  rewrite flat_map_app, IH. reflexivity.
Qed.

Lemma flat_map_map {A B C : Type} (f : A -> B) (g : B -> list C)
  (l : list A) :
  flat_map g (map f l) = flat_map (fun x => g (f x)) l.
Proof.
  induction l as [|x l IH]; cbn [flat_map map]; [reflexivity|].
  rewrite IH. reflexivity.
Qed.

(** The cells of level [lv] below the cells of level [k]. *)
Definition cells_under (t : WebMercatorCell) (k lv : Z)
  : list WebMercatorCell :=
  flat_map (fun block => filter (fun v => level v =? lv) (flatten block))
           (filter (fun v => level v =? k) (flatten t)).

Lemma cells_under_NoDup (t : WebMercatorCell) (k lv : Z) :
  quadtree_inv t -> NoDup (cells_under t k lv).
Proof.
  intros Hinv. unfold cells_under. apply NoDup_flat_map.
  - apply NoDup_filter, flatten_NoDup, Hinv.
  - intros q Hq. apply filter_In in Hq. destruct Hq as (Hq & _).
    apply NoDup_filter, flatten_NoDup.
    exact (quadtree_inv_flatten t q Hinv Hq).
  - intros q q' c Hq Hq' Hne Hc Hc'.
    apply filter_In in Hq, Hq', Hc, Hc'.
    destruct Hq as (Hq & Hl), Hq' as (Hq' & Hl'), Hc as (Hc & _),
             Hc' as (Hc' & _).
    apply Hne.
    apply (flatten_ancestor_unique t q q' c); try assumption. lia.
Qed.

Lemma cells_under_In (t : WebMercatorCell) (k lv : Z) (c : WebMercatorCell) :
  quadtree_inv t -> level t <= k <= lv ->
  (In c (cells_under t k lv) <-> In c (flatten t) /\ level c = lv).
Proof.
  intros Hinv Hk. unfold cells_under. rewrite in_flat_map. split.
  - intros (q & Hq & Hc). apply filter_In in Hq, Hc.
    destruct Hq as (Hq & _), Hc as (Hc & Hl).
    split; [exact (flatten_trans t q c Hq Hc) | lia].
  - intros (Hc & Hl).
    destruct (flatten_ancestor t c k Hinv Hc ltac:(lia)) as (q & Hq & Hlq & Hcq).
    exists q. split; apply filter_In; split; try assumption; lia.
Qed.

Lemma cells_under_sub (t : WebMercatorCell) (k lv : Z) (c : WebMercatorCell) :
  In c (cells_under t k lv) -> In c (flatten t) /\ level c = lv.
Proof.
  unfold cells_under. rewrite in_flat_map.
  intros (q & Hq & Hc). apply filter_In in Hq, Hc.
  destruct Hq as (Hq & _), Hc as (Hc & Hl).
  split; [exact (flatten_trans t q c Hq Hc) | lia].
Qed.

(** Pruning keeps the tree a tree of quadrants. *)
Lemma prune_children_inv (condition : WebMercatorCell -> bool)
  (t : WebMercatorCell) :
  quadtree_inv t -> quadtree_inv (prune_children condition t).
Proof.
  induction t as [t IH] using cell_induction. intros Hinv.
  pose proof (prune_children_fields condition t) as Hf.
  assert (Hrow : forall key,
            row_of (prune_children condition t) key = row_of t key).
  { intros key. destruct Hf as (H1 & H2 & H3 & H4 & H5 & H6 & H7).
    destruct key; unfold row_of, row_0, row_1, row_2, row_3;
      rewrite <- ?H1, <- ?H2, <- ?H3, <- ?H4, <- ?H5, <- ?H6, <- ?H7;
      reflexivity. }
  assert (Hkey : forall key child',
            getattr (prune_children condition t) key = Some child' ->
            is_quadrant (row_of (prune_children condition t) key)
              (level (prune_children condition t) + 1) child'
            /\ quadtree_inv child').
  { intros key child' Hk. rewrite prune_children_getattr in Hk.
    unfold pruned_child in Hk.
    destruct (getattr t key) as [child|] eqn:Hc; [|discriminate].
    destruct (condition child); [discriminate|].
    injection Hk as <-.
    destruct (quadtree_inv_child t child key Hinv Hc) as (Hq & Hci).
    split; [|exact (IH key child Hc Hci)].
    rewrite Hrow. destruct Hf as (<- & _).
    destruct (prune_children_fields condition child)
      as (H1 & H2 & H3 & H4 & H5 & H6 & H7).
    destruct (row_of t key) as [[[[[[k0 a] b] xa] xb] ya] yb].
    unfold is_quadrant in *.
    rewrite <- H1, <- H2, <- H3, <- H4, <- H5, <- H6, <- H7. exact Hq. }
  apply quadtree_inv_unfold.
  apply quadtree_inv_unfold in Hinv. destruct Hinv as (Hy & _).
  split.
  { destruct Hf as (_ & _ & _ & _ & _ & <- & <-). exact Hy. }
  unfold child_inv.
  repeat split.
  - specialize (Hkey Cell_0). cbn [row_of] in Hkey.
    destruct (getattr _ (row_key (row_0 _))) eqn:E; [|exact I].
    apply Hkey. exact E.
  - specialize (Hkey Cell_1). cbn [row_of] in Hkey.
    destruct (getattr _ (row_key (row_1 _))) eqn:E; [|exact I].
    apply Hkey. exact E.
  - specialize (Hkey Cell_2). cbn [row_of] in Hkey.
    destruct (getattr _ (row_key (row_2 _))) eqn:E; [|exact I].
    apply Hkey. exact E.
  - specialize (Hkey Cell_3). cbn [row_of] in Hkey.
    destruct (getattr _ (row_key (row_3 _))) eqn:E; [|exact I].
    apply Hkey. exact E.
Qed.

(** The levels of the grid. *)
Lemma grid_root_levels (max_level : Z) (c : WebMercatorCell) :
  In c (flatten (grid_root max_level)) -> 0 <= level c <= Z.max 0 max_level.
Proof.
  intros Hc. split; [exact (grid_root_level max_level c Hc)|].
  unfold grid_root in Hc.
  destruct (full_tree_complete _ _ c webmercator_root_childless Hc) as (H & _).
  rewrite webmercator_root_level in H. lia.
Qed.

(** The tree a run works on: the grid, pruned when a checker is
    given. *)
Definition pruned_grid (max_level : Z) (checker : option EmptyChecker)
  : WebMercatorCell :=
  match checker with
  | Some ch => fst (_inner_prune_empties (grid_root max_level) ch)
  | None => grid_root max_level
  end.

Lemma pruned_grid_inv (max_level : Z) (checker : option EmptyChecker) :
  quadtree_inv (pruned_grid max_level checker).
Proof.
  unfold pruned_grid. destruct checker as [ch|]; [|apply grid_root_inv].
  rewrite (proj1 (inner_prune_spec ch _)).
  apply prune_children_inv, grid_root_inv.
Qed.

Lemma pruned_grid_level (max_level : Z) (checker : option EmptyChecker) :
  level (pruned_grid max_level checker) = 0.
Proof.
  unfold pruned_grid. destruct checker as [ch|]; [|apply grid_root_level_0].
  rewrite (proj1 (inner_prune_spec ch _)).
  destruct (prune_children_fields (checker_call ch) (grid_root max_level))
    as (<- & _).
  apply grid_root_level_0.
Qed.

Lemma pruned_grid_levels (max_level : Z) (checker : option EmptyChecker)
  (c : WebMercatorCell) :
  In c (flatten (pruned_grid max_level checker)) ->
  0 <= level c <= Z.max 0 max_level.
Proof.
  unfold pruned_grid. destruct checker as [ch|]; [|apply grid_root_levels].
  rewrite (proj1 (inner_prune_spec ch _)). intros Hc.
  apply prune_children_subset in Hc. destruct Hc as (c0 & Hc0 & ->).
  destruct (prune_children_fields (checker_call ch) c0) as (<- & _).
  apply grid_root_levels, Hc0.
Qed.

(** In the pruned grid only the root can be a cell the checker
    reports. *)
Lemma pruned_grid_clean (max_level : Z) (ch : EmptyChecker)
  (c : WebMercatorCell) :
  In c (flatten (pruned_grid max_level (Some ch))) ->
  0 < level c -> checker_call ch c = false.
Proof.
  intros Hc Hl. pose proof (pruned_grid_level max_level (Some ch)) as H0.
  unfold pruned_grid in *.
  rewrite (proj1 (inner_prune_spec ch _)) in *.
  destruct (prune_children_clean ch _ c Hc) as [->|H]; [lia | exact H].
Qed.

(* ================================================================== *)
(** * Properties of the packages *)
(* ================================================================== *)

Lemma range_up_In (start stop x : Z) :
  In x (range_up start stop) <-> start <= x < stop.
Proof.
  unfold range_up. rewrite in_map_iff. split.
  - intros (k & <- & Hk). apply in_seq in Hk. lia.
  - intros H. exists (Z.to_nat (x - start)). split; [lia|].
    apply in_seq. lia.
Qed.

Lemma range_up_NoDup (start stop : Z) : NoDup (range_up start stop).
Proof.
  unfold range_up. apply NoDup_map_NoDup_ForallPairs; [|apply seq_NoDup].
  intros a b _ _ H. lia.
Qed.

Lemma range_down_In (start stop x : Z) :
  In x (range_down start stop) <-> stop < x <= start.
Proof.
  unfold range_down. rewrite in_map_iff. split.
  - intros (k & <- & Hk). apply in_seq in Hk. lia.
  - intros H. exists (Z.to_nat (start - x)). split; [lia|].
    apply in_seq. lia.
Qed.

Lemma range_down_NoDup (start stop : Z) : NoDup (range_down start stop).
Proof.
  unfold range_down. apply NoDup_map_NoDup_ForallPairs; [|apply seq_NoDup].
  intros a b _ _ H. lia.
Qed.

Lemma map_flat_map {A B C : Type} (f : A -> list B) (g : B -> C)
  (l : list A) :
  map g (flat_map f l) = flat_map (fun x => map g (f x)) l.
Proof.
  induction l as [|x l IH]; cbn [flat_map map]; [reflexivity|].
  rewrite map_app, IH. reflexivity.
Qed.

Lemma insert_package_perm (p : ZipPackage) (l : list ZipPackage) :
  Permutation (insert_package p l) (p :: l).
Proof.
  induction l as [|q l IH]; cbn [insert_package]; [reflexivity|].
  destruct (key_leb (key p) (key q)); [reflexivity|].
  rewrite IH. apply perm_swap.
Qed.

Lemma sort_packages_perm (l : list ZipPackage) :
  Permutation (sort_packages l) l.
Proof.
  unfold sort_packages. induction l as [|p l IH]; cbn [fold_right];
    [reflexivity|].
  rewrite insert_package_perm. constructor. exact IH.
Qed.

Section PackagesFacts.

Variable block_description : Z -> WebMercatorCell -> string.

Lemma packages_partition (max_level : Z)
  (checker : option EmptyChecker) :
  exists packages grid,
    create_packages block_description max_level checker = Some packages
    /\ generate_webmercator_grid max_level = Some grid
    /\ let root := match checker with
                   | Some ch => fst (_inner_prune_empties grid ch)
                   | None => grid
                   end in
       NoDup (map key packages)
       /\ NoDup (flat_map tiles packages)
       /\ forall c, In c (flat_map tiles packages) <-> In c (flatten root).
Proof.
  unfold create_packages. rewrite generate_webmercator_grid_full.
  fold (grid_root max_level).
  eexists. exists (grid_root max_level).
  split; [reflexivity|]. split; [reflexivity|]. cbv zeta.
  fold (pruned_grid max_level checker).
  pose proof (pruned_grid_inv max_level checker) as Hinv.
  pose proof (pruned_grid_level max_level checker) as Hl0.
  pose proof (pruned_grid_levels max_level checker) as Hlv.
  set (root := pruned_grid max_level checker) in *.
  set (first := mkZipPackage (0, 0, 0) _ _ _).
  set (others := flat_map _ (range_up 6 (max_level + 1))).
  assert (Hperm : Permutation (sort_packages ([first] ++ others))
                              (first :: others))
    by apply sort_packages_perm.
  assert (Htiles : flat_map tiles others
                   = flat_map (fun lvl => cells_under root (lvl - 6) lvl)
                              (range_up 6 (max_level + 1))).
  { unfold others. rewrite flat_map_flat_map.
    apply flat_map_ext. intros lvl. rewrite flat_map_map. reflexivity. }
  split; [|split].
  - apply (Permutation_NoDup (Permutation_sym (Permutation_map key Hperm))).
    cbn [map]. constructor.
    + intros Hin. apply in_map_iff in Hin. destruct Hin as (p & Hk & Hp).
      unfold others in Hp. apply in_flat_map in Hp.
      destruct Hp as (lvl & Hlvl & Hp). apply in_map_iff in Hp.
      destruct Hp as (b & <- & _). apply range_up_In in Hlvl.
      cbn in Hk. injection Hk as Hk _ _. lia.
    + unfold others. rewrite map_flat_map.
      apply NoDup_flat_map.
      * apply range_up_NoDup.
      * intros lvl _. rewrite map_map.
        apply NoDup_map_NoDup_ForallPairs.
        -- intros b b' Hb Hb' Hk. apply filter_In in Hb, Hb'.
           destruct Hb as (Hb & Hbl), Hb' as (Hb' & Hbl').
           cbn in Hk. injection Hk as Hi Hj.
           apply (flatten_address_unique root); try assumption. lia.
        -- apply NoDup_filter, flatten_NoDup, Hinv.
      * intros lvl lvl' k _ _ Hne Hk Hk'.
        rewrite map_map in Hk, Hk'.
        apply in_map_iff in Hk, Hk'.
        destruct Hk as (b & <- & _), Hk' as (b' & Hk' & _).
        cbn in Hk'. injection Hk' as Hk' _ _. congruence.
  - apply (Permutation_NoDup
             (Permutation_sym (Permutation_flat_map tiles Hperm))).
    cbn [flat_map]. apply NoDup_app.
    + cbn [tiles first]. apply NoDup_filter, flatten_NoDup, Hinv.
    + rewrite Htiles. apply NoDup_flat_map.
      * apply range_up_NoDup.
      * intros lvl _. apply cells_under_NoDup, Hinv.
      * intros lvl lvl' c _ _ Hne Hc Hc'.
        apply cells_under_sub in Hc, Hc'. lia.
    + intros c Hc Hc'. cbn [tiles first] in Hc. apply filter_In in Hc.
      rewrite Htiles in Hc'. apply in_flat_map in Hc'.
      destruct Hc' as (lvl & Hlvl & Hc'). apply range_up_In in Hlvl.
      apply cells_under_sub in Hc'. lia.
  - intros c.
    assert (Hiff : In c (flat_map tiles (sort_packages ([first] ++ others)))
                   <-> In c (flat_map tiles (first :: others))).
    { pose proof (Permutation_flat_map tiles Hperm) as P.
      split; apply Permutation_in; [exact P | exact (Permutation_sym P)]. }
    rewrite Hiff. clear Hiff.
    cbn [flat_map]. rewrite in_app_iff, Htiles. cbn [tiles first].
    rewrite filter_In, in_flat_map. split.
    + intros [(Hc & _)|(lvl & _ & Hc)]; [assumption|].
      apply cells_under_sub in Hc. tauto.
    + intros Hc. destruct (Z.le_gt_cases (level c) 5) as [H5|H5].
      * left. split; [assumption | lia].
      * right. exists (level c). pose proof (Hlv c Hc) as Hb. split.
        -- apply range_up_In. lia.
        -- apply cells_under_In; [assumption | lia | tauto].
Qed.

(** X15. The packages split the cells of the tree (the grid, pruned
    when asked for): every cell is among the tiles of a package, no
    cell is listed twice, within a package or in two of them, and no two
    packages share a key. *)
Theorem create_packages_partition (max_level : Z)
  (checker : option EmptyChecker) :
  exists packages grid,
    create_packages block_description max_level checker = Some packages
    /\ generate_webmercator_grid max_level = Some grid
    /\ let root := match checker with
                   | Some ch => fst (_inner_prune_empties grid ch)
                   | None => grid
                   end in
       NoDup (map key packages)
       /\ NoDup (flat_map tiles packages)
       /\ forall c, In c (flat_map tiles packages) <-> In c (flatten root).
Proof.
  exact (packages_partition max_level checker).
Qed.

End PackagesFacts.

(* ================================================================== *)
(** * Properties of the tiles a run generates *)
(* ================================================================== *)

Lemma flat_map_ext_In {A B : Type} (f g : A -> list B) (l : list A) :
  (forall x, In x l -> f x = g x) -> flat_map f l = flat_map g l.
Proof.
  induction l as [|x l IH]; intros H; cbn [flat_map]; [reflexivity|].
  rewrite (H x (or_introl eq_refl)), IH; [reflexivity|].
  intros y Hy. apply H. right. assumption.
Qed.

Lemma StronglySorted_app {A : Type} (R : A -> A -> Prop) (l l' : list A) :
  StronglySorted R l -> StronglySorted R l' ->
  (forall a b, In a l -> In b l' -> R a b) ->
  StronglySorted R (l ++ l').
Proof.
  induction l as [|x l IH]; intros Hl Hl' H; cbn [app]; [assumption|].
  apply StronglySorted_inv in Hl. destruct Hl as (Hl & Hx).
  constructor.
  - apply IH; [assumption | assumption |].
    intros a b Ha Hb. apply H; [right|]; assumption.
  - apply Forall_app. split; [assumption|].
    apply Forall_forall. intros b Hb. apply H; [left; reflexivity|assumption].
Qed.

Lemma range_down_sorted (start stop : Z) :
  StronglySorted (fun a b => b < a) (range_down start stop).
Proof.
  unfold range_down.
  generalize (Z.to_nat (start - stop)) as n. generalize 0%nat as s.
  intros s n. revert s.
  induction n as [|n IH]; intros s; cbn [seq map]; constructor.
  - apply IH.
  - apply Forall_forall. intros b Hb. apply in_map_iff in Hb.
    destruct Hb as (k & <- & Hk). apply in_seq in Hk. lia.
Qed.

(** The merges run from the highest level down. *)
Lemma merge_calls_sorted (all_cells : list WebMercatorCell)
  (maxlevel minlevel : Z) :
  StronglySorted (fun a b => snd b <= snd a)
    (hierarchically_merge_lower_level_cells all_cells maxlevel minlevel).
Proof.
  unfold hierarchically_merge_lower_level_cells.
  pose proof (range_down_sorted maxlevel (minlevel - 1)) as Hs.
  induction Hs as [|lvl levels Hs IH Hlt]; cbn [flat_map]; [constructor|].
  apply StronglySorted_app; [| exact IH |].
  - induction (filter (fun v => level v =? lvl) all_cells) as [|c cs IHc];
      cbn [map]; constructor; [exact IHc|].
    apply Forall_forall. intros b Hb. apply in_map_iff in Hb.
    destruct Hb as (c' & <- & _). cbn. lia.
  - intros a b Ha Hb. apply in_map_iff in Ha. destruct Ha as (c & <- & _).
    apply in_flat_map in Hb. destruct Hb as (lvl' & Hlvl' & Hb).
    apply in_map_iff in Hb. destruct Hb as (c' & <- & _).
    rewrite Forall_forall in Hlt. specialize (Hlt lvl' Hlvl'). cbn. lia.
Qed.

Lemma merge_calls_cells (all_cells : list WebMercatorCell)
  (maxlevel minlevel : Z) :
  map fst (hierarchically_merge_lower_level_cells all_cells maxlevel minlevel)
  = flat_map (fun lvl => filter (fun v => level v =? lvl) all_cells)
             (range_down maxlevel (minlevel - 1)).
Proof.
  unfold hierarchically_merge_lower_level_cells. rewrite map_flat_map.
  apply flat_map_ext. intros lvl. rewrite map_map. cbn [fst]. apply map_id.
Qed.

Lemma merge_calls_In (all_cells : list WebMercatorCell)
  (maxlevel minlevel : Z) (c : WebMercatorCell) (lvl : Z) :
  In (c, lvl)
     (hierarchically_merge_lower_level_cells all_cells maxlevel minlevel)
  <-> In c all_cells /\ lvl = level c /\ minlevel <= lvl <= maxlevel.
Proof.
  unfold hierarchically_merge_lower_level_cells. rewrite in_flat_map. split.
  - intros (lvl' & Hlvl' & Hc). apply in_map_iff in Hc.
    destruct Hc as (c' & [= -> ->] & Hc'). apply filter_In in Hc'.
    apply range_down_In in Hlvl'. destruct Hc' as (Hc' & Hl).
    split; [assumption|]. lia.
  - intros (Hc & -> & Hl). exists (level c). split.
    + apply range_down_In. lia.
    + apply in_map_iff. exists c. split; [reflexivity|].
      apply filter_In. split; [assumption | lia].
Qed.

Lemma merge_calls_NoDup (all_cells : list WebMercatorCell)
  (maxlevel minlevel : Z) :
  NoDup all_cells ->
  NoDup (map fst (hierarchically_merge_lower_level_cells all_cells
                    maxlevel minlevel)).
Proof.
  intros Hnd. rewrite merge_calls_cells. apply NoDup_flat_map.
  - apply range_down_NoDup.
  - intros lvl _. apply NoDup_filter, Hnd.
  - intros lvl lvl' c _ _ Hne Hc Hc'. apply filter_In in Hc, Hc'. lia.
Qed.

(** Below a block of the pruned grid the checker rejects nothing, so
    the tiles generated for the block are its cells of the level. *)
Lemma generate_mercator_tile_grid_cells (max_level : Z)
  (checker : EmptyChecker) (lvl : Z) (node : WebMercatorCell) :
  In node (flatten (pruned_grid max_level (Some checker))) ->
  0 < level node -> 0 < lvl ->
  generate_mercator_tile_grid node checker lvl
  = filter (fun v => level v =? lvl) (flatten node).
Proof.
  intros Hnode Hl Hlvl. unfold generate_mercator_tile_grid.
  rewrite (pruned_grid_clean max_level checker node Hnode Hl).
  apply filter_ext_in. intros v Hv.
  destruct (level v =? lvl) eqn:E; [|reflexivity].
  rewrite (pruned_grid_clean max_level checker v); [reflexivity | | lia].
  exact (flatten_trans _ node v Hnode Hv).
Qed.

(** X16. With [max_level] at least 7 (as the command line demands) and
    [min_level] at most [max_level], a run writes every cell of the
    pruned grid from [min_level] up exactly once: the cells of
    [max_level] are generated from the height data, block by block, and
    every other cell is merged once, at its own level, the merges going
    from level [max_level - 1] down. *)
Theorem generate_tiles_once (min_level max_level : Z)
  (checker : EmptyChecker) :
  7 <= max_level -> min_level <= max_level ->
  exists generated merged grid,
    generate_tiles min_level max_level checker = Some (generated, merged)
    /\ generate_webmercator_grid max_level = Some grid
    /\ let root := fst (_inner_prune_empties grid checker) in
       NoDup (generated ++ map fst merged)
       /\ (forall c, In c generated
                     <-> In c (flatten root) /\ level c = max_level)
       /\ (forall c lvl,
             In (c, lvl) merged
             <-> In c (flatten root) /\ lvl = level c
                 /\ min_level <= level c < max_level)
       /\ StronglySorted (fun a b => snd b <= snd a) merged.
Proof.
  intros H7 Hmin. unfold generate_tiles.
  rewrite generate_webmercator_grid_full. fold (grid_root max_level).
  eexists. eexists. exists (grid_root max_level).
  split; [reflexivity|]. split; [reflexivity|]. cbv zeta.
  change (fst (_inner_prune_empties (grid_root max_level) checker))
    with (pruned_grid max_level (Some checker)).
  pose proof (pruned_grid_inv max_level (Some checker)) as Hinv.
  pose proof (pruned_grid_level max_level (Some checker)) as Hl0.
  pose proof (pruned_grid_levels max_level (Some checker)) as Hlv.
  set (root := pruned_grid max_level (Some checker)) in *.
  set (blocklevel := Z.max (Z.max min_level 7) (max_level - 5)).
  assert (Hgen : flat_map
                   (fun node =>
                      generate_mercator_tile_grid node checker max_level)
                   (filter (fun n => level n =? blocklevel) (flatten root))
                 = cells_under root blocklevel max_level).
  { unfold cells_under. apply flat_map_ext_In. intros node Hnode.
    apply filter_In in Hnode. destruct Hnode as (Hnode & Hl).
    apply (generate_mercator_tile_grid_cells max_level);
      [assumption | unfold blocklevel in Hl; lia | lia]. }
  rewrite Hgen.
  assert (Hgen_In : forall c, In c (cells_under root blocklevel max_level)
                              <-> In c (flatten root) /\ level c = max_level).
  { intros c. apply cells_under_In; [assumption|].
    unfold blocklevel. lia. }
  assert (Hall : NoDup (filter (fun cell => level cell >=? min_level)
                               (flatten root)))
    by apply NoDup_filter, flatten_NoDup, Hinv.
  split; [|split; [|split]].
  - apply NoDup_app.
    + apply cells_under_NoDup, Hinv.
    + apply merge_calls_NoDup, Hall.
    + intros c Hc Hc'. apply Hgen_In in Hc. apply in_map_iff in Hc'.
      destruct Hc' as ((c' & lvl) & Heq & Hc'). cbn in Heq. subst c'.
      apply merge_calls_In in Hc'. lia.
  - exact Hgen_In.
  - intros c lvl. rewrite merge_calls_In, filter_In, Z.geb_le.
    split.
    + intros ((Hc & Hm) & -> & Hl). repeat split; try assumption; lia.
    + intros (Hc & -> & Hl). repeat split; try assumption; lia.
  - apply merge_calls_sorted.
Qed.

Lemma generate_tiles_once_witness :
  7 <= 7 /\ 0 <= 7
  /\ exists generated merged grid,
       generate_tiles 0 7 [] = Some (generated, merged)
       /\ generate_webmercator_grid 7 = Some grid
       /\ let root := fst (_inner_prune_empties grid []) in
          NoDup (generated ++ map fst merged)
          /\ (forall c, In c generated
                        <-> In c (flatten root) /\ level c = 7)
          /\ (forall c lvl,
                In (c, lvl) merged
                <-> In c (flatten root) /\ lvl = level c
                    /\ 0 <= level c < 7)
          /\ StronglySorted (fun a b => snd b <= snd a) merged.
Proof.
  assert (H7 : 7 <= 7) by lia.
  assert (H0 : 0 <= 7) by lia.
  split; [exact H7|]. split; [exact H0|].
  exact (generate_tiles_once 0 7 [] H7 H0).
Defined.

(** X17. With [max_level] below 7 no tile is generated from the height
    data: the blocks are looked for at a level of at least 7, which the
    grid does not reach. *)
Theorem generate_tiles_below_block_level (min_level max_level : Z)
  (checker : EmptyChecker) :
  max_level < 7 ->
  exists merged,
    generate_tiles min_level max_level checker = Some ([], merged).
Proof.
  intros H7. unfold generate_tiles.
  rewrite generate_webmercator_grid_full. fold (grid_root max_level).
  eexists. cbv zeta.
  change (fst (_inner_prune_empties (grid_root max_level) checker))
    with (pruned_grid max_level (Some checker)).
  pose proof (pruned_grid_levels max_level (Some checker)) as Hlv.
  set (root := pruned_grid max_level (Some checker)) in *.
  assert (Hnone : filter (fun n => level n
                                   =? Z.max (Z.max min_level 7)
                                            (max_level - 5))
                         (flatten root) = []).
  { induction (flatten root) as [|c cs IH]; cbn [filter]; [reflexivity|].
    assert (Hc : 0 <= level c <= Z.max 0 max_level)
      by (apply Hlv; left; reflexivity).
    destruct (Z.eqb_spec (level c)
                (Z.max (Z.max min_level 7) (max_level - 5))); [lia|].
    apply IH. intros c' Hc'. apply Hlv. right. assumption. }
  rewrite Hnone. reflexivity.
Qed.

Lemma generate_tiles_below_block_level_witness :
  3 < 7 /\ exists merged, generate_tiles 0 3 [] = Some ([], merged).
Proof.
  assert (H : 3 < 7) by lia.
  split; [exact H | exact (generate_tiles_below_block_level 0 3 [] H)].
Defined.

(* ================================================================== *)
(** * Properties of the SRTM tiles of a cell *)
(* ================================================================== *)

(** The corners of the cell with its margin, as longitudes and
    latitudes. *)
Definition margin_of (self : WebMercatorCell) (mercator_margin : R) : R :=
  (mercator_margin * (x1 self - x0 self))%R.

Definition minlng_of (self : WebMercatorCell) (m : R) : R :=
  snd (invert_mercator (x0 self - margin_of self m)
                       (y0 self + margin_of self m)).

Definition maxlng_of (self : WebMercatorCell) (m : R) : R :=
  snd (invert_mercator (x1 self + margin_of self m)
                       (y1 self - margin_of self m)).

Definition minlat_of (self : WebMercatorCell) (m : R) : R :=
  fst (invert_mercator (x1 self + margin_of self m)
                       (y1 self - margin_of self m)).

Definition maxlat_of (self : WebMercatorCell) (m : R) : R :=
  fst (invert_mercator (x0 self - margin_of self m)
                       (y0 self + margin_of self m)).

Lemma get_srtm_tile_indices_In (self : WebMercatorCell) (m : R) (a b : Z) :
  In (a, b) (get_srtm_tile_indices self m)
  <-> Zfloor (minlng_of self m) <= a < Zceil (maxlng_of self m)
      /\ Zfloor (minlat_of self m) <= b < Zceil (maxlat_of self m).
Proof.
  unfold get_srtm_tile_indices, minlng_of, maxlng_of, minlat_of, maxlat_of,
    margin_of, invert_mercator.
  cbn [fst snd]. rewrite in_flat_map. split.
  - intros (x & Hx & Hy). apply in_map_iff in Hy.
    destruct Hy as (y & [= -> ->] & Hy).
    apply range_up_In in Hx, Hy. tauto.
  - intros (Ha & Hb). exists a. split; [apply range_up_In, Ha|].
    apply in_map_iff. exists b. split; [reflexivity | apply range_up_In, Hb].
Qed.

Section Extent.

Local Open Scope R_scope.

Lemma invert_longitude_le (x x' y y' : R) :
  x <= x' -> snd (invert_mercator x y) <= snd (invert_mercator x' y').
Proof.
  intros Hx. unfold invert_mercator; cbn [snd].
  pose proof PI_RGT_0 as HPI.
  unfold Rdiv. apply Rmult_le_compat_r.
  - apply Rlt_le, Rinv_0_lt_compat. unfold R_sphere. lra.
  - apply Rmult_le_compat_r; [apply Rlt_le, Rinv_0_lt_compat, HPI | lra].
Qed.

Lemma invert_longitude_lt (x x' y y' : R) :
  x < x' -> snd (invert_mercator x y) < snd (invert_mercator x' y').
Proof.
  intros Hx. unfold invert_mercator; cbn [snd].
  pose proof PI_RGT_0 as HPI.
  unfold Rdiv. apply Rmult_lt_compat_r.
  - apply Rinv_0_lt_compat. unfold R_sphere. lra.
  - apply Rmult_lt_compat_r; [apply Rinv_0_lt_compat, HPI | lra].
Qed.

Lemma invert_latitude_le (x x' y y' : R) :
  y <= y' -> fst (invert_mercator x y) <= fst (invert_mercator x' y').
Proof.
  intros [Hy | ->].
  - apply Rlt_le, invert_latitude_increasing, Hy.
  - unfold invert_mercator; cbn [fst]. lra.
Qed.

(** A point of an interval with more than one point lies in one of the
    unit intervals from [Zfloor lo] up to [Zceil hi]. *)
Lemma unit_interval_cover (lo hi v : R) :
  lo < hi -> lo <= v <= hi ->
  exists a : Z,
    (Zfloor lo <= a < Zceil hi)%Z /\ IZR a <= v <= IZR a + 1.
Proof.
  intros Hlt (Hlo & Hhi).
  pose proof (Zfloor_bound lo) as Hfl.
  pose proof (Zceil_bound hi) as Hch.
  destruct (Rlt_dec v hi) as [Hv|Hv].
  - exists (Zfloor v). pose proof (Zfloor_bound v) as Hfv.
    split; [|lra]. split.
    + apply Zfloor_le, Hlo.
    + apply lt_IZR. lra.
  - assert (v = hi) by lra. subst v.
    exists (Zceil hi - 1)%Z. rewrite minus_IZR. split; [|lra].
    split; [|lia].
    assert (Zfloor lo < Zceil hi)%Z by (apply lt_IZR; lra). lia.
Qed.

End Extent.

(** X18. The SRTM tiles of a cell cover the cell and its margin: every
    point of the box, extended by the margin on each side, has its
    longitude and latitude in the one-degree square of one of the
    indices. *)
Theorem srtm_tiles_cover_cell (self : WebMercatorCell)
  (mercator_margin x y : R) :
  (x0 self < x1 self)%R -> (y1 self < y0 self)%R ->
  (0 <= mercator_margin)%R ->
  let margin := (mercator_margin * (x1 self - x0 self))%R in
  (x0 self - margin <= x <= x1 self + margin)%R ->
  (y1 self - margin <= y <= y0 self + margin)%R ->
  exists a b,
    In (a, b) (get_srtm_tile_indices self mercator_margin)
    /\ (IZR a <= snd (invert_mercator x y) <= IZR a + 1)%R
    /\ (IZR b <= fst (invert_mercator x y) <= IZR b + 1)%R.
Proof.
  intros Hx Hy Hm margin Hxr Hyr.
  assert (Hmargin : (0 <= margin)%R)
    by (unfold margin; apply Rmult_le_pos; lra).
  destruct (unit_interval_cover (minlng_of self mercator_margin)
              (maxlng_of self mercator_margin)
              (snd (invert_mercator x y))) as (a & Ha & Hav).
  { unfold minlng_of, maxlng_of. fold (margin_of self mercator_margin).
    apply invert_longitude_lt. unfold margin_of. fold margin. lra. }
  { unfold minlng_of, maxlng_of, margin_of. fold margin.
    split; apply invert_longitude_le; lra. }
  destruct (unit_interval_cover (minlat_of self mercator_margin)
              (maxlat_of self mercator_margin)
              (fst (invert_mercator x y))) as (b & Hb & Hbv).
  { unfold minlat_of, maxlat_of, margin_of. fold margin.
    apply invert_latitude_increasing. lra. }
  { unfold minlat_of, maxlat_of, margin_of. fold margin.
    split; apply invert_latitude_le; lra. }
  exists a, b. split; [|split; assumption].
  apply get_srtm_tile_indices_In. split; assumption.
Qed.

Lemma srtm_tiles_cover_cell_witness :
  (0 < 1)%R /\ (0 < 1)%R /\ (0 <= 0)%R
  /\ (0 - 0 * (1 - 0) <= 0 <= 1 + 0 * (1 - 0))%R
  /\ (0 - 0 * (1 - 0) <= 1 <= 1 + 0 * (1 - 0))%R
  /\ exists a b,
       In (a, b) (get_srtm_tile_indices unit_cell 0)
       /\ (IZR a <= snd (invert_mercator 0 1) <= IZR a + 1)%R
       /\ (IZR b <= fst (invert_mercator 0 1) <= IZR b + 1)%R.
Proof.
  assert (H1 : (0 < 1)%R) by lra.
  assert (H2 : (0 <= 0)%R) by lra.
  assert (H3 : (0 - 0 * (1 - 0) <= 0 <= 1 + 0 * (1 - 0))%R) by lra.
  assert (H4 : (0 - 0 * (1 - 0) <= 1 <= 1 + 0 * (1 - 0))%R) by lra.
  split; [exact H1|]. split; [exact H1|]. split; [exact H2|].
  split; [exact H3|]. split; [exact H4|].
  exact (srtm_tiles_cover_cell unit_cell 0 0 1 H1 H1 H2 H3 H4).
Defined.

Lemma fold_min_spec (rest : list Z) :
  forall v,
    In (fold_left Z.min rest v) (v :: rest)
    /\ forall w, In w (v :: rest) -> fold_left Z.min rest v <= w.
Proof.
  induction rest as [|u rest IH]; intros v; cbn [fold_left].
  - split; [left; reflexivity|]. intros w [<-|[]]. lia.
  - destruct (IH (Z.min v u)) as (Hin & Hle). split.
    + destruct Hin as [Hin|Hin]; [|right; right; assumption].
      rewrite <- Hin. destruct (Z.min_spec v u) as [(_ & ->)|(_ & ->)];
        [left | right; left]; reflexivity.
    + intros w [<-|[<-|Hw]].
      * specialize (Hle (Z.min v u) (or_introl eq_refl)). lia.
      * specialize (Hle (Z.min v u) (or_introl eq_refl)). lia.
      * apply Hle. right. assumption.
Qed.

Lemma fold_max_spec (rest : list Z) :
  forall v,
    In (fold_left Z.max rest v) (v :: rest)
    /\ forall w, In w (v :: rest) -> w <= fold_left Z.max rest v.
Proof.
  induction rest as [|u rest IH]; intros v; cbn [fold_left].
  - split; [left; reflexivity|]. intros w [<-|[]]. lia.
  - destruct (IH (Z.max v u)) as (Hin & Hle). split.
    + destruct Hin as [Hin|Hin]; [|right; right; assumption].
      rewrite <- Hin. destruct (Z.max_spec v u) as [(_ & ->)|(_ & ->)];
        [right; left | left]; reflexivity.
    + intros w [<-|[<-|Hw]].
      * specialize (Hle (Z.max v u) (or_introl eq_refl)). lia.
      * specialize (Hle (Z.max v u) (or_introl eq_refl)). lia.
      * apply Hle. right. assumption.
Qed.

Lemma py_min_spec (l : list Z) (lo hi : Z) :
  lo < hi -> (forall v, In v l <-> lo <= v < hi) -> py_min l = Returns lo.
Proof.
  intros Hlt Hl. destruct l as [|v rest].
  - exfalso. apply (proj2 (Hl lo)). lia.
  - cbn [py_min]. f_equal.
    destruct (fold_min_spec rest v) as (Hin & Hle).
    apply Hl in Hin. specialize (Hle lo (proj2 (Hl lo) ltac:(lia))). lia.
Qed.

Lemma py_max_spec (l : list Z) (lo hi : Z) :
  lo < hi -> (forall v, In v l <-> lo <= v < hi) ->
  py_max l = Returns (hi - 1).
Proof.
  intros Hlt Hl. destruct l as [|v rest].
  - exfalso. apply (proj2 (Hl lo)). lia.
  - cbn [py_max]. f_equal.
    destruct (fold_max_spec rest v) as (Hin & Hle).
    apply Hl in Hin.
    specialize (Hle (hi - 1) (proj2 (Hl (hi - 1)) ltac:(lia))). lia.
Qed.

Lemma range_up_length (start stop : Z) :
  length (range_up start stop) = Z.to_nat (stop - start).
Proof. unfold range_up. rewrite length_map, length_seq. reflexivity. Qed.

Lemma product_length {A B : Type} (l : list A) (l' : list B) :
  length (flat_map (fun x => map (fun y => (x, y)) l') l)
  = (length l * length l')%nat.
Proof.
  induction l as [|x l IH]; cbn [flat_map length]; [reflexivity|].
  rewrite length_app, length_map, IH. reflexivity.
Qed.

(** X19. For a cell with [x0 < x1] and [y1 < y0] the extent is found
    (the list of indices is not empty), and the indices are exactly the
    pairs of the rectangle between the bounds returned: as many as the
    [delta_lng * delta_lat] tiles the caller makes room for. *)
Theorem get_latlng_extent_rectangle (node : WebMercatorCell) :
  (x0 node < x1 node)%R -> (y1 node < y0 node)%R ->
  exists indices lng_min lng_max lat_min lat_max,
    _get_latlng_extent node
    = Returns (indices, lng_min, lng_max, lat_min, lat_max)
    /\ indices = get_srtm_tile_indices node (1.1 * 8 / 256)
    /\ lng_min <= lng_max /\ lat_min <= lat_max
    /\ (forall a b, In (a, b) indices
                    <-> lng_min <= a <= lng_max /\ lat_min <= b <= lat_max)
    /\ Z.of_nat (length indices)
       = (lng_max + 1 - lng_min) * (lat_max + 1 - lat_min).
Proof.
  intros Hx Hy.
  set (m := (1.1 * 8 / 256)%R).
  assert (Hmargin : (0 <= margin_of node m)%R)
    by (unfold margin_of, m; apply Rmult_le_pos; lra).
  pose proof (get_srtm_tile_indices_In node m) as Hin.
  set (lng0 := Zfloor (minlng_of node m)) in *.
  set (lng1 := Zceil (maxlng_of node m)) in *.
  set (lat0 := Zfloor (minlat_of node m)) in *.
  set (lat1 := Zceil (maxlat_of node m)) in *.
  assert (Hlng : lng0 < lng1).
  { apply lt_IZR.
    pose proof (Zfloor_bound (minlng_of node m)) as H1.
    pose proof (Zceil_bound (maxlng_of node m)) as H2.
    assert ((minlng_of node m < maxlng_of node m)%R)
      by (apply invert_longitude_lt; lra).
    fold lng0 in H1. fold lng1 in H2. lra. }
  assert (Hlat : lat0 < lat1).
  { apply lt_IZR.
    pose proof (Zfloor_bound (minlat_of node m)) as H1.
    pose proof (Zceil_bound (maxlat_of node m)) as H2.
    assert ((minlat_of node m < maxlat_of node m)%R)
      by (apply invert_latitude_increasing; lra).
    fold lat0 in H1. fold lat1 in H2. lra. }
  assert (Hfst : forall v, In v (map fst (get_srtm_tile_indices node m))
                           <-> lng0 <= v < lng1).
  { intros v. rewrite in_map_iff. split.
    - intros ((a & b) & <- & Hab). apply Hin in Hab. cbn. tauto.
    - intros Hv. exists (v, lat0). split; [reflexivity|].
      apply Hin. split; [assumption | lia]. }
  assert (Hsnd : forall v, In v (map snd (get_srtm_tile_indices node m))
                           <-> lat0 <= v < lat1).
  { intros v. rewrite in_map_iff. split.
    - intros ((a & b) & <- & Hab). apply Hin in Hab. cbn. tauto.
    - intros Hv. exists (lng0, v). split; [reflexivity|].
      apply Hin. split; [lia | assumption]. }
  exists (get_srtm_tile_indices node m), lng0, (lng1 - 1), lat0, (lat1 - 1).
  split.
  { unfold _get_latlng_extent. fold m. cbv zeta.
    rewrite (py_min_spec _ lng0 lng1 Hlng Hfst),
            (py_max_spec _ lng0 lng1 Hlng Hfst),
            (py_min_spec _ lat0 lat1 Hlat Hsnd),
            (py_max_spec _ lat0 lat1 Hlat Hsnd).
    reflexivity. }
  split; [reflexivity|]. split; [lia|]. split; [lia|]. split.
  - intros a b. rewrite Hin. lia.
  - unfold get_srtm_tile_indices, invert_mercator.
    rewrite product_length, !range_up_length.
    fold (margin_of node m).
    change (Zfloor _) with lng0 at 1.
    unfold lng0, lng1, lat0, lat1, minlng_of, maxlng_of, minlat_of,
      maxlat_of, invert_mercator in *. cbn [fst snd] in *.
    lia.
Qed.

Lemma get_latlng_extent_rectangle_witness :
  (0 < 1)%R /\ (0 < 1)%R
  /\ exists indices lng_min lng_max lat_min lat_max,
       _get_latlng_extent unit_cell
       = Returns (indices, lng_min, lng_max, lat_min, lat_max)
       /\ indices = get_srtm_tile_indices unit_cell (1.1 * 8 / 256)
       /\ lng_min <= lng_max /\ lat_min <= lat_max
       /\ (forall a b, In (a, b) indices
                       <-> lng_min <= a <= lng_max
                           /\ lat_min <= b <= lat_max)
       /\ Z.of_nat (length indices)
          = (lng_max + 1 - lng_min) * (lat_max + 1 - lat_min).
Proof.
  assert (H1 : (0 < 1)%R) by lra.
  split; [exact H1|]. split; [exact H1|].
  exact (get_latlng_extent_rectangle unit_cell H1 H1).
Defined.

(* ================================================================== *)
(** * The file names of the packages *)
(* ================================================================== *)

(** A string without the separator of the file names. *)
Fixpoint no_underscore (s : string) : bool :=
  match s with
  | EmptyString => true
  | String c s' => negb (Ascii.eqb c "_") && no_underscore s'
  end.

Lemma string_of_uint_no_underscore (d : Decimal.uint) :
  no_underscore (NilEmpty.string_of_uint d) = true.
Proof. induction d; cbn; auto. Qed.

Lemma str_int_no_underscore (z : Z) : no_underscore (str_int z) = true.
Proof.
  unfold str_int, NilZero.string_of_int, NilZero.string_of_uint.
  destruct (Z.to_int z) as [d|d]; destruct d; cbn;
    auto using string_of_uint_no_underscore.
Qed.

Lemma str_int_inj (z z' : Z) : str_int z = str_int z' -> z = z'.
Proof.
  unfold str_int. intros H.
  assert (Hnil : forall n, Z.to_int n <> Decimal.Pos Decimal.Nil
                           /\ Z.to_int n <> Decimal.Neg Decimal.Nil).
  { intros [|p|p]; cbn; split; try discriminate;
      intros [= Hp]; exact (Unsigned.to_uint_nonnil p Hp). }
  apply DecimalZ.to_int_inj.
  assert (Hs : Some (Z.to_int z) = Some (Z.to_int z')).
  { rewrite <- (NilZero.isi (Z.to_int z)) by apply Hnil.
    rewrite <- (NilZero.isi (Z.to_int z')) by apply Hnil.
    rewrite H. reflexivity. }
  congruence.
Qed.

(** Two strings without separator, each followed by a separator: the
    whole determines the parts. *)
Lemma split_at_underscore (s s' r r' : string) :
  no_underscore s = true -> no_underscore s' = true ->
  (s ++ String "_" r)%string = (s' ++ String "_" r')%string ->
  s = s' /\ r = r'.
Proof.
  revert s'. induction s as [|c s IH]; intros [|c' s'] Hs Hs' H;
    cbn [String.append] in H.
  - injection H as ->. split; reflexivity.
  - injection H as <- _. cbn in Hs'. discriminate.
  - injection H as -> _. cbn in Hs. discriminate.
  - injection H as -> H. cbn in Hs, Hs'.
    apply andb_true_iff in Hs, Hs'.
    destruct (IH s' (proj2 Hs) (proj2 Hs') H) as (-> & ->).
    split; reflexivity.
Qed.

(** The file name of a block package. *)
Definition block_filename (lvl : Z) (block : WebMercatorCell) : string :=
  ("tiles__" ++ str_int lvl ++ "__" ++ str_int (level block) ++ "_"
   ++ str_int (i block) ++ "_" ++ str_int (j block))%string.

Lemma block_filename_inj (lvl lvl' : Z) (block block' : WebMercatorCell) :
  block_filename lvl block = block_filename lvl' block' ->
  lvl = lvl' /\ address block = address block'.
Proof.
  unfold block_filename. cbn [String.append]. intros [= H].
  apply split_at_underscore in H; try apply str_int_no_underscore.
  destruct H as (H1 & [= H]).
  apply split_at_underscore in H; try apply str_int_no_underscore.
  destruct H as (H2 & H).
  apply split_at_underscore in H; try apply str_int_no_underscore.
  destruct H as (H3 & H4).
  apply str_int_inj in H1, H2, H3, H4.
  unfold address. split; congruence.
Qed.

Lemma block_filename_first (lvl : Z) (block : WebMercatorCell) :
  block_filename lvl block <> "tiles__0_to_5"%string.
Proof.
  unfold block_filename. cbn [String.append]. intros [= H].
  change "0_to_5"%string with ("0" ++ String "_" "to_5")%string in H.
  apply split_at_underscore in H;
    [| apply str_int_no_underscore | reflexivity].
  destruct H as (_ & H). discriminate.
Qed.

Section PackageNames.

Variable block_description : Z -> WebMercatorCell -> string.

Lemma packages_filenames_NoDup (max_level : Z)
  (checker : option EmptyChecker) :
  exists packages,
    create_packages block_description max_level checker = Some packages
    /\ NoDup (map filename packages).
Proof.
  unfold create_packages. rewrite generate_webmercator_grid_full.
  fold (grid_root max_level).
  eexists. split; [reflexivity|]. cbv zeta.
  fold (pruned_grid max_level checker).
  pose proof (pruned_grid_inv max_level checker) as Hinv.
  set (root := pruned_grid max_level checker) in *.
  set (first := mkZipPackage (0, 0, 0) _ _ _).
  set (others := flat_map _ (range_up 6 (max_level + 1))).
  assert (Hperm : Permutation (sort_packages ([first] ++ others))
                              (first :: others))
    by apply sort_packages_perm.
  apply (Permutation_NoDup
           (Permutation_sym (Permutation_map filename Hperm))).
  cbn [map]. constructor.
  - intros Hin. apply in_map_iff in Hin. destruct Hin as (p & Hk & Hp).
    unfold others in Hp. apply in_flat_map in Hp.
    destruct Hp as (lvl & _ & Hp). apply in_map_iff in Hp.
    destruct Hp as (b & <- & _). cbn [filename first] in Hk.
    exact (block_filename_first lvl b Hk).
  - unfold others. rewrite map_flat_map. apply NoDup_flat_map.
    + apply range_up_NoDup.
    + intros lvl _. rewrite map_map. cbn [filename].
      apply NoDup_map_NoDup_ForallPairs.
      * intros b b' Hb Hb' Hk. apply filter_In in Hb, Hb'.
        destruct Hb as (Hb & _), Hb' as (Hb' & _).
        apply (block_filename_inj lvl lvl b b') in Hk.
        destruct Hk as (_ & [= H1 H2 H3]).
        apply (flatten_address_unique root); assumption.
      * apply NoDup_filter, flatten_NoDup, Hinv.
    + intros lvl lvl' name _ _ Hne Hk Hk'.
      rewrite map_map in Hk, Hk'. cbn [filename] in Hk, Hk'.
      apply in_map_iff in Hk, Hk'.
      destruct Hk as (b & <- & _), Hk' as (b' & Hk' & _).
      apply (block_filename_inj lvl' lvl b' b) in Hk'.
      destruct Hk' as (Heq & _). congruence.
Qed.

(** X20. No two packages have the same file name. *)
Theorem package_filenames_distinct (max_level : Z)
  (checker : option EmptyChecker) :
  exists packages,
    create_packages block_description max_level checker = Some packages
    /\ NoDup (map filename packages).
Proof.
  exact (packages_filenames_NoDup max_level checker).
Qed.

End PackageNames.

(* ================================================================== *)
(** * Properties of the tiles of a download *)
(* ================================================================== *)

Lemma fresh_child_same_fields (a b : WebMercatorCell) (key : CellKey) :
  same_fields a b ->
  fresh_child a (row_of a key) = fresh_child b (row_of b key).
Proof.
  intros (H1 & H2 & H3 & H4 & H5 & H6 & H7).
  destruct key; unfold fresh_child, row_of, row_0, row_1, row_2, row_3;
    rewrite H1, H2, H3, H4, H5, H6, H7; reflexivity.
Qed.

Lemma row_of_In (self : WebMercatorCell) (key : CellKey) :
  In (row_of self key) (subdivision_table self).
Proof.
  rewrite subdivision_table_rows. destruct key; cbn; tauto.
Qed.

Lemma candidate_quadtree_inv (self : WebMercatorCell) (key : CellKey) :
  quadtree_inv self -> quadtree_inv (candidate self (row_of self key)).
Proof.
  intros Hinv. apply quadtree_inv_unfold in Hinv.
  destruct Hinv as (Hy & H0 & H1 & H2 & H3).
  apply (candidate_inv self (row_of self key) Hy (row_of_In self key)).
  destruct key; assumption.
Qed.

Section SubdivisionComplete.

Variable condition : WebMercatorCell -> bool.
Variable max_depth : Z.

(** Every child that is attached in the tree satisfies the condition. *)
Definition children_pass (self : WebMercatorCell) : Prop :=
  forall c key child,
    In c (flatten self) -> getattr c key = Some child ->
    condition child = true.

Lemma children_pass_candidate (self : WebMercatorCell) (key : CellKey) :
  children_pass self -> children_pass (candidate self (row_of self key)).
Proof.
  intros Hpass.
  destruct (candidate_cases self key) as [(ch & Hch & ->)|(_ & ->)].
  - intros c k child Hc Hk.
    apply (Hpass c k child); [|assumption].
    apply (flatten_trans self ch c); [|exact Hc].
    exact (flatten_child self self ch key (flatten_self self) Hch).
  - intros c k child Hc Hk.
    rewrite (flatten_childless _ (fresh_child_childless _ _)) in Hc.
    destruct Hc as [<-|[]].
    destruct (fresh_child_childless self (row_of self key))
      as (E0 & E1 & E2 & E3).
    destruct k; cbn [getattr] in Hk; congruence.
Qed.

(** In the subdivided tree a cell below [max_depth] has every quadrant
    for which the condition holds. *)
Lemma subdivide_complete (fuel : nat) :
  forall self r,
    conditional_recursive_subdivide fuel condition max_depth self = Some r ->
    quadtree_inv self -> children_pass self ->
    forall p, In p (flatten r) -> level p < max_depth ->
    forall key,
      condition (fresh_child p (row_of p key)) = true ->
      exists child, getattr p key = Some child.
Proof.
  induction fuel as [|fuel IH]; intros self r Hr Hinv Hpass p Hp Hlev key Hc;
    [discriminate|].
  destruct (subdivide_shape condition max_depth fuel self r Hr)
    as [(Hdeep & ->)|(Hshallow & Hf & Hvisit)].
  - destruct (flatten_range self p Hinv Hp) as (Hle & _). lia.
  - assert (Hattached : forall k child,
              getattr r k = Some child ->
              condition (candidate self (row_of self k)) = true
              /\ conditional_recursive_subdivide fuel condition max_depth
                   (candidate self (row_of self k)) = Some child).
    { intros k child Hk. specialize (Hvisit k). unfold visit in Hvisit.
      rewrite row_of_key in Hvisit.
      destruct (condition (candidate self (row_of self k))) eqn:Ec.
      - split; [reflexivity|].
        destruct (conditional_recursive_subdivide fuel condition max_depth
                    (candidate self (row_of self k))) as [cell'|];
          [|discriminate].
        congruence.
      - exfalso.
        assert (Hold : getattr self k = Some child) by congruence.
        destruct (candidate_cases self k) as [(ch & Hch & Hcand)|(Hnone & _)];
          [|congruence].
        rewrite Hcand in Ec.
        rewrite (Hpass self k ch (flatten_self self) Hch) in Ec.
        discriminate. }
    apply flatten_In in Hp. destruct Hp as [->|(k & child & Hk & Hp)].
    + specialize (Hvisit key). unfold visit in Hvisit.
      rewrite row_of_key in Hvisit.
      assert (Ec : condition (candidate self (row_of self key)) = true).
      { destruct (candidate_cases self key) as [(ch & Hch & ->)|(_ & ->)].
        - exact (Hpass self key ch (flatten_self self) Hch).
        - rewrite (fresh_child_same_fields self r key Hf). exact Hc. }
      rewrite Ec in Hvisit.
      destruct (conditional_recursive_subdivide fuel condition max_depth
                  (candidate self (row_of self key))) as [cell'|];
        [|discriminate].
      exists cell'. congruence.
    + destruct (Hattached k child Hk) as (_ & Hsub).
      apply (IH (candidate self (row_of self k)) child Hsub
               (candidate_quadtree_inv self k Hinv)
               (children_pass_candidate self k Hpass) p Hp Hlev key Hc).
Qed.

End SubdivisionComplete.

Section DownloadFacts.

Variable intersect : Feature -> Feature -> option Feature.

Lemma within_polygon_bare (features : list Feature) (c : WebMercatorCell) :
  generate_within_polygon_checker intersect features (bare c)
  = generate_within_polygon_checker intersect features c.
Proof. destruct c. reflexivity. Qed.

(** X21. The tree of a download.  Without a polygon file it is the full
    grid of the larger of the two levels.  With one, the tree is found,
    it keeps every cell of the grid of [outside_maxlevel], every cell
    above that level lies at most at [inside_maxlevel] and intersects a
    feature, and a cell below [inside_maxlevel] has each quadrant that
    lies at most at [outside_maxlevel] or intersects a feature. *)
Theorem download_tree_cells (features : list Feature)
  (inside_maxlevel outside_maxlevel : Z) :
  download_tree intersect None inside_maxlevel outside_maxlevel
  = generate_webmercator_grid (Z.max outside_maxlevel inside_maxlevel)
  /\ exists tree grid,
      download_tree intersect (Some features) inside_maxlevel
        outside_maxlevel = Some tree
      /\ generate_webmercator_grid outside_maxlevel = Some grid
      /\ (forall c, In c (flatten grid) ->
            exists c', In c' (flatten tree) /\ same_fields c c')
      /\ (forall c', In c' (flatten tree) ->
            Z.max 0 outside_maxlevel < level c' ->
            level c' <= inside_maxlevel
            /\ generate_within_polygon_checker intersect features c' = true)
      /\ (forall p key,
            In p (flatten tree) -> level p < inside_maxlevel ->
            level p < outside_maxlevel
            \/ generate_within_polygon_checker intersect features
                 (fresh_child p (row_of p key)) = true ->
            exists child, getattr p key = Some child).
Proof.
  split.
  - unfold download_tree. rewrite !generate_webmercator_grid_full.
    exact (full_subdivide_grid outside_maxlevel inside_maxlevel).
  - unfold download_tree. rewrite generate_webmercator_grid_full.
    fold (grid_root outside_maxlevel).
    set (checker := download_checker intersect (Some features)
                      outside_maxlevel).
    destruct (subdivide_total checker inside_maxlevel _
                (grid_root outside_maxlevel) (le_n _)) as [tree Htree].
    exists tree, (grid_root outside_maxlevel).
    split; [exact Htree|]. split; [reflexivity|]. split; [|split].
    + exact (subdivide_keeps checker inside_maxlevel _ _ tree Htree).
    + intros c' Hc' Hlev.
      destruct (subdivide_adds checker inside_maxlevel _ _ tree Htree c' Hc')
        as [(c & Hc & Hf)|(Hle & Hcond)].
      * pose proof (grid_root_levels outside_maxlevel c Hc) as Hb.
        destruct Hf as (Hl & _). lia.
      * split; [assumption|].
        unfold checker, download_checker in Hcond.
        apply orb_true_iff in Hcond. destruct Hcond as [Hcond|Hcond].
        -- apply Z.leb_le in Hcond. cbn [bare level] in Hcond. lia.
        -- rewrite within_polygon_bare in Hcond. exact Hcond.
    + intros p key Hp Hlev Hq.
      apply (subdivide_complete checker inside_maxlevel _
               (grid_root outside_maxlevel) tree Htree
               (grid_root_inv outside_maxlevel)) with (p := p);
        try assumption.
      * intros c k child Hc Hk.
        pose proof (flatten_child _ c child k Hc Hk) as Hchild.
        pose proof (grid_root_levels outside_maxlevel child Hchild) as Hb.
        pose proof (quadtree_inv_flatten _ c (grid_root_inv _) Hc) as Hci.
        destruct (quadtree_inv_child c child k Hci Hk) as (Hquad & _).
        assert (Hl : level child = level c + 1).
        { destruct (row_of c k) as [[[[[[k0 a] b] xa] xb] ya] yb].
          apply Hquad. }
        pose proof (grid_root_levels outside_maxlevel c Hc) as Hbc.
        unfold checker, download_checker.
        apply orb_true_iff. left. apply Z.leb_le. lia.
      * unfold checker, download_checker. apply orb_true_iff.
        destruct Hq as [Hq|Hq]; [left | right; exact Hq].
        apply Z.leb_le. rewrite fresh_child_level. lia.
Qed.

End DownloadFacts.

(* ================================================================== *)
(** * Properties of the selection *)
(* ================================================================== *)

Lemma dict_set_fresh {V : Type} (d : list (string * V)) (k : string) (v : V) :
  ~ In k (map fst d) -> dict_set d k v = d ++ [(k, v)].
Proof.
  induction d as [|(k' & v') d IH]; intros Hk; cbn [dict_set app];
    [reflexivity|].
  cbn [map fst In] in Hk.
  destruct (String.eqb_spec k' k) as [->|_]; [tauto|].
  rewrite IH by tauto. reflexivity.
Qed.

Lemma filter_flat_map {A B : Type} (f : A -> list B) (g : B -> bool)
  (l : list A) :
  filter g (flat_map f l) = flat_map (fun x => filter g (f x)) l.
Proof.
  induction l as [|x l IH]; cbn [flat_map]; [reflexivity|].
  rewrite filter_app, IH. reflexivity.
Qed.

Section SelectionFacts.

Variable all_tiles : list WebMercatorCell.
Variable empty_checker : EmptyChecker.

(** A tile whose address is required. *)
Definition required (tile : WebMercatorCell) : bool :=
  existsb (address_eqb (level tile, i tile, j tile))
          (map (fun t => (level t, i t, j t)) all_tiles).

Definition to_download (tile : WebMercatorCell) : bool :=
  required tile && negb (checker_call empty_checker tile).

Definition to_link (tile : WebMercatorCell) : bool :=
  required tile && checker_call empty_checker tile.

Lemma required_spec (tile : WebMercatorCell) :
  required tile = true
  <-> exists t, In t all_tiles /\ address t = address tile.
Proof.
  unfold required. rewrite existsb_exists. split.
  - intros (a & Ha & Heq). apply in_map_iff in Ha.
    destruct Ha as (t & <- & Ht). apply address_eqb_eq in Heq.
    exists t. split; [assumption|]. unfold address. congruence.
  - intros (t & Ht & Heq). exists (level t, i t, j t). split.
    + apply in_map_iff. exists t. split; [reflexivity | assumption].
    + apply address_eqb_eq. unfold address in Heq. congruence.
Qed.

(** The loop over the tiles of a package. *)
Definition select_step (acc : list WebMercatorCell * list WebMercatorCell)
  (tile : WebMercatorCell) : list WebMercatorCell * list WebMercatorCell :=
  let '(tile_list, required_empty_tiles) := acc in
  if required tile
  then
    if checker_call empty_checker tile
    then (tile_list, required_empty_tiles ++ [tile])
    else (tile_list ++ [tile], required_empty_tiles)
  else (tile_list, required_empty_tiles).

Lemma select_step_fold (tiles_in : list WebMercatorCell) :
  forall tile_list required_empty_tiles,
    fold_left select_step tiles_in (tile_list, required_empty_tiles)
    = (tile_list ++ filter to_download tiles_in,
       required_empty_tiles ++ filter to_link tiles_in).
Proof.
  induction tiles_in as [|t ts IH]; intros tile_list empties;
    cbn [fold_left filter].
  - rewrite !app_nil_r. reflexivity.
  - unfold select_step at 2, to_download, to_link.
    destruct (required t), (checker_call empty_checker t);
      cbn [andb negb]; rewrite IH, <- ?app_assoc; reflexivity.
Qed.

(** The loop over the packages. *)
Definition package_step
  (state : list (string * list WebMercatorCell) * list WebMercatorCell * Z)
  (package : ZipPackage)
  : list (string * list WebMercatorCell) * list WebMercatorCell * Z :=
  let '(package_tilelists, required_empty_tiles, download_tile_count) :=
    state in
  let '(tile_list, required_empty_tiles) :=
    fold_left select_step (tiles package) ([], required_empty_tiles) in
  if Nat.eqb (length tile_list) 0
  then (package_tilelists, required_empty_tiles, download_tile_count)
  else (dict_set package_tilelists (filename package) tile_list,
        required_empty_tiles,
        download_tile_count + Z.of_nat (length tile_list)).

Lemma select_tiles_fold (packages : list ZipPackage) :
  select_tiles packages all_tiles empty_checker
  = fold_left package_step packages ([], [], 0).
Proof. reflexivity. Qed.

(** The items of the dict: the packages with a tile to download. *)
Definition has_download (package : ZipPackage) : bool :=
  negb (Nat.eqb (length (filter to_download (tiles package))) 0).

Definition tilelists_of (packages : list ZipPackage)
  : list (string * list WebMercatorCell) :=
  map (fun package =>
         (filename package, filter to_download (tiles package)))
      (filter has_download packages).

Lemma tilelists_of_keys (packages : list ZipPackage) :
  map fst (tilelists_of packages)
  = map filename (filter has_download packages).
Proof. unfold tilelists_of. rewrite map_map. reflexivity. Qed.

Lemma tilelists_of_tiles (packages : list ZipPackage) :
  flat_map snd (tilelists_of packages)
  = filter to_download (flat_map tiles packages).
Proof.
  unfold tilelists_of.
  induction packages as [|p ps IH]; cbn [filter flat_map map];
    [reflexivity|].
  rewrite filter_app, <- IH. unfold has_download at 1.
  destruct (filter to_download (tiles p)) as [|t ts] eqn:E;
    cbn [length Nat.eqb negb map flat_map snd app]; rewrite ?E; reflexivity.
Qed.

Lemma package_step_fold (rest : list ZipPackage) :
  forall pre,
    NoDup (map filename (pre ++ rest)) ->
    fold_left package_step rest
      (tilelists_of pre, filter to_link (flat_map tiles pre),
       Z.of_nat (length (flat_map snd (tilelists_of pre))))
    = (tilelists_of (pre ++ rest),
       filter to_link (flat_map tiles (pre ++ rest)),
       Z.of_nat (length (flat_map snd (tilelists_of (pre ++ rest))))).
Proof.
  induction rest as [|p rest IH]; intros pre Hnd; cbn [fold_left].
  - rewrite app_nil_r. reflexivity.
  - replace (pre ++ p :: rest) with ((pre ++ [p]) ++ rest) in *
      by (rewrite <- app_assoc; reflexivity).
    rewrite <- (IH (pre ++ [p]) Hnd). f_equal.
    unfold package_step. rewrite select_step_fold. cbn [app].
    assert (Hlink : filter to_link (flat_map tiles (pre ++ [p]))
                    = filter to_link (flat_map tiles pre)
                      ++ filter to_link (tiles p)).
    { rewrite flat_map_app, filter_app. cbn [flat_map].
      rewrite app_nil_r. reflexivity. }
    assert (Hlists : tilelists_of (pre ++ [p])
                     = tilelists_of pre
                       ++ (if has_download p
                           then [(filename p,
                                  filter to_download (tiles p))]
                           else [])).
    { unfold tilelists_of. rewrite filter_app, map_app. cbn [filter].
      destruct (has_download p); reflexivity. }
    rewrite Hlink, Hlists. unfold has_download.
    destruct (Nat.eqb (length (filter to_download (tiles p))) 0) eqn:E;
      cbn [negb].
    + rewrite app_nil_r. reflexivity.
    + rewrite dict_set_fresh.
      * rewrite flat_map_app, length_app. cbn [flat_map snd].
        rewrite app_nil_r, Nat2Z.inj_add. reflexivity.
      * rewrite tilelists_of_keys. intros Hin.
        apply in_map_iff in Hin. destruct Hin as (q & Hq & Hin).
        apply filter_In in Hin. destruct Hin as (Hin & _).
        rewrite map_app in Hnd. apply NoDup_app_remove_r in Hnd.
        rewrite map_app in Hnd. cbn [map] in Hnd.
        apply NoDup_remove_2 in Hnd. rewrite app_nil_r in Hnd.
        apply Hnd. rewrite <- Hq. apply in_map. assumption.
Qed.

Lemma select_tiles_spec (packages : list ZipPackage) :
  NoDup (map filename packages) ->
  select_tiles packages all_tiles empty_checker
  = (tilelists_of packages,
     filter to_link (flat_map tiles packages),
     Z.of_nat (length (flat_map snd (tilelists_of packages)))).
Proof.
  intros Hnd. rewrite select_tiles_fold.
  exact (package_step_fold packages [] Hnd).
Qed.

End SelectionFacts.

(** Every address of a tree of quadrants below the root of the grid is
    an address of the grid, down to the level of the grid. *)
Lemma grid_has_address (n : Z) (t : WebMercatorCell) :
  quadtree_inv t ->
  forall g,
    In g (flatten (grid_root n)) -> address g = address t ->
    forall c,
      In c (flatten t) -> level c <= Z.max 0 n ->
      exists g', In g' (flatten (grid_root n)) /\ address g' = address c.
Proof.
  induction t as [t IH] using cell_induction.
  intros Hinv g Hg Haddr c Hc Hlev.
  apply flatten_In in Hc. destruct Hc as [->|(key & child & Hk & Hc)].
  - exists g. split; assumption.
  - destruct (quadtree_inv_child t child key Hinv Hk) as (Hq & Hcinv).
    destruct (flatten_range child c Hcinv Hc) as (Hle & _).
    assert (Hlt : level child = level t + 1).
    { destruct (row_of t key) as [[[[[[k0 a] b] xa] xb] ya] yb]. apply Hq. }
    pose proof (grid_root_level n g Hg) as Hg0.
    assert (Hgl : level g = level t)
      by (unfold address in Haddr; congruence).
    assert (Hn : 0 <= n) by lia.
    destruct (grid_root_complete n g Hn Hg) as (_ & Hkids).
    assert (Hdeep : level g < n) by lia.
    destruct (Hkids Hdeep key) as (gc & Hgc).
    pose proof (quadtree_inv_flatten _ g (grid_root_inv n) Hg) as Hginv.
    destruct (quadtree_inv_child g gc key Hginv Hgc) as (Hgq & _).
    apply (IH key child Hk Hcinv gc); try assumption.
    + exact (flatten_child _ g gc key Hg Hgc).
    + unfold address in *. injection Haddr as Hl Hi Hj.
      destruct key; cbn [row_of row_0 row_1 row_2 row_3 is_quadrant] in Hq, Hgq;
        destruct Hq as (Q1 & Q2 & Q3 & _), Hgq as (G1 & G2 & G3 & _);
        rewrite Q1, Q2, Q3, G1, G2, G3, Hl, Hi, Hj; reflexivity.
Qed.

Section SelectionResult.

Variable intersect : Feature -> Feature -> option Feature.
Variable block_description : Z -> WebMercatorCell -> string.

(** X22. The selection accounts for every tile of the tree of the
    download, when [inside_maxlevel] is at least [outside_maxlevel] (as
    the command line demands): every tile of the tree has its address
    among the selected tiles, exactly once; a selected tile is linked as
    empty when the checker of the empties holds for it and otherwise is
    in the list of one archive; no two items of the dict share a file
    name, no item has an empty list, and the count is the number of
    tiles in the lists. *)
Theorem download_selection_accounts (features : option (list Feature))
  (inside_maxlevel outside_maxlevel : Z) (empty_checker : EmptyChecker) :
  outside_maxlevel <= inside_maxlevel ->
  exists tree package_tilelists required_empty_tiles download_tile_count,
    download_tree intersect features inside_maxlevel outside_maxlevel
    = Some tree
    /\ download_selection intersect block_description features
         inside_maxlevel outside_maxlevel empty_checker
       = Some (package_tilelists, required_empty_tiles, download_tile_count)
    /\ let selected :=
         flat_map snd package_tilelists ++ required_empty_tiles in
       NoDup (map fst package_tilelists)
       /\ NoDup selected
       /\ (forall t, In t (flatten tree) ->
             exists g, In g selected /\ address g = address t)
       /\ (forall g g', In g selected -> In g' selected ->
             address g = address g' -> g = g')
       /\ (forall g, In g selected ->
             exists t, In t (flatten tree) /\ address t = address g)
       /\ (forall g, In g selected ->
             (In g required_empty_tiles
              <-> checker_call empty_checker g = true))
       /\ (forall name tile_list,
             In (name, tile_list) package_tilelists -> tile_list <> [])
       /\ download_tile_count
          = Z.of_nat (length (flat_map snd package_tilelists)).
Proof.
  intros Hlevels.
  unfold download_selection, download_tree.
  rewrite generate_webmercator_grid_full. fold (grid_root outside_maxlevel).
  set (checker := download_checker intersect features outside_maxlevel).
  destruct (subdivide_total checker inside_maxlevel _
              (grid_root outside_maxlevel) (le_n _)) as [tree Htree].
  rewrite Htree.
  destruct (packages_partition block_description inside_maxlevel None)
    as (packages & grid & Hpack & Hgrid & _ & Hnd & Hin).
  destruct (packages_filenames_NoDup block_description inside_maxlevel None)
    as (packages' & Hpack' & Hnames).
  assert (packages' = packages) by congruence. subst packages'.
  rewrite generate_webmercator_grid_full in Hgrid.
  fold (grid_root inside_maxlevel) in Hgrid. injection Hgrid as <-.
  rewrite Hpack.
  rewrite (select_tiles_spec (flatten tree) empty_checker packages Hnames).
  set (T := flat_map tiles packages) in *.
  exists tree, (tilelists_of (flatten tree) empty_checker packages),
    (filter (to_link (flatten tree) empty_checker) T),
    (Z.of_nat (length (flat_map snd
                 (tilelists_of (flatten tree) empty_checker packages)))).
  split; [reflexivity|]. split; [reflexivity|]. cbv zeta.
  rewrite (tilelists_of_tiles (flatten tree) empty_checker packages).
  fold T.
  set (dl := to_download (flatten tree) empty_checker).
  set (ln := to_link (flatten tree) empty_checker).
  (* the tree *)
  pose proof (subdivide_inv checker inside_maxlevel _ _ tree
                (grid_root_inv outside_maxlevel) Htree) as Hinv.
  assert (Htl : forall c, In c (flatten tree) ->
                          level c <= Z.max 0 inside_maxlevel).
  { intros c Hc.
    destruct (subdivide_adds checker inside_maxlevel _ _ tree Htree c Hc)
      as [(c0 & Hc0 & Hf)|(Hle & _)]; [|lia].
    pose proof (grid_root_levels outside_maxlevel c0 Hc0) as Hb.
    destruct Hf as (Hl & _). lia. }
  assert (Hroot : address (grid_root inside_maxlevel) = address tree).
  { destruct (subdivide_fields checker inside_maxlevel _ _ tree Htree)
      as (F1 & F2 & F3 & _).
    destruct (grid_root_address inside_maxlevel) as (I1 & I2 & I3).
    destruct (grid_root_address outside_maxlevel) as (O1 & O2 & O3).
    unfold address. congruence. }
  assert (Hsel : forall g, In g (filter dl T ++ filter ln T)
                           <-> In g T /\ required (flatten tree) g = true).
  { intros g. rewrite in_app_iff, !filter_In.
    unfold dl, ln, to_download, to_link.
    destruct (required (flatten tree) g),
             (checker_call empty_checker g); cbn; intuition congruence. }
  split; [|split; [|split; [|split; [|split; [|split; [|split]]]]]].
  - rewrite tilelists_of_keys.
    apply (NoDup_map_inv (fun x => x)). rewrite map_id.
    clear - Hnames. induction packages as [|p ps IH]; cbn [filter map];
      [constructor|].
    cbn [map] in Hnames. apply NoDup_cons_iff in Hnames.
    destruct Hnames as (Hp & Hps).
    destruct (has_download _ _ p); [|exact (IH Hps)].
    cbn [map]. constructor; [|exact (IH Hps)].
    intros Hin. apply Hp. apply in_map_iff in Hin.
    destruct Hin as (q & Hq & Hin). apply filter_In in Hin.
    rewrite <- Hq. apply in_map. tauto.
  - apply NoDup_app; try (apply NoDup_filter; assumption).
    intros g Hg Hg'. apply filter_In in Hg, Hg'.
    unfold dl, ln, to_download, to_link in *.
    destruct Hg as (_ & Hg), Hg' as (_ & Hg').
    destruct (checker_call empty_checker g);
      rewrite ?andb_false_r in *; discriminate.
  - intros t Ht.
    destruct (grid_has_address inside_maxlevel tree Hinv
                (grid_root inside_maxlevel) (flatten_self _) Hroot t Ht
                (Htl t Ht)) as (g & Hg & Haddr).
    exists g. split; [|assumption].
    apply Hsel. split; [apply Hin, Hg|].
    apply required_spec. exists t. split; [assumption | congruence].
  - intros g g' Hg Hg' Haddr. apply Hsel in Hg, Hg'.
    destruct Hg as (Hg & _), Hg' as (Hg' & _). apply Hin in Hg, Hg'.
    unfold address in Haddr. injection Haddr as H1 H2 H3.
    apply (flatten_address_unique (grid_root inside_maxlevel));
      try assumption. apply grid_root_inv.
  - intros g Hg. apply Hsel in Hg. destruct Hg as (_ & Hreq).
    apply required_spec in Hreq. exact Hreq.
  - intros g Hg. apply Hsel in Hg. destruct Hg as (HgT & Hreq).
    rewrite filter_In. unfold ln, to_link. rewrite Hreq. cbn [andb].
    tauto.
  - intros name tile_list Hitem. unfold tilelists_of in Hitem.
    apply in_map_iff in Hitem. destruct Hitem as (p & [= <- <-] & Hp).
    apply filter_In in Hp. destruct Hp as (_ & Hp).
    unfold has_download in Hp. intros Hnil. rewrite Hnil in Hp.
    discriminate.
  - reflexivity.
Qed.

End SelectionResult.

Lemma download_selection_accounts_witness :
  0 <= 1
  /\ exists tree package_tilelists required_empty_tiles download_tile_count,
       download_tree no_intersection None 1 0 = Some tree
       /\ download_selection no_intersection (fun _ _ => "block"%string)
            None 1 0 [] 
          = Some (package_tilelists, required_empty_tiles,
                  download_tile_count)
       /\ NoDup (map fst package_tilelists)
       /\ download_tile_count
          = Z.of_nat (length (flat_map snd package_tilelists)).
Proof.
  assert (H : 0 <= 1) by lia.
  split; [exact H|].
  destruct (download_selection_accounts no_intersection
              (fun _ _ => "block"%string) None 1 0 [] H)
    as (tree & lists & empties & count & Ht & Hs & Hk & _ & _ & _ & _ & _
        & _ & Hc).
  exists tree, lists, empties, count. repeat split; assumption.
Defined.

(* ================================================================== *)
(** * Properties of the file of empties *)
(* ================================================================== *)

(** Every character of a string satisfies a test. *)
Fixpoint all_chars (P : ascii -> bool) (s : string) : bool :=
  match s with
  | EmptyString => true
  | String c s' => P c && all_chars P s'
  end.

Lemma all_chars_impl (P Q : ascii -> bool) (s : string) :
  (forall c, P c = true -> Q c = true) ->
  all_chars P s = true -> all_chars Q s = true.
Proof.
  intros HPQ. induction s as [|c s IH]; cbn [all_chars]; [reflexivity|].
  rewrite !andb_true_iff. intros (Hc & Hs). split; auto.
Qed.

Lemma all_chars_app (P : ascii -> bool) (s r : string) :
  all_chars P (s ++ r) = all_chars P s && all_chars P r.
Proof.
  induction s as [|c s IH]; cbn [String.append all_chars]; [reflexivity|].
  rewrite IH, andb_assoc. reflexivity.
Qed.

(** The characters of a number. *)
Definition is_sign_or_digit (c : ascii) : bool :=
  is_digit c || Ascii.eqb c "-".

Lemma string_of_uint_digits (d : Decimal.uint) :
  all_chars is_digit (NilEmpty.string_of_uint d) = true.
Proof. induction d; cbn; auto. Qed.

Lemma str_int_chars (z : Z) : all_chars is_sign_or_digit (str_int z) = true.
Proof.
  assert (H : forall d, all_chars is_sign_or_digit
                          (NilEmpty.string_of_uint d) = true).
  { intros d. apply (all_chars_impl is_digit); [|apply string_of_uint_digits].
    intros c Hc. unfold is_sign_or_digit. rewrite Hc. reflexivity. }
  unfold str_int, NilZero.string_of_int, NilZero.string_of_uint.
  destruct (Z.to_int z) as [d|d]; destruct d; cbn [all_chars];
    try reflexivity; try apply H;
    cbn [andb]; try apply (H (Decimal.D0 _)); try apply H.
Qed.

Lemma str_int_nonempty (z : Z) : str_int z <> EmptyString.
Proof.
  unfold str_int, NilZero.string_of_int, NilZero.string_of_uint.
  destruct (Z.to_int z) as [d|d]; destruct d; cbn; discriminate.
Qed.

Lemma sign_or_digit_no_space (c : ascii) :
  is_sign_or_digit c = true -> negb (is_space c) = true.
Proof.
  unfold is_sign_or_digit, is_digit, is_space.
  destruct (Ascii.eqb_spec c "-") as [->|_]; [reflexivity|].
  rewrite orb_false_r. intros H.
  apply andb_true_iff in H. destruct H as (H1 & H2).
  apply Nat.leb_le in H1, H2.
  apply negb_true_iff, orb_false_iff. split; apply andb_false_iff.
  - right. apply Nat.leb_gt. lia.
  - right. apply Nat.leb_gt. lia.
Qed.

Lemma sign_or_digit_not (c0 : ascii) (c : ascii) :
  is_sign_or_digit c0 = false ->
  is_sign_or_digit c = true -> negb (Ascii.eqb c c0) = true.
Proof.
  intros H0 Hc. destruct (Ascii.eqb_spec c c0) as [->|_]; [|reflexivity].
  congruence.
Qed.

(** ** Lines *)

Lemma file_lines_line (s rest : string) :
  all_chars (fun c => negb (Ascii.eqb c newline)) s = true ->
  file_lines (s ++ String newline rest)
  = (s ++ String newline "")%string :: file_lines rest.
Proof.
  induction s as [|c s IH]; cbn [all_chars String.append]; intros Hs.
  - cbn [file_lines]. rewrite Ascii.eqb_refl. reflexivity.
  - apply andb_true_iff in Hs. destruct Hs as (Hc & Hs).
    cbn [file_lines]. apply negb_true_iff in Hc. rewrite Hc.
    rewrite (IH Hs). reflexivity.
Qed.

(** ** Stripping *)

Lemma lstrip_no_space (s : string) :
  all_chars (fun c => negb (is_space c)) s = true -> lstrip s = s.
Proof.
  destruct s as [|c s]; cbn [all_chars lstrip]; [reflexivity|].
  intros H. apply andb_true_iff in H. destruct H as (Hc & _).
  apply negb_true_iff in Hc. rewrite Hc. reflexivity.
Qed.

Lemma rstrip_no_space (s : string) :
  all_chars (fun c => negb (is_space c)) s = true -> rstrip s = s.
Proof.
  induction s as [|c s IH]; cbn [all_chars rstrip]; [reflexivity|].
  intros H. apply andb_true_iff in H. destruct H as (Hc & Hs).
  rewrite (IH Hs). apply negb_true_iff in Hc.
  destruct s; [rewrite Hc|]; reflexivity.
Qed.

Lemma rstrip_newline (s : string) :
  s <> EmptyString ->
  all_chars (fun c => negb (is_space c)) s = true ->
  rstrip (s ++ String newline "") = s.
Proof.
  induction s as [|c s IH]; [congruence|].
  intros _ H. cbn [all_chars] in H.
  apply andb_true_iff in H. destruct H as (Hc & Hs).
  apply negb_true_iff in Hc. cbn [String.append rstrip].
  destruct s as [|c' s'].
  - cbn. rewrite Hc. reflexivity.
  - rewrite (IH ltac:(discriminate) Hs). reflexivity.
Qed.

Lemma strip_no_space (s : string) :
  all_chars (fun c => negb (is_space c)) s = true -> strip s = s.
Proof.
  intros H. unfold strip. rewrite (lstrip_no_space s H).
  apply rstrip_no_space, H.
Qed.

Lemma strip_line (s : string) :
  s <> EmptyString ->
  all_chars (fun c => negb (is_space c)) s = true ->
  strip (s ++ String newline "") = s.
Proof.
  intros Hne H. unfold strip.
  assert (Hl : lstrip (s ++ String newline "") = (s ++ String newline "")%string).
  { destruct s as [|c s]; [congruence|].
    cbn [all_chars] in H. apply andb_true_iff in H. destruct H as (Hc & _).
    apply negb_true_iff in Hc. cbn [String.append lstrip]. rewrite Hc.
    reflexivity. }
  rewrite Hl. apply rstrip_newline; assumption.
Qed.

(** ** Suffix and split *)

Lemma append_length (s r : string) :
  String.length (s ++ r) = (String.length s + String.length r)%nat.
Proof.
  induction s as [|c s IH]; cbn [String.append String.length];
    [reflexivity|]. rewrite IH. reflexivity.
Qed.

Lemma removesuffix_app (s suffix : string) :
  removesuffix (s ++ suffix) suffix = s.
Proof.
  induction s as [|c s IH]; cbn [String.append].
  - destruct suffix as [|c r]; [reflexivity|].
    cbn [removesuffix]. rewrite String.eqb_refl. reflexivity.
  - cbn [removesuffix].
    destruct (String.eqb_spec (String c (s ++ suffix)) suffix) as [E|_].
    + exfalso. apply (f_equal String.length) in E.
      cbn [String.length] in E. rewrite append_length in E. lia.
    + rewrite IH. reflexivity.
Qed.

Lemma split_whole (sep : ascii) (s : string) :
  all_chars (fun c => negb (Ascii.eqb c sep)) s = true ->
  split sep s = [s].
Proof.
  induction s as [|c s IH]; cbn [all_chars split]; [reflexivity|].
  intros H. apply andb_true_iff in H. destruct H as (Hc & Hs).
  apply negb_true_iff in Hc. rewrite Hc, (IH Hs). reflexivity.
Qed.

Lemma split_app (sep : ascii) (s rest : string) :
  all_chars (fun c => negb (Ascii.eqb c sep)) s = true ->
  split sep (s ++ String sep rest) = s :: split sep rest.
Proof.
  induction s as [|c s IH]; cbn [all_chars String.append]; intros H.
  - cbn [split]. rewrite Ascii.eqb_refl. reflexivity.
  - apply andb_true_iff in H. destruct H as (Hc & Hs).
    apply negb_true_iff in Hc. cbn [split]. rewrite Hc, (IH Hs).
    reflexivity.
Qed.

(** ** Numbers *)

Lemma digits_ok_digits (s : string) :
  s <> EmptyString -> all_chars is_digit s = true -> digits_ok s = true.
Proof.
  induction s as [|c s IH]; [congruence|].
  intros _ H. cbn [all_chars] in H.
  apply andb_true_iff in H. destruct H as (Hc & Hs).
  cbn [digits_ok]. rewrite Hc. cbn [andb].
  destruct s as [|c' s']; [reflexivity|].
  assert (Hc' : Ascii.eqb c' "_" = false).
  { cbn [all_chars] in Hs. apply andb_true_iff in Hs.
    destruct Hs as (Hd & _).
    destruct (Ascii.eqb_spec c' "_") as [->|_]; [discriminate|reflexivity]. }
  rewrite Hc'. apply IH; [discriminate | assumption].
Qed.

Lemma remove_underscores_digits (s : string) :
  all_chars is_digit s = true -> remove_underscores s = s.
Proof.
  induction s as [|c s IH]; cbn [all_chars remove_underscores];
    [reflexivity|].
  intros H. apply andb_true_iff in H. destruct H as (Hc & Hs).
  destruct (Ascii.eqb_spec c "_") as [->|_]; [discriminate|].
  rewrite (IH Hs). reflexivity.
Qed.

Lemma uint_of_string_of_uint (d : Decimal.uint) :
  NilEmpty.uint_of_string (NilEmpty.string_of_uint d) = Some d.
Proof. induction d; cbn; rewrite ?IHd; reflexivity. Qed.

Lemma py_int_digits (d : Decimal.uint) :
  d <> Decimal.Nil ->
  py_int (NilEmpty.string_of_uint d) = Returns (Z.of_uint d)
  /\ py_int (String "-" (NilEmpty.string_of_uint d))
     = Returns (- Z.of_uint d).
Proof.
  intros Hd.
  set (s := NilEmpty.string_of_uint d).
  assert (Hdig : all_chars is_digit s = true)
    by apply string_of_uint_digits.
  assert (Hne : s <> EmptyString)
    by (unfold s; destruct d; cbn; congruence).
  assert (Hsp : all_chars (fun c => negb (is_space c)) s = true).
  { apply (all_chars_impl is_sign_or_digit).
    - apply sign_or_digit_no_space.
    - apply (all_chars_impl is_digit); [|assumption].
      intros c Hc. unfold is_sign_or_digit. rewrite Hc. reflexivity. }
  assert (Hbody : digits_ok s = true) by (apply digits_ok_digits; assumption).
  assert (Hval : NilEmpty.uint_of_string (remove_underscores s) = Some d)
    by (rewrite remove_underscores_digits by assumption;
        apply uint_of_string_of_uint).
  split.
  - unfold py_int. rewrite (strip_no_space s Hsp).
    destruct s as [|c r] eqn:Es; [congruence|].
    assert (Hc : is_digit c = true)
      by (cbn [all_chars] in Hdig; apply andb_true_iff in Hdig; tauto).
    destruct (Ascii.eqb_spec c "-") as [->|_]; [discriminate|].
    destruct (Ascii.eqb_spec c "+") as [->|_]; [discriminate|].
    rewrite Hbody, Hval. reflexivity.
  - unfold py_int.
    rewrite (strip_no_space (String "-" s))
      by (cbn [all_chars]; rewrite Hsp; reflexivity).
    rewrite Ascii.eqb_refl, Hbody, Hval. reflexivity.
Qed.

Lemma string_of_uint_nonnil (d : Decimal.uint) :
  d <> Decimal.Nil ->
  NilZero.string_of_uint d = NilEmpty.string_of_uint d.
Proof. destruct d; [congruence|..]; reflexivity. Qed.

Lemma py_int_str_int (z : Z) : py_int (str_int z) = Returns z.
Proof.
  unfold str_int. destruct z as [|p|p]; cbn [Z.to_int NilZero.string_of_int].
  - reflexivity.
  - pose proof (Unsigned.to_uint_nonnil p) as Hd.
    rewrite (string_of_uint_nonnil _ Hd).
    rewrite (proj1 (py_int_digits (Pos.to_uint p) Hd)).
    unfold Z.of_uint. rewrite Unsigned.of_to. reflexivity.
  - pose proof (Unsigned.to_uint_nonnil p) as Hd.
    rewrite (string_of_uint_nonnil _ Hd).
    rewrite (proj2 (py_int_digits (Pos.to_uint p) Hd)).
    unfold Z.of_uint. rewrite Unsigned.of_to. reflexivity.
Qed.

(** ** A line of the file *)

Lemma string_app_assoc (a b c : string) :
  ((a ++ b) ++ c)%string = (a ++ (b ++ c))%string.
Proof.
  induction a as [|x a IH]; cbn [String.append]; [reflexivity|].
  rewrite IH. reflexivity.
Qed.

(** The name of the tile in the file, without the suffix. *)
Definition tile_word (tile : WebMercatorCell) : string :=
  str_int (level tile) ++ String "/" (str_int (i tile)
  ++ String "/" (str_int (j tile))).

Lemma tile_line_word (tile : WebMercatorCell) :
  tile_line tile
  = ((tile_word tile ++ ".png") ++ String newline "")%string.
Proof.
  unfold tile_line, tile_word.
  rewrite !string_app_assoc. cbn [String.append].
  rewrite !string_app_assoc. reflexivity.
Qed.

Lemma tile_word_chars (P : ascii -> bool) (tile : WebMercatorCell) :
  (forall c, is_sign_or_digit c = true -> P c = true) ->
  P "/"%char = true ->
  all_chars P (tile_word tile) = true.
Proof.
  intros HP Hslash. unfold tile_word.
  assert (H : forall z, all_chars P (str_int z) = true)
    by (intros z; apply (all_chars_impl is_sign_or_digit);
        [exact HP | apply str_int_chars]).
  rewrite all_chars_app. cbn [all_chars]. rewrite all_chars_app.
  cbn [all_chars]. rewrite !H, Hslash. reflexivity.
Qed.

Lemma tile_name_chars (P : ascii -> bool) (tile : WebMercatorCell) :
  (forall c, is_sign_or_digit c = true -> P c = true) ->
  P "/"%char = true -> all_chars P ".png" = true ->
  all_chars P (tile_word tile ++ ".png") = true.
Proof.
  intros HP Hslash Hpng.
  rewrite all_chars_app, (tile_word_chars P tile HP Hslash), Hpng.
  reflexivity.
Qed.

Lemma parse_line_tile (tile : WebMercatorCell) :
  parse_line (tile_line tile)
  = Returns (level tile, i tile, j tile).
Proof.
  unfold parse_line. rewrite tile_line_word.
  rewrite strip_line.
  - rewrite removesuffix_app. unfold tile_word.
    assert (Hno : forall z,
              all_chars (fun c => negb (Ascii.eqb c "/")) (str_int z) = true).
    { intros z. apply (all_chars_impl is_sign_or_digit);
        [|apply str_int_chars].
      intros c Hc. apply (sign_or_digit_not "/" c); [reflexivity | exact Hc]. }
    rewrite (split_app "/" _ _ (Hno _)), (split_app "/" _ _ (Hno _)),
            (split_whole "/" _ (Hno _)).
    rewrite !py_int_str_int. reflexivity.
  - unfold tile_word. intros E.
    destruct (str_int (level tile)) eqn:El;
      [exact (str_int_nonempty _ El) | discriminate].
  - apply tile_name_chars; [| reflexivity | reflexivity].
    intros c Hc. apply sign_or_digit_no_space, Hc.
Qed.

(** ** The content of the file *)

Lemma written_lines (tiles : list WebMercatorCell) :
  forall f,
    fold_left (fun f tile => (f ++ tile_line tile)%string) tiles f
    = (f ++ fold_right (fun tile rest => (tile_line tile ++ rest)%string)
                       ""%string tiles)%string.
Proof.
  induction tiles as [|t ts IH]; intros f; cbn [fold_left fold_right].
  - induction f as [|c f IHf]; cbn [String.append]; congruence.
  - rewrite IH, string_app_assoc. reflexivity.
Qed.

Lemma file_lines_written (tiles : list WebMercatorCell) :
  file_lines (fold_right (fun tile rest => (tile_line tile ++ rest)%string)
                         ""%string tiles)
  = map tile_line tiles.
Proof.
  induction tiles as [|t ts IH]; cbn [fold_right map]; [reflexivity|].
  rewrite tile_line_word at 1. rewrite string_app_assoc.
  cbn [String.append]. rewrite file_lines_line.
  - rewrite IH, <- tile_line_word. reflexivity.
  - apply tile_name_chars; [| reflexivity | reflexivity].
    intros c Hc. apply (sign_or_digit_not newline c);
      [reflexivity | exact Hc].
Qed.

Lemma load_lines_tiles (tiles : list WebMercatorCell) :
  forall empties,
    load_lines (map tile_line tiles) empties
    = Returns (fold_left (fun e tile =>
                            set_add_address (level tile, i tile, j tile) e)
                         tiles empties).
Proof.
  induction tiles as [|t ts IH]; intros empties;
    cbn [map load_lines fold_left]; [reflexivity|].
  rewrite parse_line_tile. cbn [bind]. apply IH.
Qed.

Lemma set_add_address_In (a b : Z * Z * Z) (empties : list (Z * Z * Z)) :
  In b (set_add_address a empties) <-> In b empties \/ b = a.
Proof.
  unfold set_add_address.
  destruct (existsb (address_eqb a) empties) eqn:E.
  - apply existsb_exists in E. destruct E as (x & Hx & Hax).
    apply address_eqb_eq in Hax. subst x. split; [tauto|].
    intros [H| ->]; assumption.
  - rewrite in_app_iff. cbn [In]. split; [intros [H|[<-|[]]] | intros [H| ->]];
      tauto.
Qed.

Lemma set_add_address_NoDup (a : Z * Z * Z) (empties : list (Z * Z * Z)) :
  NoDup empties -> NoDup (set_add_address a empties).
Proof.
  intros Hnd. unfold set_add_address.
  destruct (existsb (address_eqb a) empties) eqn:E; [assumption|].
  apply NoDup_app; [assumption | repeat constructor; intros [] |].
  intros b Hb [<-|[]].
  assert (Hex : existsb (address_eqb a) empties = true)
    by (apply existsb_exists; exists a; split;
        [assumption | apply address_eqb_eq; reflexivity]).
  congruence.
Qed.

Lemma fold_set_add_address (tiles : list WebMercatorCell) :
  forall empties,
    let checker :=
      fold_left (fun e tile =>
                   set_add_address (level tile, i tile, j tile) e)
                tiles empties in
    (NoDup empties -> NoDup checker)
    /\ forall a, In a checker
                 <-> In a empties \/ exists t, In t tiles /\ address t = a.
Proof.
  induction tiles as [|t ts IH]; intros empties; cbn [fold_left].
  - split; [tauto|]. intros a. split; [tauto|].
    intros [H|(t & [] & _)]. assumption.
  - destruct (IH (set_add_address (level t, i t, j t) empties))
      as (Hnd & Hin).
    split.
    + intros H. apply Hnd, set_add_address_NoDup, H.
    + intros a. rewrite Hin, set_add_address_In. split.
      * intros [[H|H]|(u & Hu & Ha)].
        -- left. assumption.
        -- right. exists t. split; [left; reflexivity|].
           unfold address. congruence.
        -- right. exists u. split; [right; assumption | assumption].
      * intros [H|(u & [<-|Hu] & Ha)].
        -- left. left. assumption.
        -- left. right. unfold address in Ha. congruence.
        -- right. exists u. split; assumption.
Qed.

Lemma insert_tile_perm (t : WebMercatorCell) (l : list WebMercatorCell) :
  Permutation (insert_tile t l) (t :: l).
Proof.
  induction l as [|u l IH]; cbn [insert_tile]; [reflexivity|].
  destruct (key_leb _ _); [reflexivity|].
  rewrite IH. apply perm_swap.
Qed.

Lemma sort_tiles_perm (l : list WebMercatorCell) :
  Permutation (sort_tiles l) l.
Proof.
  unfold sort_tiles. induction l as [|t l IH]; cbn [fold_right];
    [reflexivity|].
  rewrite insert_tile_perm. constructor. exact IH.
Qed.

(** X23. The file of empties is read back as it was written: for every
    list of tiles, [load_empties] returns for the content that
    [generate_empties_file] writes, and the set it returns holds exactly
    the addresses of the tiles, each once; so the checker holds for a
    cell exactly when a tile of the list has the address of the cell. *)
Theorem empties_file_round_trip (tiles : list WebMercatorCell) :
  exists checker,
    load_empties (empties_file_content tiles) = Returns checker
    /\ NoDup checker
    /\ (forall a, In a checker
                  <-> exists t, In t tiles /\ (level t, i t, j t) = a)
    /\ (forall cell,
          checker_call checker cell = true
          <-> exists t,
               In t tiles
               /\ (level t, i t, j t) = (level cell, i cell, j cell)).
Proof.
  unfold load_empties, empties_file_content. cbv zeta.
  rewrite written_lines. cbn [String.append].
  rewrite file_lines_written, load_lines_tiles.
  eexists. split; [reflexivity|].
  destruct (fold_set_add_address (sort_tiles tiles) []) as (Hnd & Hin).
  assert (Hmem : forall a,
            In a (fold_left
                    (fun e tile =>
                       set_add_address (level tile, i tile, j tile) e)
                    (sort_tiles tiles) [])
            <-> exists t, In t tiles /\ (level t, i t, j t) = a).
  { intros a. rewrite Hin. split.
    - intros [[]|(t & Ht & Ha)]. exists t. split; [|exact Ha].
      exact (Permutation_in t (sort_tiles_perm tiles) Ht).
    - intros (t & Ht & Ha). right. exists t. split; [|exact Ha].
      exact (Permutation_in t (Permutation_sym (sort_tiles_perm tiles)) Ht). }
  split; [apply Hnd; constructor|]. split; [exact Hmem|].
  intros cell. rewrite checker_call_In. apply Hmem.
Qed.

(* ================================================================== *)
(** * Properties of the joined tiles *)
(* ================================================================== *)

Lemma slice_range_between (a b : Z) (n : nat) :
  0 <= a -> a <= b -> b <= Z.of_nat n ->
  slice_range (between a b) n = (Z.to_nat a, Z.to_nat b).
Proof.
  intros Ha Hab Hb. unfold slice_range, between, slice_bound. cbn [fst snd].
  destruct (Z.ltb_spec a 0); [lia|]. destruct (Z.ltb_spec b 0); [lia|].
  f_equal; lia.
Qed.

Lemma nth_error_seg {A : Type} (a b k : nat) (l : list A) :
  (k < b - a)%nat -> nth_error (seg a b l) k = nth_error l (a + k).
Proof.
  intros Hk. unfold seg.
  rewrite nth_error_firstn.
  destruct (Nat.ltb_spec k (b - a)); [|lia].
  apply nth_error_skipn.
Qed.

Lemma pixel_block {A : Type} (a : ndarray A) (ra rb ca cb r c : nat) :
  (r < rb - ra)%nat -> (c < cb - ca)%nat ->
  pixel (block a ra rb ca cb) r c = pixel a (ra + r) (ca + c).
Proof.
  intros Hr Hc. unfold pixel, block.
  rewrite nth_error_map, (nth_error_seg ra rb r a Hr).
  destruct (nth_error a (ra + r)) as [row|]; cbn [option_map];
    [|reflexivity].
  apply nth_error_seg, Hc.
Qed.

Section JoinFacts.

Variable read_cell : Z -> Z -> ndarray R.
Variable resize : ndarray R -> Z -> ndarray R.
Variable lat_max lng_min : Z.
Variable h w : nat.

Hypothesis read_cell_shape :
  forall lat lng, has_shape 3601 3601 (read_cell lat lng).

(** The block of the buffer a tile is assigned to. *)
Definition tile_x0 (index : Z * Z) : Z := 3600 * (lat_max - snd index).
Definition tile_y0 (index : Z * Z) : Z := 3600 * (fst index - lng_min).

Definition covers (index : Z * Z) (r c : nat) : Prop :=
  tile_x0 index <= Z.of_nat r < tile_x0 index + 3601
  /\ tile_y0 index <= Z.of_nat c < tile_y0 index + 3601.

Definition fits (index : Z * Z) : Prop :=
  0 <= tile_x0 index /\ tile_x0 index + 3601 <= Z.of_nat h
  /\ 0 <= tile_y0 index /\ tile_y0 index + 3601 <= Z.of_nat w.

(** A pixel of the buffer, as the pixel of a tile that covers it. *)
Definition from_tile (data : ndarray R) (index : Z * Z) (r c : nat) : Prop :=
  covers index r c
  /\ pixel data r c
     = pixel (read_cell (snd index) (fst index))
             (r - Z.to_nat (tile_x0 index)) (c - Z.to_nat (tile_y0 index)).

Definition join_step (data : outcome (ndarray R)) (index : Z * Z)
  : outcome (ndarray R) :=
  data <- data ;;
  let '(lng, lat) := index in
  let x0 := (DIM - 1) * (lat_max - lat) in
  let y0 := (DIM - 1) * (lng - lng_min) in
  setitem2 (between x0 (x0 + DIM)) (between y0 (y0 + DIM))
           (read_cell lat lng) data.

Lemma join_step_ok (data : ndarray R) (index : Z * Z) :
  has_shape h w data -> fits index ->
  exists data',
    join_step (Returns data) index = Returns data'
    /\ has_shape h w data'
    /\ forall r c, (r < h)%nat -> (c < w)%nat ->
         from_tile data' index r c
         \/ (~ covers index r c /\ pixel data' r c = pixel data r c).
Proof.
  intros Hshape (Hx0 & Hx1 & Hy0 & Hy1). destruct index as (lng & lat).
  unfold tile_x0, tile_y0 in *. cbn [fst snd] in *.
  unfold join_step. cbn [bind].
  change (DIM - 1) with 3600. change DIM with 3601.
  set (x0 := 3600 * (lat_max - lat)) in *.
  set (y0 := 3600 * (lng - lng_min)) in *.
  destruct (setitem2_ok h w data (between x0 (x0 + 3601))
              (between y0 (y0 + 3601)) (read_cell lat lng)
              (Z.to_nat x0) (Z.to_nat (x0 + 3601))
              (Z.to_nat y0) (Z.to_nat (y0 + 3601)) Hshape)
    as (data' & E & Hshape' & Hsame & Hother).
  - apply slice_range_between; lia.
  - apply slice_range_between; lia.
  - lia.
  - lia.
  - replace (Z.to_nat (x0 + 3601) - Z.to_nat x0)%nat with 3601%nat by lia.
    replace (Z.to_nat (y0 + 3601) - Z.to_nat y0)%nat with 3601%nat by lia.
    apply read_cell_shape.
  - exists data'. split; [exact E|]. split; [exact Hshape'|].
    intros r c Hr Hc.
    assert (Hout : ~ (x0 <= Z.of_nat r < x0 + 3601
                      /\ y0 <= Z.of_nat c < y0 + 3601) ->
                   pixel data' r c = pixel data r c).
    { intros Hnot.
      transitivity (pixel (block data' r (S r) c (S c)) 0 0);
        [rewrite pixel_block by lia; rewrite !Nat.add_0_r; reflexivity|].
      rewrite Hother by lia.
      rewrite pixel_block by lia. rewrite !Nat.add_0_r. reflexivity. }
    destruct (Z_lt_le_dec (Z.of_nat r) x0) as [Hr0|Hr0];
      [right; split; [|apply Hout]; unfold covers, tile_x0, tile_y0;
       cbn [fst snd]; fold x0 y0; lia|].
    destruct (Z_lt_le_dec (Z.of_nat r) (x0 + 3601)) as [Hr1|Hr1];
      [|right; split; [|apply Hout]; unfold covers, tile_x0, tile_y0;
        cbn [fst snd]; fold x0 y0; lia].
    destruct (Z_lt_le_dec (Z.of_nat c) y0) as [Hc0|Hc0];
      [right; split; [|apply Hout]; unfold covers, tile_x0, tile_y0;
       cbn [fst snd]; fold x0 y0; lia|].
    destruct (Z_lt_le_dec (Z.of_nat c) (y0 + 3601)) as [Hc1|Hc1];
      [|right; split; [|apply Hout]; unfold covers, tile_x0, tile_y0;
        cbn [fst snd]; fold x0 y0; lia].
    left. unfold from_tile, covers, tile_x0, tile_y0. cbn [fst snd].
    fold x0 y0. split; [lia|].
    rewrite <- Hsame.
    rewrite pixel_block by lia.
    f_equal; lia.
Qed.

Lemma join_fold_ok (indices : list (Z * Z)) :
  forall data,
    has_shape h w data -> Forall fits indices ->
    exists data',
      fold_left join_step indices (Returns data) = Returns data'
      /\ has_shape h w data'
      /\ forall r c, (r < h)%nat -> (c < w)%nat ->
           (exists index, In index indices /\ from_tile data' index r c)
           \/ ((forall index, In index indices -> ~ covers index r c)
               /\ pixel data' r c = pixel data r c).
Proof.
  induction indices as [|index rest IH]; intros data Hshape Hfits;
    cbn [fold_left].
  - exists data. split; [reflexivity|]. split; [assumption|].
    intros r c _ _. right. split; [intros index []|reflexivity].
  - apply Forall_cons_iff in Hfits. destruct Hfits as (Hfit & Hfits).
    destruct (join_step_ok data index Hshape Hfit)
      as (data1 & E1 & Hshape1 & Hpix1).
    rewrite E1.
    destruct (IH data1 Hshape1 Hfits) as (data' & E & Hshape' & Hpix).
    exists data'. split; [exact E|]. split; [exact Hshape'|].
    intros r c Hr Hc.
    destruct (Hpix r c Hr Hc) as [(idx & Hidx & Hfrom)|(Hnone & Heq)].
    + left. exists idx. split; [right; assumption | assumption].
    + destruct (Hpix1 r c Hr Hc) as [(Hcov & Hfrom)|(Hnot & Heq1)].
      * left. exists index. split; [left; reflexivity|].
        split; [assumption|]. rewrite Heq. exact Hfrom.
      * right. split; [|congruence].
        intros idx [<-|Hidx]; [assumption | apply Hnone, Hidx].
Qed.

End JoinFacts.

(** X24. Joining the tiles of an extent (with [per_tile_size = DIM], as
    the caller passes it, and tiles of [DIM x DIM]): when the indices
    are the pairs of a rectangle of [delta_lng] by [delta_lat] tiles,
    at least one each way,
    every assignment fits and the call returns; the buffer keeps its
    shape, and every pixel of it is the pixel of a tile that covers it,
    so nothing is left of what the buffer held when it was
    allocated. *)
Theorem joined_tiles_cover_buffer (read_cell : Z -> Z -> ndarray R)
  (resize : ndarray R -> Z -> ndarray R)
  (np_ndarray : Z -> Z -> ndarray R)
  (indices : list (Z * Z)) (delta_lng delta_lat lat_max lng_min : Z) :
  let px_height := Z.to_nat (3600 * delta_lat + 1) in
  let px_width := Z.to_nat (3600 * delta_lng + 1) in
  (forall lat lng, has_shape 3601 3601 (read_cell lat lng)) ->
  has_shape px_height px_width
    (np_ndarray (3600 * delta_lat + 1) (3600 * delta_lng + 1)) ->
  1 <= delta_lng -> 1 <= delta_lat ->
  (forall lng lat,
      In (lng, lat) indices
      <-> lng_min <= lng < lng_min + delta_lng
          /\ lat_max - delta_lat < lat <= lat_max) ->
  exists data,
    _load_and_join_tiles read_cell resize np_ndarray indices
      delta_lng delta_lat lat_max lng_min DIM = Returns data
    /\ has_shape px_height px_width data
    /\ forall r c, (r < px_height)%nat -> (c < px_width)%nat ->
         exists lng lat,
           In (lng, lat) indices
           /\ let x0 := 3600 * (lat_max - lat) in
              let y0 := 3600 * (lng - lng_min) in
              x0 <= Z.of_nat r < x0 + 3601
              /\ y0 <= Z.of_nat c < y0 + 3601
              /\ pixel data r c
                 = pixel (read_cell lat lng)
                         (r - Z.to_nat x0) (c - Z.to_nat y0).
Proof.
  intros px_height px_width Hcell Hshape Hlng Hlat Hrect.
  assert (Hfits : Forall (fits lat_max lng_min px_height px_width) indices).
  { apply Forall_forall. intros (lng & lat) Hin. apply Hrect in Hin.
    unfold fits, tile_x0, tile_y0, px_height, px_width. cbn [fst snd].
    lia. }
  destruct (join_fold_ok read_cell lat_max lng_min px_height px_width
              Hcell indices _ Hshape Hfits) as (data & E & Hshape' & Hpix).
  exists data. split; [exact E|]. split; [exact Hshape'|].
  intros r c Hr Hc.
  destruct (Hpix r c Hr Hc) as [((lng & lat) & Hin & Hcov & Hfrom)|(Hnone & _)].
  - exists lng, lat. split; [assumption|].
    unfold covers, tile_x0, tile_y0 in Hcov. cbn [fst snd] in *.
    cbv zeta. split; [tauto|]. split; [tauto|]. exact Hfrom.
  - exfalso.
    set (kr := Z.min (Z.of_nat r / 3600) (delta_lat - 1)).
    set (kc := Z.min (Z.of_nat c / 3600) (delta_lng - 1)).
    pose proof (Z.div_mod (Z.of_nat r) 3600 ltac:(lia)) as Dr.
    pose proof (Z.mod_pos_bound (Z.of_nat r) 3600 ltac:(lia)) as Mr.
    pose proof (Z.div_mod (Z.of_nat c) 3600 ltac:(lia)) as Dc.
    pose proof (Z.mod_pos_bound (Z.of_nat c) 3600 ltac:(lia)) as Mc.
    assert (Hr' : Z.of_nat r < 3600 * delta_lat + 1)
      by (unfold px_height in Hr; lia).
    assert (Hc' : Z.of_nat c < 3600 * delta_lng + 1)
      by (unfold px_width in Hc; lia).
    assert (Hdr : 0 <= Z.of_nat r / 3600) by (apply Z.div_pos; lia).
    assert (Hdc : 0 <= Z.of_nat c / 3600) by (apply Z.div_pos; lia).
    apply (Hnone (lng_min + kc, lat_max - kr)).
    + apply Hrect. unfold kr, kc. lia.
    + unfold covers, tile_x0, tile_y0, kr, kc. cbn [fst snd]. lia.
Qed.

Lemma joined_tiles_cover_buffer_witness :
  (forall lat lng : Z, has_shape 3601 3601 (zeros 3601 3601))
  /\ has_shape (Z.to_nat (3600 * 1 + 1)) (Z.to_nat (3600 * 1 + 1))
       (zeros 3601 3601)
  /\ 1 <= 1
  /\ (forall lng lat,
        In (lng, lat) [(0, 0)]
        <-> 0 <= lng < 0 + 1 /\ 0 - 1 < lat <= 0)
  /\ exists data,
       _load_and_join_tiles (fun _ _ => zeros 3601 3601) (fun a _ => a)
         (fun _ _ => zeros 3601 3601) [(0, 0)] 1 1 0 0 DIM = Returns data
       /\ has_shape 3601 3601 data.
Proof.
  assert (H1 : forall lat lng : Z, has_shape 3601 3601 (zeros 3601 3601))
    by (intros _ _; apply zeros_shape).
  assert (H2 : has_shape (Z.to_nat (3600 * 1 + 1)) (Z.to_nat (3600 * 1 + 1))
                 (zeros 3601 3601)) by apply zeros_shape.
  assert (H3 : forall lng lat,
             In (lng, lat) [(0, 0)]
             <-> 0 <= lng < 0 + 1 /\ 0 - 1 < lat <= 0).
  { intros lng lat. cbn [In]. split.
    - intros [[= <- <-]|[]]. lia.
    - intros H. left. f_equal; lia. }
  assert (H4 : 1 <= 1) by lia.
  split; [exact H1|]. split; [exact H2|]. split; [exact H4|].
  split; [exact H3|].
  destruct (joined_tiles_cover_buffer (fun _ _ => zeros 3601 3601)
              (fun a _ => a) (fun _ _ => zeros 3601 3601) [(0, 0)]
              1 1 0 0 H1 H2 H4 H4 H3) as (data & E & Hs & _).
  exists data. split; [exact E | exact Hs].
Defined.

(* ================================================================== *)
(** * Pruning the grid by the list of empty tiles *)
(* ================================================================== *)

(** A cell stays in the pruned tree when the condition fails for every
    cell above it, below the root, and for the cell. *)
Lemma prune_children_keeps (condition : WebMercatorCell -> bool)
  (t : WebMercatorCell) :
  quadtree_inv t ->
  forall c,
    In c (flatten t) ->
    (forall a, In a (flatten t) -> level t < level a ->
               In c (flatten a) -> condition a = false) ->
    In (prune_children condition c) (flatten (prune_children condition t)).
Proof.
  induction t as [t IH] using cell_induction. intros Hinv c Hc Habove.
  apply flatten_In in Hc. destruct Hc as [->|(key & child & Hk & Hc)].
  - apply flatten_self.
  - destruct (quadtree_inv_child t child key Hinv Hk) as (Hq & Hcinv).
    assert (Hl : level child = level t + 1).
    { destruct (row_of t key) as [[[[[[k0 a] b] xa] xb] ya] yb]. apply Hq. }
    pose proof (flatten_child t t child key (flatten_self t) Hk) as Hchild.
    assert (Hcond : condition child = false)
      by (apply Habove; [assumption | lia | assumption]).
    assert (Hattr : getattr (prune_children condition t) key
                    = Some (prune_children condition child)).
    { rewrite prune_children_getattr, Hk. unfold pruned_child.
      rewrite Hcond. reflexivity. }
    apply (flatten_trans _ (prune_children condition child)).
    + exact (flatten_child _ _ _ key (flatten_self _) Hattr).
    + apply (IH key child Hk Hcinv c Hc).
      intros a Ha Hla Hca. apply Habove; [|lia|assumption].
      exact (flatten_trans t child a Hchild Ha).
Qed.

Lemma checker_call_same_address (checker : EmptyChecker)
  (c c' : WebMercatorCell) :
  address c = address c' ->
  checker_call checker c = checker_call checker c'.
Proof.
  unfold address, checker_call. intros [= -> -> ->]. reflexivity.
Qed.

Section PrunedGrid.

Variable intersect : Feature -> Feature -> option Feature.

(** Below a member of the list, every cell of the grid is a member. *)
Lemma empties_descendants (doc : GeoJSON) (min_level max_level : Z)
  (empties : list WebMercatorCell) :
  generate_list_of_empty_tiles intersect doc min_level max_level
  = Returns empties ->
  forall e, In e empties -> forall c, In c (flatten e) -> In c empties.
Proof.
  intros Hgen. induction e as [e IH] using cell_induction.
  intros He c Hc.
  apply flatten_In in Hc. destruct Hc as [->|(key & child & Hk & Hc)];
    [assumption|].
  destruct (empties_members intersect _ _ _ _ e Hgen He)
    as (Hgrid & [(Hlev & _)|(_ & Hkids)]).
  - exfalso.
    pose proof (flatten_child _ e child key Hgrid Hk) as Hchild.
    pose proof (grid_root_levels max_level child Hchild) as Hb.
    pose proof (grid_root_levels max_level e Hgrid) as Hbe.
    pose proof (quadtree_inv_flatten _ e (grid_root_inv _) Hgrid) as Hinv.
    destruct (quadtree_inv_child e child key Hinv Hk) as (Hq & _).
    assert (Hl : level child = level e + 1).
    { destruct (row_of e key) as [[[[[[k0 a] b] xa] xb] ya] yb]. apply Hq. }
    lia.
  - destruct (Hkids key) as (c0 & Hk0 & Hc0).
    assert (c0 = child) by congruence. subst c0.
    exact (IH key child Hk Hc0 c Hc).
Qed.

(** X25. Pruning the grid by the list of empty tiles loses no tile that
    is not empty: with a checker that holds exactly for the addresses
    of the list (as the file of empties gives it), a cell of the grid
    has its address in the pruned grid exactly when it is the root or is
    not in the list. *)
Theorem pruned_grid_nonempty_cells (doc : GeoJSON) (min_level max_level : Z)
  (empties : list WebMercatorCell) (checker : EmptyChecker)
  (grid : WebMercatorCell) :
  generate_list_of_empty_tiles intersect doc min_level max_level
  = Returns empties ->
  (forall cell,
      checker_call checker cell = true
      <-> exists t, In t empties /\ address t = address cell) ->
  generate_webmercator_grid max_level = Some grid ->
  let pruned := fst (_inner_prune_empties grid checker) in
  forall c,
    In c (flatten grid) ->
    ((exists c', In c' (flatten pruned) /\ address c' = address c)
     <-> level c = 0 \/ ~ In c empties).
Proof.
  intros Hgen Hchecker Hgrid pruned c Hc.
  rewrite generate_webmercator_grid_full in Hgrid.
  fold (grid_root max_level) in Hgrid. injection Hgrid as <-.
  unfold pruned. rewrite (proj1 (inner_prune_spec checker _)).
  pose proof (grid_root_inv max_level) as Hinv.
  assert (Hmember : forall a,
            In a (flatten (grid_root max_level)) ->
            (checker_call checker a = true <-> In a empties)).
  { intros a Ha. rewrite Hchecker. split.
    - intros (t & Ht & Haddr).
      destruct (empties_members intersect _ _ _ _ t Hgen Ht) as (Htg & _).
      unfold address in Haddr. injection Haddr as H1 H2 H3.
      assert (t = a)
        by (apply (flatten_address_unique (grid_root max_level));
            assumption).
      subst t. assumption.
    - intros Hin. exists a. split; [assumption | reflexivity]. }
  split.
  - intros (c' & Hc' & Haddr).
    destruct (prune_children_clean checker _ c' Hc') as [->|Hfalse].
    + left. rewrite prune_children_address in Haddr.
      destruct (grid_root_address max_level) as (H0 & _).
      unfold address in Haddr. congruence.
    + right. intros Hin. apply (Hmember c Hc) in Hin.
      rewrite (checker_call_same_address checker c c') in Hin
        by (symmetry; exact Haddr).
      congruence.
  - intros Hkeep.
    exists (prune_children (checker_call checker) c).
    split; [|apply prune_children_address].
    destruct Hkeep as [Hroot|Hnot].
    + assert (c = grid_root max_level).
      { destruct (grid_root_address max_level) as (H0 & H1 & H2).
        destruct (flatten_range _ c Hinv Hc) as (_ & Hi & Hj).
        rewrite H0, H1, Hroot in Hi. rewrite H0, H2, Hroot in Hj.
        cbn in Hi, Hj.
        apply (flatten_address_unique (grid_root max_level));
          try assumption; [apply flatten_self | lia..]. }
      subst c. apply flatten_self.
    + apply prune_children_keeps; [assumption | assumption |].
      intros a Ha _ Hca.
      destruct (checker_call checker a) eqn:E; [|reflexivity].
      exfalso. apply Hnot. apply (Hmember a Ha) in E.
      exact (empties_descendants doc min_level max_level empties Hgen
               a E c Hca).
Qed.

End PrunedGrid.

Lemma pruned_grid_nonempty_cells_witness :
  exists empties checker grid,
    generate_list_of_empty_tiles no_intersection (FeatureCollection []) 0 1
    = Returns empties
    /\ (forall cell,
          checker_call checker cell = true
          <-> exists t, In t empties /\ address t = address cell)
    /\ generate_webmercator_grid 1 = Some grid
    /\ forall c,
         In c (flatten grid) ->
         ((exists c',
              In c' (flatten (fst (_inner_prune_empties grid checker)))
              /\ address c' = address c)
          <-> level c = 0 \/ ~ In c empties).
Proof.
  eexists.
  assert (Hgen : generate_list_of_empty_tiles no_intersection
                   (FeatureCollection []) 0 1 = Returns _)
    by (apply generate_list_of_collection; constructor).
  match type of Hgen with
  | _ = Returns ?E =>
    exists (map address E), (grid_root 1);
    assert (Hchecker : forall cell,
              checker_call (map address E) cell = true
              <-> exists t, In t E /\ address t = address cell)
  end.
  { intros cell. rewrite checker_call_In, in_map_iff.
    split; intros (t & H1 & H2); exists t; split; assumption. }
  assert (Hgrid := generate_webmercator_grid_full 1).
  split; [exact Hgen|]. split; [exact Hchecker|]. split; [exact Hgrid|].
  exact (pruned_grid_nonempty_cells no_intersection _ 0 1 _ _ _
           Hgen Hchecker Hgrid).
Defined.
